(** * Computer-Emulator-cpp: memory regions, the SWI gateway and the
      assembler preprocessor, embedded and checked against the design
      document.

    The development follows the sources:
    - [Memory]      core/emulator32bit/src/Memory.cpp
    - [Swi]         core/emulator32bit/src/software_interrupt.cpp
    - [Tokenizer]   src/AssemblerV3/Tokenizer.h
    - [Preprocessor] src/AssemblerV3/Preprocess/PreprocessorV3.cpp
    - [StringUtil]  src/util/StringUtil.h
    - [ByteWriter]  core/util/include/util/File.h

    Machine integers are values of [Z] with the wrap-around written out:
    [word] is the 32-bit unsigned type, [byte] the 8-bit unsigned type. *)

From Stdlib Require Import ZArith Lia Ascii String.
From stdpp Require Import base option list gmap strings.

Local Open Scope Z_scope.

(** ** Machine arithmetic shared by the emulator modules *)

Definition wrap32 (z : Z) : Z := z mod 2 ^ 32.
Definition wrap8 (z : Z) : Z := z mod 2 ^ 8.

(** [val <<= 8; val += b] on a [word]: the step of every loop that
    assembles a value from bytes. *)
Definition shift_in (val b : Z) : Z := wrap32 (wrap32 (Z.shiftl val 8) + b).

(** The bytes of [value], least significant first, and the value a list
    of bytes assembles to when each byte is shifted in after the
    previous ones. *)
Definition le_bytes (n : Z) (value : Z) : list Z :=
  (fun j => Z.land (Z.shiftr value (8 * j)) 255) <$> seqZ 0 n.
Definition shifted_in (bytes : list Z) : Z := fold_left shift_in bytes 0.

(** * Memory.cpp *)

Module Memory.

(** Memory.h is not among the sources.  The exception records carry the
    fields Memory.cpp assigns; [AOK] stands for the state of a record no
    access has faulted on. *)
Inductive ExceptionType := AOK | OUT_OF_BOUNDS_ADDRESS | ACCESS_DENIED.

Record MemoryReadException := mkReadException {
  r_type : ExceptionType;
  r_address : Z
}.

Record MemoryWriteException := mkWriteException {
  w_type : ExceptionType;
  w_address : Z;
  w_value : Z;
  w_num_bytes : Z
}.

(** The object state of [class Memory]: [data] is the array allocated by
    [new byte[mem_size]]. *)
Record Memory := mkMemory {
  mem_size : Z;
  lo_addr : Z;
  hi_addr : Z;
  data : list Z
}.

(** The constructor's assertions and its allocation. *)
Definition constructed (m : Memory) : Prop :=
  0 <= lo_addr m /\ lo_addr m <= hi_addr m /\ hi_addr m < 2 ^ 32 /\
  mem_size m = wrap32 (hi_addr m - lo_addr m + 1) /\
  Z.of_nat (length (data m)) = mem_size m /\
  Forall (fun b => 0 <= b < 2 ^ 8) (data m).

Definition in_bounds (m : Memory) (address : Z) : bool :=
  (lo_addr m <=? address) && (address <=? hi_addr m).

(** The guard of both [read] and [write]: [address + num_bytes - 1] is
    computed in [word] arithmetic. *)
Definition out_of_bounds (m : Memory) (address num_bytes : Z) : bool :=
  negb (in_bounds m address)
  || negb (in_bounds m (wrap32 (address + num_bytes - 1))).

(** A subscript outside the array is undefined behaviour in C++: the
    loops answer [None] there. *)
Fixpoint read_loop (d : list Z) (address i : Z) (n : nat) (value : Z)
  : option Z :=
  match n with
  | O => Some value
  | S n' =>
      match d !! Z.to_nat (wrap32 (address + i)) with
      | Some b => read_loop d address (i + 1) n' (shift_in value b)
      | None => None
      end
  end.

Definition read (m : Memory) (address : Z) (exception : MemoryReadException)
    (num_bytes : Z) : option (Z * MemoryReadException) :=
  if out_of_bounds m address num_bytes then
    Some (0, mkReadException OUT_OF_BOUNDS_ADDRESS address)
  else
    v ← read_loop (data m) address 0 (Z.to_nat num_bytes) 0;
    Some (v, exception).

(** The write loop also returns the subscripts it stored to, oldest
    first. *)
Fixpoint write_loop (d : list Z) (address i : Z) (n : nat) (value : Z)
  : option (list Z * list Z) :=
  match n with
  | O => Some (d, [])
  | S n' =>
      let k := wrap32 (address + i) in
      if decide (Z.to_nat k < length d)%nat then
        '(d', tr) ← write_loop (<[Z.to_nat k := Z.land value 255]> d)
                      address (i + 1) n' (Z.shiftr value 8);
        Some (d', k :: tr)
      else None
  end.

Record WriteResult := mkWriteResult {
  wr_memory : Memory;
  wr_exception : MemoryWriteException;
  wr_trace : list Z
}.

Definition write (m : Memory) (address value : Z)
    (exception : MemoryWriteException) (num_bytes : Z) : option WriteResult :=
  if out_of_bounds m address num_bytes then
    Some (mkWriteResult m
            (mkWriteException OUT_OF_BOUNDS_ADDRESS address value num_bytes) [])
  else
    '(d', tr) ← write_loop (data m) address 0 (Z.to_nat num_bytes) value;
    Some (mkWriteResult
            (mkMemory (mem_size m) (lo_addr m) (hi_addr m) d') exception tr).

(** [RAM] adds nothing to [Memory]. *)
Definition RAM (mem_size lo_addr hi_addr : Z) (uninitialised : list Z) : Memory :=
  mkMemory mem_size lo_addr hi_addr uninitialised.

(** [ROM::ROM]: the region is sized from its window and filled from
    [rom_data]. *)
Definition ROM (rom_data : list Z) (lo_addr hi_addr : Z) : Memory :=
  let size := wrap32 (hi_addr - lo_addr + 1) in
  mkMemory size lo_addr hi_addr (take (Z.to_nat size) rom_data).

Definition ROM_write (m : Memory) (address value : Z)
    (exception : MemoryWriteException) (num_bytes : Z) : WriteResult :=
  mkWriteResult m (mkWriteException ACCESS_DENIED address value num_bytes) [].

(** The typed readers: the result of [read] converted to the return
    type ([byte], [hword], [word]). *)
Definition readByte (m : Memory) (address : Z) (exception : MemoryReadException)
  : option (Z * MemoryReadException) :=
  '(v, e) ← read m address exception 1; Some (wrap8 v, e).

Definition readHalfWord (m : Memory) (address : Z)
    (exception : MemoryReadException) : option (Z * MemoryReadException) :=
  '(v, e) ← read m address exception 2; Some (v mod 2 ^ 16, e).

Definition readWord (m : Memory) (address : Z) (exception : MemoryReadException)
  : option (Z * MemoryReadException) :=
  '(v, e) ← read m address exception 4; Some (wrap32 v, e).

End Memory.

(** * software_interrupt.cpp *)

Module Swi.

(** What a handler does to the outside world, in program order. *)
Inductive Effect :=
| Print_state                                   (* print() *)
| Printf_reg (reg_id val : Z)                   (* "REG: %d = %x\n" *)
| Printf_mem (mem_addr val : Z)                 (* "MEM: %x = %.2x" *)
| Printf_pstate (n z c v : bool)                (* "PSTATE: N=..,Z=..,C=..,V=.." *)
| Expect_true (cond : bool)                     (* EXPECT_TRUE_SS(cond, ..) *)
| Cout (msg : list Z)                           (* std::cout << msg << "\n" *)
| Cerr (msg : list Z)                           (* std::cerr << msg << "\n" *)
| Error_invalid_syscall (id : Z).               (* ERROR_SS("INVALID SYSCALL NUMBER: ..") *)

(** The numbers the [switch] of [_swi] has a case for. *)
Definition dispatched_syscalls : list Z :=
  [1000; 1001; 1002; 1003; 1010; 1011; 1012].

Section Emulator.

(** emulator32bit.h and the system bus are not among the sources: the
    gateway is embedded over the operations it calls. *)
Variable read_reg : Z -> Z.                  (* read_reg(id, exception) *)
Variable read_byte : Z -> Z.                 (* system_bus.read_byte(addr, ..) *)
Variable bitfield_u32 : Z -> Z -> Z -> Z.     (* bitfield_u32(instr, pos, len) *)
Variable check_cond : Z -> Z -> bool.        (* check_cond(_pstate, cond) *)
Variable test_bit : Z -> Z -> bool.          (* test_bit(_pstate, flag) *)
Variable _pstate : Z.
Variables NR N_FLAG Z_FLAG C_FLAG V_FLAG : Z.

(** Conversions at the call sites of [_swi]: a [word] argument passed for
    a [byte] or a [bool] parameter. *)
Definition to_byte (w : Z) : Z := wrap8 w.
Definition to_bool (w : Z) : bool := negb (w =? 0).

(** [for (byte i = 0; i < size; i++)] *)
Fixpoint assemble_ascending (mem_addr i : Z) (n : nat) (val : Z) : Z :=
  match n with
  | O => val
  | S n' => assemble_ascending mem_addr (i + 1) n'
              (shift_in val (read_byte (wrap32 (mem_addr + i))))
  end.

(** [for (int i = size - 1; i >= 0; i--)] *)
Fixpoint assemble_descending (mem_addr i : Z) (n : nat) (val : Z) : Z :=
  match n with
  | O => val
  | S n' => assemble_descending mem_addr (i - 1) n'
              (shift_in val (read_byte (wrap32 (mem_addr + i))))
  end.

(** The value both [_emu_printm] and [_emu_assertm] assemble. *)
Definition assembled (mem_addr size : Z) (little_endian : bool) : Z :=
  if little_endian then assemble_ascending mem_addr 0 (Z.to_nat size) 0
  else assemble_descending mem_addr (size - 1) (Z.to_nat size) 0.

Definition _emu_print : list Effect := [Print_state].

Definition _emu_printr (reg_id : Z) : list Effect :=
  [Printf_reg reg_id (read_reg reg_id)].

Definition _emu_printm (mem_addr size : Z) (little_endian : bool) : list Effect :=
  [Printf_mem mem_addr (assembled mem_addr size little_endian)].

Definition _emu_printp : list Effect :=
  [Printf_pstate (test_bit _pstate N_FLAG) (test_bit _pstate Z_FLAG)
                 (test_bit _pstate C_FLAG) (test_bit _pstate V_FLAG)].

Definition _emu_assertr (reg_id min_value max_value : Z) : list Effect :=
  let val := read_reg reg_id in
  [Expect_true ((min_value <=? val) && (val <=? max_value))].

Definition _emu_assertm (mem_addr size : Z) (little_endian : bool)
    (min_value max_value : Z) : list Effect :=
  let val := assembled mem_addr size little_endian in
  [Expect_true ((min_value <=? val) && (val <=? max_value))].

Definition _emu_assertp (p_state_id : Z) (expected_value : bool) : list Effect :=
  let val := test_bit _pstate p_state_id in
  [Expect_true (eqb val expected_value)].

(** The string loop of [_emu_log] and [_emu_err]; it ends at the first
    NUL byte, [None] when none is met within [fuel] bytes. *)
Fixpoint read_c_string (fuel : nat) (str : Z) : option (list Z) :=
  match fuel with
  | O => None
  | S fuel' =>
      if read_byte str =? 0 then Some []
      else msg ← read_c_string fuel' (wrap32 (str + 1));
           Some (read_byte str :: msg)
  end.

Definition _emu_log (fuel : nat) (str : Z) : option (list Effect) :=
  msg ← read_c_string fuel str; Some [Cout msg].

Definition _emu_err (fuel : nat) (err : Z) : option (list Effect) :=
  msg ← read_c_string fuel err; Some [Cerr msg].

Definition _swi (instr : Z) : list Effect :=
  let cond := to_byte (bitfield_u32 instr 22 4) in
  if negb (check_cond _pstate cond) then []
  else
    let id := read_reg NR in
    let arg0 := read_reg 0 in
    let arg1 := read_reg 1 in
    let arg2 := read_reg 2 in
    let arg3 := read_reg 3 in
    let arg4 := read_reg 4 in
    if id =? 1000 then _emu_print
    else if id =? 1001 then _emu_printr (to_byte arg0)
    else if id =? 1002 then _emu_printm arg0 (to_byte arg1) (to_bool arg2)
    else if id =? 1003 then _emu_printp
    else if id =? 1010 then _emu_assertr (to_byte arg0) arg1 arg2
    else if id =? 1011 then _emu_assertm arg0 (to_byte arg1) (to_bool arg2) arg3 arg4
    else if id =? 1012 then _emu_assertp (to_byte arg0) (to_bool arg1)
    else [Error_invalid_syscall id].

End Emulator.

End Swi.

(** * Tokenizer.h *)

Module Tokenizer.

Local Open Scope string_scope.

(** [enum Tokenizer::Type], every enumerator in declaration order. *)
Inductive TokenType :=
  | UNKNOWN | TEXT | WHITESPACE_SPACE | WHITESPACE_TAB | WHITESPACE_NEWLINE
  | WHITESPACE | COMMENT_SINGLE_LINE | COMMENT_MULTI_LINE
  | PREPROCESSOR_INCLUDE | PREPROCESSOR_MACRO | PREPROCESSOR_MACRET
  | PREPROCESSOR_MACEND | PREPROCESSOR_INVOKE | PREPROCESSOR_DEFINE
  | PREPROCESSOR_UNDEF | PREPROCESSOR_IFDEF | PREPROCESSOR_IFNDEF
  | PREPROCESSOR_ELSE | PREPROCESSOR_ELSEDEF | PREPROCESSOR_ELSENDEF
  | PREPROCESSOR_ENDIF | VARIABLE_TYPE_BYTE | VARIABLE_TYPE_DBYTE
  | VARIABLE_TYPE_WORD | VARIABLE_TYPE_DWORD | VARIABLE_TYPE_CHAR
  | VARIABLE_TYPE_STRING | VARIABLE_TYPE_FLOAT | VARIABLE_TYPE_DOUBLE
  | VARIABLE_TYPE_BOOLEAN | ASSEMBLER_GLOBAL | ASSEMBLER_EXTERN
  | ASSEMBLER_EQU | ASSEMBLER_ORG | ASSEMBLER_SCOPE | ASSEMBLER_SCEND
  | ASSEMBLER_DB_LOW_ENDIAN | ASSEMBLER_DDB_LOW_ENDIAN
  | ASSEMBLER_DDB_HIGH_ENDIAN | ASSEMBLER_DW_LOW_ENDIAN
  | ASSEMBLER_DW_HIGH_ENDIAN | ASSEMBLER_DDW_LOW_ENDIAN
  | ASSEMBLER_DDW_HIGH_ENDIAN | ASSEMBLER_ASCII | ASSEMBLER_ASCIZ
  | ASSEMBLER_ADVANCE | ASSEMBLER_FILL | ASSEMBLER_SPACE | ASSEMBLER_CHECKPC
  | ASSEMBLER_ALIGN | ASSEMBLER_BSS | ASSEMBLER_BSS_ABSOLUTE | ASSEMBLER_DATA
  | ASSEMBLER_DATA_ABSOLUTE | ASSEMBLER_CODE | ASSEMBLER_CODE_ABSOLUTE
  | ASSEMBLER_STOP | NUMBER_SIGN | LITERAL_NUMBER_BINARY
  | LITERAL_NUMBER_OCTAL | LITERAL_NUMBER_DECIMAL
  | LITERAL_NUMBER_HEXADECIMAL | LITERAL_CHAR | LITERAL_STRING | SYMBOL
  | COLON | COMMA | SEMICOLON | OPEN_PARANTHESIS | CLOSE_PARANTHESIS
  | OPEN_BRACKET | CLOSE_BRACKET | OPEN_BRACE | CLOSE_BRACE
  | OPERATOR_ADDITION | OPERATOR_SUBTRACTION | OPERATOR_MULTIPLICATION
  | OPERATOR_DIVISION | OPERATOR_MODULUS | OPERATOR_BITWISE_LEFT_SHIFT
  | OPERATOR_BITWISE_RIGHT_SHIFT | OPERATOR_BITWISE_XOR
  | OPERATOR_BITWISE_AND | OPERATOR_BITWISE_OR | OPERATOR_BITWISE_COMPLEMENT
  | OPERATOR_LOGICAL_NOT | OPERATOR_LOGICAL_EQUAL
  | OPERATOR_LOGICAL_NOT_EQUAL | OPERATOR_LOGICAL_LESS_THAN
  | OPERATOR_LOGICAL_GREATER_THAN | OPERATOR_LOGICAL_LESS_THAN_OR_EQUAL
  | OPERATOR_LOGICAL_GREATER_THAN_OR_EQUAL | OPERATOR_LOGICAL_OR
  | OPERATOR_LOGICAL_AND.

#[global] Instance TokenType_eq_dec : EqDecision TokenType.
Proof. solve_decision. Defined.

Record Token := mkToken {
  type : TokenType;
  value : string
}.

#[global] Instance Token_eq_dec : EqDecision Token.
Proof. solve_decision. Defined.

(** Membership in one of the [std::set<Type>] constants. *)
Definition type_in (t : TokenType) (s : list TokenType) : bool :=
  bool_decide (t ∈ s).

Definition WHITESPACES : list TokenType :=
  [WHITESPACE_SPACE; WHITESPACE_TAB; WHITESPACE_NEWLINE].

Definition COMMENTS : list TokenType :=
  [COMMENT_SINGLE_LINE; COMMENT_MULTI_LINE].

Definition PREPROCESSOR_DIRECTIVES : list TokenType :=
  [PREPROCESSOR_INCLUDE; PREPROCESSOR_MACRO; PREPROCESSOR_MACRET;
   PREPROCESSOR_MACEND; PREPROCESSOR_INVOKE; PREPROCESSOR_DEFINE;
   PREPROCESSOR_UNDEF; PREPROCESSOR_IFDEF; PREPROCESSOR_IFNDEF;
   PREPROCESSOR_ELSE; PREPROCESSOR_ELSEDEF; PREPROCESSOR_ELSENDEF;
   PREPROCESSOR_ENDIF].

Definition VARIABLE_TYPES : list TokenType :=
  [VARIABLE_TYPE_BYTE; VARIABLE_TYPE_DBYTE; VARIABLE_TYPE_WORD;
   VARIABLE_TYPE_DWORD; VARIABLE_TYPE_CHAR; VARIABLE_TYPE_STRING;
   VARIABLE_TYPE_FLOAT; VARIABLE_TYPE_DOUBLE; VARIABLE_TYPE_BOOLEAN].

Definition ASSEMBLER_DIRECTIVES : list TokenType :=
  [ASSEMBLER_EQU; ASSEMBLER_ORG].

Definition dquote : string := String "034"%char EmptyString.
Definition tab : string := String "009"%char EmptyString.
Definition newline : string := String "010"%char EmptyString.

(** [TOKEN_SPEC]: the regular expressions as the regex engine receives
    them (the C++ escapes of the string literals undone), in table
    order. *)
Definition TOKEN_SPEC : list (string * TokenType) := [
  ("^ ", WHITESPACE_SPACE);
  ("^\t", WHITESPACE_TAB);
  ("^\n", WHITESPACE_NEWLINE);
  ("^[\s^[ \n\t]]+", WHITESPACE);
  ("^;\*[^*]*\*+(?:[^;*][^*]*\*+)*;", COMMENT_MULTI_LINE);
  ("^;.*", COMMENT_SINGLE_LINE);
  ("^\{", OPEN_BRACE);
  ("^\}", CLOSE_BRACE);
  ("^\[", OPEN_BRACKET);
  ("^\]", CLOSE_BRACKET);
  ("^\(", OPEN_PARANTHESIS);
  ("^\)", CLOSE_PARANTHESIS);
  ("^,", COMMA);
  ("^:", COLON);
  ("^;", SEMICOLON);
  ("^#include(?=\s)", PREPROCESSOR_INCLUDE);
  ("^#macro(?=\s)", PREPROCESSOR_MACRO);
  ("^#macret(?=\s)", PREPROCESSOR_MACRET);
  ("^#macend(?=\s)", PREPROCESSOR_MACEND);
  ("^#invoke(?=\s)", PREPROCESSOR_INVOKE);
  ("^#define(?=\s)", PREPROCESSOR_DEFINE);
  ("^#undef(?=\s)", PREPROCESSOR_UNDEF);
  ("^#ifdef(?=\s)", PREPROCESSOR_IFDEF);
  ("^#ifndef(?=\s)", PREPROCESSOR_IFNDEF);
  ("^#else(?=\s)", PREPROCESSOR_ELSE);
  ("^#elsedef(?=\s)", PREPROCESSOR_ELSEDEF);
  ("^#elsendef(?=\s)", PREPROCESSOR_ELSENDEF);
  ("^#endif(?=\s)", PREPROCESSOR_ENDIF);
  ("^BYTE(?=[\s,\)])", VARIABLE_TYPE_BYTE);
  ("^DBYTE(?=[\s,\)])", VARIABLE_TYPE_DBYTE);
  ("^WORD(?=[\s,\)])", VARIABLE_TYPE_WORD);
  ("^DWORD(?=[\s,\)])", VARIABLE_TYPE_DWORD);
  ("^\.global(?=\s)", ASSEMBLER_GLOBAL);
  ("^\.extern(?=\s)", ASSEMBLER_EXTERN);
  ("^\.equ(?=\s)", ASSEMBLER_EQU);
  ("^\.org(?=\s)", ASSEMBLER_ORG);
  ("^\.scope(?=\s)", ASSEMBLER_SCOPE);
  ("^\.scend(?=\s)", ASSEMBLER_SCEND);
  ("^\.db(?=\s)", ASSEMBLER_DB_LOW_ENDIAN);
  ("^\.ddb(?=\s)", ASSEMBLER_DDB_LOW_ENDIAN);
  ("^\.ddb\*(?=\s)", ASSEMBLER_DDB_HIGH_ENDIAN);
  ("^\.dw(?=\s)", ASSEMBLER_DW_LOW_ENDIAN);
  ("^\.dw\*(?=\s)", ASSEMBLER_DW_HIGH_ENDIAN);
  ("^\.ddw(?=\s)", ASSEMBLER_DDW_LOW_ENDIAN);
  ("^\.ddw\*(?=\s)", ASSEMBLER_DDW_HIGH_ENDIAN);
  ("^\.ascii(?=\s)", ASSEMBLER_ASCII);
  ("^\.asciz(?=\s)", ASSEMBLER_ASCIZ);
  ("^\.advance(?=\s)", ASSEMBLER_ADVANCE);
  ("^\.fill(?=\s)", ASSEMBLER_FILL);
  ("^\.space(?=\s)", ASSEMBLER_SPACE);
  ("^\.checkpc(?=\s)", ASSEMBLER_CHECKPC);
  ("^\.align(?=\s)", ASSEMBLER_ALIGN);
  ("^\.bss(?=\s)", ASSEMBLER_BSS);
  ("^\.bss\*(?=\s)", ASSEMBLER_BSS_ABSOLUTE);
  ("^\.data(?=\s)", ASSEMBLER_DATA);
  ("^\.data\*(?=\s)", ASSEMBLER_DATA_ABSOLUTE);
  ("^\.code(?=\s)", ASSEMBLER_CODE);
  ("^\.code\*(?=\s)", ASSEMBLER_CODE_ABSOLUTE);
  ("^\.stop(?=\s)", ASSEMBLER_STOP);
  ("^#", NUMBER_SIGN);
  ("^%[0-1]+", LITERAL_NUMBER_BINARY);
  ("^@[0-7]+", LITERAL_NUMBER_OCTAL);
  ("^[0-9]+", LITERAL_NUMBER_DECIMAL);
  ("^\$[0-9a-fA-F]+", LITERAL_NUMBER_HEXADECIMAL);
  ("^'.'", LITERAL_CHAR);
  (("^" ++ dquote ++ ".*" ++ dquote ++ EmptyString), LITERAL_STRING);
  ("^[a-zA-Z_][a-zA-Z0-9_]*", SYMBOL);
  ("^\+", OPERATOR_ADDITION);
  ("^\-", OPERATOR_SUBTRACTION);
  ("^\*", OPERATOR_MULTIPLICATION);
  ("^\/", OPERATOR_DIVISION);
  ("^\%", OPERATOR_MODULUS);
  ("^\|\|", OPERATOR_LOGICAL_OR);
  ("^\&\&", OPERATOR_LOGICAL_AND);
  ("^\<\<", OPERATOR_BITWISE_LEFT_SHIFT);
  ("^\>\>", OPERATOR_BITWISE_RIGHT_SHIFT);
  ("^\^", OPERATOR_BITWISE_XOR);
  ("^\&", OPERATOR_BITWISE_AND);
  ("^\|", OPERATOR_BITWISE_OR);
  ("^~", OPERATOR_BITWISE_COMPLEMENT);
  ("^==", OPERATOR_LOGICAL_EQUAL);
  ("^!=", OPERATOR_LOGICAL_NOT_EQUAL);
  ("^!", OPERATOR_LOGICAL_NOT);
  ("^\<=", OPERATOR_LOGICAL_LESS_THAN_OR_EQUAL);
  ("^\>=", OPERATOR_LOGICAL_GREATER_THAN_OR_EQUAL);
  ("^\<", OPERATOR_LOGICAL_LESS_THAN);
  ("^\>", OPERATOR_LOGICAL_GREATER_THAN)
].

(** The characters the regex class [\s] accepts. *)
Definition is_space (c : ascii) : bool :=
  bool_decide (c ∈ [" "; "009"; "010"; "011"; "012"; "013"]%char).

Fixpoint strip_prefix (p s : string) : option string :=
  match p, s with
  | EmptyString, _ => Some s
  | String a p', String b s' =>
      if bool_decide (a = b) then strip_prefix p' s' else None
  | String _ _, EmptyString => None
  end.

Fixpoint contains (needle s : string) : bool :=
  match strip_prefix needle s with
  | Some _ => true
  | None => match s with
            | EmptyString => false
            | String _ s' => contains needle s'
            end
  end.

Fixpoint strip_suffix (suffix s : string) : option string :=
  if bool_decide (s = suffix) then Some EmptyString
  else match s with
       | EmptyString => None
       | String a s' => String a <$> strip_suffix suffix s'
       end.

(** The characters of a directive keyword: [#] and lower-case letters,
    none of which the regex syntax treats specially. *)
Definition plain_char (c : ascii) : bool :=
  bool_decide (c = "#"%char)
  || ((97 <=? nat_of_ascii c)%nat && (nat_of_ascii c <=? 122)%nat).

Fixpoint all_plain (s : string) : bool :=
  match s with
  | EmptyString => true
  | String c s' => plain_char c && all_plain s'
  end.

(** A regex of the form [^keyword(?=\s)] and the keyword it spells. *)
Definition keyword_of (regex : string) : option string :=
  body ← strip_prefix "^" regex;
  kw ← strip_suffix "(?=\s)" body;
  if all_plain kw then Some kw else None.

(** Such a regex matches at the head of [text] when [text] continues the
    keyword with a [\s] character (which the match does not take). *)
Definition keyword_matches (kw text : string) : bool :=
  match strip_prefix kw text with
  | Some (String c _) => is_space c
  | _ => false
  end.

(** The rows of [TOKEN_SPEC] that produce a directive kind. *)
Definition directive_rows : list (string * TokenType) :=
  filter (fun row => type_in row.2 PREPROCESSOR_DIRECTIVES) TOKEN_SPEC.

(** The directive kind of a spelling: the row of [TOKEN_SPEC] whose regex
    is [^spelling(?=\s)]. *)
Definition directive_kind (spelling : string) : option TokenType :=
  match list_find (fun row => bool_decide (keyword_of row.1 = Some spelling))
          directive_rows with
  | Some (_, (_, kind)) => Some kind
  | None => None
  end.

(** [TYPE_TO_NAME_MAP.at(type)]: the name the table holds for a kind;
    [None] where [at] throws [std::out_of_range] for want of an entry. *)
Definition TYPE_TO_NAME_MAP (t : TokenType) : option string :=
  match t with
  | UNKNOWN => Some "UNKNOWN"
  | TEXT => Some "TEXT"
  | WHITESPACE_SPACE => Some "WHITESPACE_SPACE"
  | WHITESPACE_TAB => Some "WHITE_SPACE_TAB"
  | WHITESPACE_NEWLINE => Some "WHITESPACE_NEWLINE"
  | COMMENT_SINGLE_LINE => Some "COMMENT_SINGLE_LINE"
  | COMMENT_MULTI_LINE => Some "COMMENT_MULTI_LINE"
  | PREPROCESSOR_INCLUDE => Some "PREPROCESSOR_INCLUDE"
  | PREPROCESSOR_MACRO => Some "PREPROCESSOR_MACRO"
  | PREPROCESSOR_MACRET => Some "PREPROCESSOR_MACRET"
  | PREPROCESSOR_MACEND => Some "PREPROCESSOR_MACEND"
  | PREPROCESSOR_INVOKE => Some "PREPROCESSOR_INVOKE"
  | PREPROCESSOR_DEFINE => Some "PREPROCESSOR_DEFINE"
  | PREPROCESSOR_UNDEF => Some "PREPROCESSOR_UNDEF"
  | PREPROCESSOR_IFDEF => Some "PREPROCESSOR_IFDEF"
  | PREPROCESSOR_IFNDEF => Some "PREPROCESSOR_IFNDEF"
  | PREPROCESSOR_ELSE => Some "PREPROCESSOR_ELSE"
  | PREPROCESSOR_ELSEDEF => Some "PREPROCESSOR_ELSEDEF"
  | PREPROCESSOR_ELSENDEF => Some "PREPROCESSOR_ELSENDEF"
  | PREPROCESSOR_ENDIF => Some "PREPROCESSOR_ENDIF"
  | VARIABLE_TYPE_BYTE => Some "VARIABLE_TYPE_BYTE"
  | VARIABLE_TYPE_DBYTE => Some "VARIABLE_TYPE_DBYTE"
  | VARIABLE_TYPE_WORD => Some "VARIABLE_TYPE_WORD"
  | VARIABLE_TYPE_DWORD => Some "VARIABLE_TYPE_DWORD"
  | VARIABLE_TYPE_CHAR => Some "VARIABLE_TYPE_CHAR"
  | VARIABLE_TYPE_STRING => Some "VARIABLE_TYPE_STRING"
  | VARIABLE_TYPE_FLOAT => Some "VARIABLE_TYPE_FLOAT"
  | VARIABLE_TYPE_DOUBLE => Some "VARIABLE_TYPE_DOUBLE"
  | VARIABLE_TYPE_BOOLEAN => Some "VARIABLE_TYPE_BOOLEAN"
  | ASSEMBLER_GLOBAL => Some "ASSEMBLER_GLOBAL"
  | ASSEMBLER_EXTERN => Some "ASSEMBLER_EXTERN"
  | ASSEMBLER_EQU => Some "ASSEMBLER_EQU"
  | ASSEMBLER_ORG => Some "ASSEMBLER_ORG"
  | ASSEMBLER_SCOPE => Some "ASSEMBLER_SCOPE"
  | ASSEMBLER_SCEND => Some "ASSEMBLER_SCEND"
  | ASSEMBLER_DB_LOW_ENDIAN => Some "ASSEMBLER_DB_LOW_ENDIAN"
  | ASSEMBLER_DDB_LOW_ENDIAN => Some "ASSEMBLER_DDB_LOW_ENDIAN"
  | ASSEMBLER_DDB_HIGH_ENDIAN => Some "ASSEMBLER_DDB_HIGH_ENDIAN"
  | ASSEMBLER_DW_LOW_ENDIAN => Some "ASSEMBLER_DW_LOW_ENDIAN"
  | ASSEMBLER_DW_HIGH_ENDIAN => Some "ASSEMBLER_DW_HIGH_ENDIAN"
  | ASSEMBLER_DDW_LOW_ENDIAN => Some "ASSEMBLER_DDW_LOW_ENDIAN"
  | ASSEMBLER_DDW_HIGH_ENDIAN => Some "ASSEMBLER_DDW_HIGH_ENDIAN"
  | ASSEMBLER_ASCII => Some "ASSEMBLER_ASCII"
  | ASSEMBLER_ASCIZ => Some "ASSEMBLER_ASCIZ"
  | ASSEMBLER_ADVANCE => Some "ASSEMBLER_ADVANCE"
  | ASSEMBLER_FILL => Some "ASSEMBLER_FILL"
  | ASSEMBLER_SPACE => Some "ASSEMBLER_SPACE"
  | ASSEMBLER_CHECKPC => Some "ASSEMBLER_CHECKPC"
  | ASSEMBLER_ALIGN => Some "ASSEMBLER_ALIGN"
  | ASSEMBLER_BSS => Some "ASSEMBLER_BSS"
  | ASSEMBLER_BSS_ABSOLUTE => Some "ASSEMBLER_BSS_ABSOLUTE"
  | ASSEMBLER_DATA => Some "ASSEMBLER_DATA"
  | ASSEMBLER_DATA_ABSOLUTE => Some "ASSEMBLER_DATA_ABSOLUTE"
  | ASSEMBLER_CODE => Some "ASSEMBLER_CODE"
  | ASSEMBLER_CODE_ABSOLUTE => Some "ASSEMBLER_CODE_ABSOLUTE"
  | ASSEMBLER_STOP => Some "ASSEMBLER_STOP"
  | NUMBER_SIGN => Some "NUMBER_SIGN"
  | LITERAL_NUMBER_BINARY => Some "LITERAL_NUMBER_BINARY"
  | LITERAL_NUMBER_OCTAL => Some "LITERAL_NUMBER_OCTAL"
  | LITERAL_NUMBER_DECIMAL => Some "LITERAL_NUMBER_DECIMAL"
  | LITERAL_NUMBER_HEXADECIMAL => Some "LITERAL_NUMBER_HEXADECIMAL"
  | LITERAL_CHAR => Some "LITERAL_CHAR"
  | LITERAL_STRING => Some "LITERAL_STRING"
  | SYMBOL => Some "SYMBOL"
  | COLON => Some "COLON"
  | COMMA => Some "COMMA"
  | SEMICOLON => Some "SEMICOLON"
  | OPEN_PARANTHESIS => Some "OPEN_PARANTHESIS"
  | CLOSE_PARANTHESIS => Some "CLOSE_PARANTHESIS"
  | OPEN_BRACKET => Some "OPEN_BRACKET"
  | CLOSE_BRACKET => Some "CLOSE_BRACKET"
  | OPEN_BRACE => Some "OPEN_BRACE"
  | CLOSE_BRACE => Some "CLOSE_BRACE"
  | OPERATOR_ADDITION => Some "OPERATOR_ADDITION"
  | OPERATOR_SUBTRACTION => Some "OPERATOR_SUBTRACTION"
  | OPERATOR_MULTIPLICATION => Some "OPERATOR_MULTIPLICATION"
  | OPERATOR_DIVISION => Some "OPERATOR_DIVISION"
  | OPERATOR_MODULUS => Some "OPERATOR_MODULUS"
  | OPERATOR_BITWISE_LEFT_SHIFT => Some "OPERATOR_BITWISE_LEFT_SHIFT"
  | OPERATOR_BITWISE_RIGHT_SHIFT => Some "OPERATOR_BITWISE_RIGHT_SHIFT"
  | OPERATOR_BITWISE_XOR => Some "OPERATOR_BITWISE_XOR"
  | OPERATOR_BITWISE_AND => Some "OPERATOR_BITWISE_AND"
  | OPERATOR_BITWISE_OR => Some "OPERATOR_BITWISE_OR"
  | OPERATOR_BITWISE_COMPLEMENT => Some "OPERATOR_BITWISE_COMPLEMENT"
  | OPERATOR_LOGICAL_NOT => Some "OPERATOR_LOGICAL_NOT"
  | OPERATOR_LOGICAL_EQUAL => Some "OPERATOR_LOGICAL_EQUAL"
  | OPERATOR_LOGICAL_NOT_EQUAL => Some "OPERATOR_LOGICAL_NOT_EQUAL"
  | OPERATOR_LOGICAL_LESS_THAN => Some "OPERATOR_LOGICAL_LESS_THAN"
  | OPERATOR_LOGICAL_GREATER_THAN => Some "OPERATOR_LOGICAL_GREATER_THAN"
  | OPERATOR_LOGICAL_LESS_THAN_OR_EQUAL => Some "OPERATOR_LOGICAL_LESS_THAN_OR_EQUAL"
  | OPERATOR_LOGICAL_GREATER_THAN_OR_EQUAL => Some "OPERATOR_LOGICAL_GREATER_THAN_OR_EQUAL"
  | OPERATOR_LOGICAL_OR => Some "OPERATOR_LOGICAL_OR"
  | OPERATOR_LOGICAL_AND => Some "OPERATOR_LOGICAL_AND"
  | _ => None
  end.

Definition LITERAL_NUMBERS : list TokenType :=
  [LITERAL_NUMBER_BINARY; LITERAL_NUMBER_OCTAL; LITERAL_NUMBER_DECIMAL;
   LITERAL_NUMBER_HEXADECIMAL].

Definition LITERAL_VALUES : list TokenType :=
  [LITERAL_NUMBER_BINARY; LITERAL_NUMBER_OCTAL; LITERAL_NUMBER_DECIMAL;
   LITERAL_NUMBER_HEXADECIMAL; LITERAL_CHAR; LITERAL_STRING].

Section ToString.

(** [std::to_string] applied to one character of the value (the decimal
    form of its code, whose sign the platform decides). *)
Variable to_string : ascii -> string.

Fixpoint codes (v : string) : string :=
  match v with
  | EmptyString => EmptyString
  | String c v' => " " ++ to_string c ++ codes v'
  end.

(** [Token::toString]; [None] when [TYPE_TO_NAME_MAP.at] throws. *)
Definition toString (t : Token) : option string :=
  if type_in (type t) [WHITESPACE_SPACE; WHITESPACE_TAB; WHITESPACE_NEWLINE]
  then name ← TYPE_TO_NAME_MAP (type t); Some (name ++ ":" ++ codes (value t))
  else if type_in (type t) [COMMENT_SINGLE_LINE; COMMENT_MULTI_LINE]
  then TYPE_TO_NAME_MAP (type t)
  else name ← TYPE_TO_NAME_MAP (type t); Some (name ++ ": " ++ value t).

End ToString.

End Tokenizer.

(** * PreprocessorV3.cpp *)

Module Preprocessor.
Import Tokenizer.

Local Open Scope string_scope.

(** Logger.h is not among the sources.  As the design document states,
    an ERROR diagnostic abandons preprocessing: a handler either returns
    or ends in [Fatal] with the message it logged. *)
Inductive result (A : Type) :=
| Ok (a : A)
| Fatal (msg : string).
Arguments Ok {A} a.
Arguments Fatal {A} msg.

#[global] Instance result_ret : MRet result := fun A a => Ok a.
#[global] Instance result_bind : MBind result := fun A B f m =>
  match m with
  | Ok a => f a
  | Fatal msg => Fatal msg
  end.

(** PreprocessorV3.h is not among the sources; the records hold the
    members PreprocessorV3.cpp uses.  A macro without a return type has
    [returnType = UNKNOWN]. *)
Record Argument := mkArgument {
  arg_name : string;
  arg_type : TokenType
}.

Record Macro := mkMacro {
  name : string;
  arguments : list Argument;
  returnType : TokenType;
  definition : list Token
}.

Record State := mkState {
  m_tokens : list Token;
  m_symbols : gmap string (list Token);
  m_macroStack : list (string * Macro);     (* top of the stack first *)
  m_writer : string                          (* the bytes written so far *)
}.

Definition set_tokens (st : State) (ts : list Token) : State :=
  mkState ts (m_symbols st) (m_macroStack st) (m_writer st).
Definition set_symbols (st : State) (sy : gmap string (list Token)) : State :=
  mkState (m_tokens st) sy (m_macroStack st) (m_writer st).
Definition set_macroStack (st : State) (ms : list (string * Macro)) : State :=
  mkState (m_tokens st) (m_symbols st) ms (m_writer st).
Definition writeString (st : State) (s : string) : State :=
  mkState (m_tokens st) (m_symbols st) (m_macroStack st) (m_writer st ++ s).

(** [std::vector::insert(begin() + i, first, last)] and
    [std::vector::erase(begin() + first, begin() + last)]. *)
Definition vector_insert {A} (v : list A) (i : nat) (new : list A) : list A :=
  take i v ++ new ++ drop i v.
Definition vector_erase {A} (v : list A) (first last : nat) : list A :=
  take first v ++ drop last v.

(** [std::map::insert]: an element is inserted only if the key is not
    already present. *)
Definition std_map_insert {V} (k : string) (v : V) (m : gmap string V)
  : gmap string V :=
  match m !! k with
  | Some _ => m
  | None => <[k := v]> m
  end.

(** ** string_util::format *)

Fixpoint split_at (c : ascii) (s : string) : option (string * string) :=
  match s with
  | EmptyString => None
  | String a s' =>
      if bool_decide (a = c) then Some (EmptyString, s')
      else '(before, after) ← split_at c s'; Some (String a before, after)
  end.

Definition format_helper (oss str value : string) : string * string :=
  match split_at "{" str with
  | None => (oss, str)
  | Some (before, after) =>
      match split_at "}" after with
      | None => (oss, str)
      | Some (_, rest) => (oss ++ before ++ value, rest)
      end
  end.

Definition format (str : string) (args : list string) : string :=
  let '(oss, rest) :=
    fold_left (fun acc value => format_helper acc.1 acc.2 value) args
              (EmptyString, str) in
  oss ++ rest.

(** ** Cursor helpers *)

(** [std::regex_match(value, "[ \t]")] and [.. "[ \t\n]"]: the whole
    value is one character of the class. *)
Definition blank (v : string) : bool := bool_decide (v ∈ [" "; tab]).
Definition blank_or_newline (v : string) : bool :=
  bool_decide (v ∈ [" "; tab; newline]).

Fixpoint skip_count (matches : string -> bool) (rest : list Token) : nat :=
  match rest with
  | t :: rest' => if matches (value t) then S (skip_count matches rest') else O
  | [] => O
  end.

Definition skipTokens (st : State) (tokenI : nat) (matches : string -> bool)
  : nat :=
  (tokenI + skip_count matches (drop tokenI (m_tokens st)))%nat.

Definition expectToken (st : State) (tokenI : nat) (errorMsg : string)
  : result unit :=
  if decide (tokenI < length (m_tokens st))%nat then Ok tt else Fatal errorMsg.

Definition isToken (st : State) (tokenI : nat) (tokenTypes : list TokenType)
    (errorMsg : string) : result bool :=
  match m_tokens st !! tokenI with
  | Some t => Ok (type_in (type t) tokenTypes)
  | None => Fatal errorMsg
  end.

Definition consume (st : State) (tokenI : nat) (errorMsg : string)
  : result (Token * nat) :=
  match m_tokens st !! tokenI with
  | Some t => Ok (t, S tokenI)
  | None => Fatal errorMsg
  end.

Definition consume_expecting (st : State) (tokenI : nat)
    (expectedTypes : list TokenType) (errorMsg : string)
  : result (Token * nat) :=
  match m_tokens st !! tokenI with
  | Some t =>
      if type_in (type t) expectedTypes then Ok (t, S tokenI)
      else Fatal (errorMsg ++ " - Unexpected end of file.")
  | None => Fatal errorMsg
  end.

(** [while (!isToken(tokenI, stop)) { out.push_back(consume(tokenI)); }]
    over the tokens from the cursor on. *)
Fixpoint take_until (stop : list TokenType) (errorMsg : string)
    (rest : list Token) : result (list Token) :=
  match rest with
  | [] => Fatal errorMsg
  | t :: rest' =>
      if type_in (type t) stop then Ok []
      else ts ← take_until stop errorMsg rest'; Ok (t :: ts)
  end.

Definition consume_until (st : State) (tokenI : nat) (stop : list TokenType)
    (errorMsg : string) : result (list Token * nat) :=
  ts ← take_until stop errorMsg (drop tokenI (m_tokens st));
  Ok (ts, (tokenI + length ts)%nat).

Section Handlers.

(** Declared outside the sources at hand: the tokenizer entry point on a
    string, the type-name table of [Tokenizer], and the default
    [errorMsg] argument of the cursor helpers. *)
Variable tokenize : string -> list Token.
Variable VARIABLE_TYPE_TO_NAME_MAP : TokenType -> string.
Variable default_errorMsg : string.

Definition handler : Type := State -> nat -> result (State * nat).

(** The two tokenized fragments [_macret] and [_invoke] both build:
    [".equ {} "] and [" : {}\n"]. *)
Definition equ_tokens (symbol : string) : list Token :=
  tokenize (format ".equ {} " [symbol]).
Definition type_tokens (t : TokenType) : list Token :=
  tokenize (format (" : {}" ++ newline) [VARIABLE_TYPE_TO_NAME_MAP t]).

(** ** _macret *)

(** The forward scan of [_macret], over the tokens from the cursor on:
    the number of tokens consumed and the final
    [currentRelativeScopeLevel]. *)
Fixpoint macret_scan (rest : list Token) (currentRelativeScopeLevel : Z)
  : nat * Z :=
  match rest with
  | [] => (O, currentRelativeScopeLevel)
  | t :: rest' =>
      let level :=
        if type_in (type t) [ASSEMBLER_SCOPE] then currentRelativeScopeLevel + 1
        else if type_in (type t) [ASSEMBLER_SCEND] then currentRelativeScopeLevel - 1
        else currentRelativeScopeLevel in
      if (level =? 0)%Z then (1%nat, level)
      else let '(k, final) := macret_scan rest' level in (S k, final)
  end.

Definition _macret : handler := fun st tokenI =>
  '(_, tokenI) ← consume st tokenI default_errorMsg;
  let tokenI := skipTokens st tokenI blank in
  match m_macroStack st with
  | [] => Fatal "Preprocessor::_macret() - Unexpected macret token."
  | top :: popped =>
      let doesMacroReturn := negb (bool_decide (returnType top.2 = UNKNOWN)) in
      '(return_value, tokenI) ←
        (if doesMacroReturn
         then consume_until st tokenI [WHITESPACE_NEWLINE] default_errorMsg
         else Ok ([], tokenI));
      let '(consumed, currentRelativeScopeLevel) :=
        macret_scan (drop tokenI (m_tokens st)) 0 in
      let tokenI := (tokenI + consumed)%nat in
      if negb (currentRelativeScopeLevel =? 0)%Z
      then Fatal "Preprocessor::_macret() - Unclosed scope."
      else
        let set_return_statement :=
          (equ_tokens top.1 ++ return_value
           ++ type_tokens (returnType top.2))%list in
        let st := if doesMacroReturn
                  then set_tokens st (vector_insert (m_tokens st) tokenI
                                        set_return_statement)
                  else st in
        Ok (set_macroStack st popped, tokenI)
  end.

Definition _macend : handler := fun st tokenI =>
  Fatal "Preprocessor::_macend() - Unexpected macro end token.".

(** ** _invoke: the expansion *)

(** The tokens [_invoke] builds from the parsed call
    ([expanded_macro_invoke]). *)
Definition expanded_macro_invoke (hasOutput : bool) (outputSymbol : string)
    (macro : Macro) (args : list (list Token)) : list Token :=
  (if hasOutput
   then tokenize (format (".equ {} 0 : {}" ++ newline)
                    [outputSymbol; VARIABLE_TYPE_TO_NAME_MAP (returnType macro)])
   else [])
  ++ [mkToken ASSEMBLER_SCOPE ".scope"; mkToken WHITESPACE_NEWLINE newline]
  ++ concat (zip_with (fun (a : Argument) (arg : list Token) =>
               (equ_tokens (arg_name a) ++ arg ++ type_tokens (arg_type a))%list)
             (arguments macro) args)
  ++ definition macro
  ++ [mkToken WHITESPACE_NEWLINE newline; mkToken ASSEMBLER_SCEND ".scend"].

(** The end of [_invoke], once the call is parsed and the macro chosen:
    the frame is pushed and the expansion spliced in at the cursor. *)
Definition _invoke_expand (hasOutput : bool) (outputSymbol : string)
    (macro : Macro) (args : list (list Token)) : handler := fun st tokenI =>
  let st := set_macroStack st ((outputSymbol, macro) :: m_macroStack st) in
  Ok (set_tokens st (vector_insert (m_tokens st) tokenI
                       (expanded_macro_invoke hasOutput outputSymbol macro args)),
      tokenI).

(** ** _define and _undefine *)

Definition _define : handler := fun st tokenI =>
  '(_, tokenI) ← consume st tokenI default_errorMsg;
  let tokenI := skipTokens st tokenI blank in
  '(symbol, tokenI) ← consume_expecting st tokenI [SYMBOL]
                        "Preprocessor::_define() - Expected symbol.";
  let tokenI := skipTokens st tokenI blank in
  '(tokens, tokenI) ← consume_until st tokenI [WHITESPACE_NEWLINE]
                        default_errorMsg;
  Ok (set_symbols st (std_map_insert (value symbol) tokens (m_symbols st)),
      tokenI).

Definition _undefine : handler := fun st tokenI =>
  '(_, tokenI) ← consume st tokenI default_errorMsg;
  let tokenI := skipTokens st tokenI blank in
  '(symbol, tokenI) ← consume_expecting st tokenI [SYMBOL]
                        "Preprocessor::_define() - Expected symbol.";
  let tokenI := skipTokens st tokenI blank in
  Ok (set_symbols st (delete (value symbol) (m_symbols st)), tokenI).

(** ** conditionalBlock *)

Definition ELSE_KINDS : list TokenType :=
  [PREPROCESSOR_ELSE; PREPROCESSOR_ELSEDEF; PREPROCESSOR_ELSENDEF].

(** The scan loop: [rest] are the tokens from [currentTokenI] on; the
    result is [(nextBlockTokenI, endIfTokenI)], [-1] for "not found". *)
Fixpoint conditional_scan (conditionMet : bool) (rest : list Token)
    (currentTokenI relativeScopeLevel nextBlockTokenI endIfTokenI : Z)
  : Z * Z :=
  match rest with
  | [] => (nextBlockTokenI, endIfTokenI)
  | t :: rest' =>
      if (relativeScopeLevel =? 0)%Z && type_in (type t) [PREPROCESSOR_ENDIF]
      then (nextBlockTokenI, currentTokenI)
      else
        let at_else := (relativeScopeLevel =? 0)%Z && type_in (type t) ELSE_KINDS in
        let nextBlockTokenI :=
          if at_else && (nextBlockTokenI =? -1)%Z then currentTokenI
          else nextBlockTokenI in
        if at_else && negb conditionMet then (nextBlockTokenI, endIfTokenI)
        else
          let relativeScopeLevel :=
            if type_in (type t) [PREPROCESSOR_IFDEF; PREPROCESSOR_IFNDEF]
            then relativeScopeLevel + 1
            else if type_in (type t) [PREPROCESSOR_ENDIF]
            then relativeScopeLevel - 1
            else relativeScopeLevel in
          conditional_scan conditionMet rest' (currentTokenI + 1)
            relativeScopeLevel nextBlockTokenI endIfTokenI
  end.

Definition conditionalBlock (conditionMet : bool) : handler := fun st tokenI =>
  let '(nextBlockTokenI, endIfTokenI) :=
    conditional_scan conditionMet (drop tokenI (m_tokens st))
      (Z.of_nat tokenI) 0 (-1) (-1) in
  if (conditionMet && (endIfTokenI =? -1)%Z)
     || (negb conditionMet && (nextBlockTokenI =? -1)%Z)
  then Fatal "Preprocessor::_ifdef() - Unclosed ifdef block."
  else if conditionMet then
    let tokens :=
      if negb (nextBlockTokenI =? -1)%Z
      then vector_erase (m_tokens st) (Z.to_nat nextBlockTokenI)
             (Z.to_nat endIfTokenI)
      else m_tokens st in
    Ok (set_tokens st (vector_insert tokens tokenI
                         [mkToken COMMENT_SINGLE_LINE "; conditional"]),
        tokenI)
  else Ok (st, Z.to_nat nextBlockTokenI).

Definition is_defined (st : State) (symbol : string) : bool :=
  bool_decide (is_Some (m_symbols st !! symbol)).

Definition _ifdef : handler := fun st tokenI =>
  '(_, tokenI) ← consume st tokenI default_errorMsg;
  let tokenI := skipTokens st tokenI blank in
  '(symbol, tokenI) ← consume_expecting st tokenI [SYMBOL]
                        "Preprocessor::_ifdef() - Expected symbol.";
  let tokenI := skipTokens st tokenI blank in
  conditionalBlock (is_defined st (value symbol)) st tokenI.

Definition _ifndef : handler := fun st tokenI =>
  '(_, tokenI) ← consume st tokenI default_errorMsg;
  let tokenI := skipTokens st tokenI blank in
  '(symbol, tokenI) ← consume_expecting st tokenI [SYMBOL]
                        "Preprocessor::_ifndef() - Expected symbol.";
  let tokenI := skipTokens st tokenI blank in
  conditionalBlock (negb (is_defined st (value symbol))) st tokenI.

Definition _else : handler := fun st tokenI =>
  '(_, tokenI) ← consume st tokenI default_errorMsg;
  Ok (st, skipTokens st tokenI blank).

Definition _elsedef : handler := fun st tokenI =>
  '(_, tokenI) ← consume st tokenI default_errorMsg;
  let tokenI := skipTokens st tokenI blank in
  '(symbol, tokenI) ← consume_expecting st tokenI [SYMBOL]
                        "Preprocessor::_elsedef() - Expected symbol.";
  let tokenI := skipTokens st tokenI blank in
  conditionalBlock (is_defined st (value symbol)) st tokenI.

Definition _elsendef : handler := fun st tokenI =>
  '(_, tokenI) ← consume st tokenI default_errorMsg;
  let tokenI := skipTokens st tokenI blank in
  '(symbol, tokenI) ← consume_expecting st tokenI [SYMBOL]
                        "Preprocessor::_elsendef() - Expected symbol.";
  let tokenI := skipTokens st tokenI blank in
  conditionalBlock (negb (is_defined st (value symbol))) st tokenI.

Definition _endif : handler := fun st tokenI =>
  '(_, tokenI) ← consume st tokenI default_errorMsg;
  Ok (st, skipTokens st tokenI blank).

(** ** The main loop of [preprocess] *)

(** The dispatch table (a member declared in PreprocessorV3.h). *)
Variable preprocessors : TokenType -> option handler.

(** [m_writer->lastByteWritten()] (the writer is declared in File.h and
    defined outside the sources at hand); NUL before anything is
    written. *)
Fixpoint lastByteWritten (written : string) : ascii :=
  match written with
  | EmptyString => "000"%char
  | String c EmptyString => c
  | String _ rest => lastByteWritten rest
  end.

Fixpoint write_tabs (st : State) (n : nat) : State :=
  match n with
  | O => st
  | S n' => write_tabs (writeString st tab) n'
  end.

(** Lines 97-109: a directive token goes to its handler, a defined symbol
    is replaced in the stream, anything else is written out. *)
Definition dispatch (token : Token) : handler := fun st i =>
  match preprocessors (type token) with
  | Some preprocessor => preprocessor st i
  | None =>
      match (if bool_decide (type token = SYMBOL)
             then m_symbols st !! value token else None) with
      | Some replacement =>
          '(_, i) ← consume st i default_errorMsg;
          Ok (set_tokens st (vector_insert (m_tokens st) i replacement), i)
      | None =>
          '(t, i) ← consume st i default_errorMsg;
          Ok (writeString st (value t), i)
      end
  end.

(** The loop runs until the cursor leaves the stream.

    Line 62 binds [token] as a reference to the element [m_tokens[i]].
    Line 64 builds the log line with [token.toString()], every branch
    of which starts with [TYPE_TO_NAME_MAP.at(type)]: for a kind without
    an entry [at] throws [std::out_of_range], nothing catches it and the
    run is abandoned; the loop then ends in [Fatal] with the text of the
    exception.  The string built is only logged.

    Line 112 reads [token.type] again after the handler has run, through
    the same reference: the model reads the element at the index the
    reference was taken at, in the stream as the handler left it.  An
    insertion that outgrows the vector's capacity moves the storage and
    leaves the reference dangling; the capacity is not part of the
    state, and the model follows the runs whose storage stays in place.

    [None] when [fuel] iterations do not suffice, or when the element
    the reference designates is gone after the handler. *)
Fixpoint preprocess_loop (fuel : nat) (st : State) (i : nat)
    (currentIndentLevel targetIndentLevel : Z) : option (result State) :=
  match fuel with
  | O => None
  | S fuel' =>
      match m_tokens st !! i with
      | None => Some (Ok st)
      | Some token =>
          match TYPE_TO_NAME_MAP (type token) with
          | None => Some (Fatal "map::at")
          | Some _ =>
              if bool_decide (type token = WHITESPACE_NEWLINE)
                 && bool_decide (lastByteWritten (m_writer st) = "010"%char)
              then preprocess_loop fuel' st (S i)
                     currentIndentLevel targetIndentLevel
              else
                let currentIndentLevel :=
                  if bool_decide (type token = WHITESPACE_TAB)
                  then currentIndentLevel + 1
                  else if bool_decide (type token = WHITESPACE_NEWLINE) then 0
                  else currentIndentLevel in
                let targetIndentLevel :=
                  if bool_decide (type token = ASSEMBLER_SCEND)
                  then targetIndentLevel - 1 else targetIndentLevel in
                if (currentIndentLevel <? targetIndentLevel)%Z
                   && bool_decide (type token = WHITESPACE_SPACE)
                then preprocess_loop fuel' st i
                       currentIndentLevel targetIndentLevel
                else
                  let indent :=
                    (currentIndentLevel <? targetIndentLevel)%Z
                    && negb (bool_decide (type token = WHITESPACE_TAB))
                    && negb (bool_decide (type token = WHITESPACE_NEWLINE)) in
                  let st :=
                    if indent
                    then write_tabs st
                           (Z.to_nat (targetIndentLevel - currentIndentLevel))
                    else st in
                  let currentIndentLevel :=
                    if indent then targetIndentLevel else currentIndentLevel in
                  match dispatch token st i with
                  | Fatal msg => Some (Fatal msg)
                  | Ok (st', i') =>
                      match m_tokens st' !! i with
                      | None => None
                      | Some referenced =>
                          let targetIndentLevel :=
                            if bool_decide (type referenced = ASSEMBLER_SCOPE)
                            then targetIndentLevel + 1 else targetIndentLevel in
                          preprocess_loop fuel' st' i'
                            currentIndentLevel targetIndentLevel
                      end
                  end
          end
      end
  end.

Definition preprocess (fuel : nat) (st : State) : option (result State) :=
  preprocess_loop fuel st 0 0 0.

End Handlers.

End Preprocessor.

(** * StringUtil.h *)

Module StringUtil.

(** [std::isspace] in the "C" locale: space, and the control characters
    9 to 13. *)
Definition isspace (c : ascii) : bool :=
  bool_decide (c ∈ [" "; "009"; "010"; "011"; "012"; "013"]%char).

(** [std::find_if(first, last, not isspace)] followed by the erasure of
    what precedes the position found, on the characters of a string. *)
Fixpoint drop_spaces (chars : list ascii) : list ascii :=
  match chars with
  | [] => []
  | c :: chars' => if isspace c then drop_spaces chars' else chars
  end.

(** [leftTrim] scans from the front; [rightTrim] runs the same scan over
    the reverse iterators and erases from the base of the position found
    to the end. *)
Definition leftTrim (str : string) : string :=
  string_of_list_ascii (drop_spaces (list_ascii_of_string str)).

Definition rightTrim (str : string) : string :=
  string_of_list_ascii
    (reverse (drop_spaces (reverse (list_ascii_of_string str)))).

Definition trimString (str : string) : string := leftTrim (rightTrim str).

(** A character sequence that does not start with white space. *)
Definition clean_front (chars : list ascii) : Prop :=
  match chars with
  | [] => True
  | c :: _ => isspace c = false
  end.

End StringUtil.

(** * File.h: ByteWriter::Data *)

Module ByteWriter.

Definition wrap64 (z : Z) : Z := z mod 2 ^ 64.

Record Data := mkData {
  value : Z;
  num_bytes : Z
}.

(** The loop of the three-argument constructor, on the member
    [this->value] and the parameter [value]. *)
Fixpoint reverse_loop (n : nat) (this_value value : Z) : Z :=
  match n with
  | O => this_value
  | S n' => reverse_loop n'
              (wrap64 (wrap64 (Z.shiftl this_value 8) + Z.land value 255))
              (Z.shiftr value 8)
  end.

(** [Data(value, num_bytes, little_endian)].  The member [value] has no
    initialiser: [indeterminate] is what it holds when the loop starts. *)
Definition Data_endian (indeterminate : Z) (value num_bytes : Z)
    (little_endian : bool) : Data :=
  if little_endian then mkData value num_bytes
  else mkData (reverse_loop (Z.to_nat num_bytes) indeterminate value) num_bytes.

(** One round of the loop on a byte [b]. *)
Definition shift_in64 (acc b : Z) : Z := wrap64 (wrap64 (Z.shiftl acc 8) + b).

End ByteWriter.

(** * Values of byte sequences *)

(** The number a byte sequence denotes with its first byte most
    significant. *)
Fixpoint be_value (bytes : list Z) : Z :=
  match bytes with
  | [] => 0
  | b :: bytes' => b * 2 ^ (8 * Z.of_nat (length bytes')) + be_value bytes'
  end.

(** The bytes the bus serves at [address], [address + 1], .. ([count] of
    them), each address a [word]. *)
Definition bus_bytes (read_byte : Z -> Z) (address count : Z) : list Z :=
  (fun k => read_byte (wrap32 (address + k))) <$> seqZ 0 count.

(** The [num_bytes] elements of a region's array from subscript
    [address] on. *)
Definition stored_bytes (m : Memory.Memory) (address num_bytes : Z) : list Z :=
  take (Z.to_nat num_bytes) (drop (Z.to_nat address) (Memory.data m)).

(** * Text of a token stream *)

(** The text of a token stream appended to [written], token by token,
    a newline token left out when the last byte written is a newline. *)
Fixpoint collapse (ts : list Tokenizer.Token) (written : string) : string :=
  match ts with
  | [] => written
  | t :: ts' =>
      if bool_decide (Tokenizer.type t = Tokenizer.WHITESPACE_NEWLINE)
         && bool_decide (Preprocessor.lastByteWritten written = "010"%char)
      then collapse ts' written
      else collapse ts' (written ++ Tokenizer.value t)%string
  end.

(** * Nesting of conditional blocks *)

(** [relativeScopeLevel] after one more token: up at [#ifdef] and
    [#ifndef], down at [#endif]. *)
Definition level_step (level : Z) (t : Tokenizer.Token) : Z :=
  if Tokenizer.type_in (Tokenizer.type t)
       [Tokenizer.PREPROCESSOR_IFDEF; Tokenizer.PREPROCESSOR_IFNDEF]
  then level + 1
  else if Tokenizer.type_in (Tokenizer.type t) [Tokenizer.PREPROCESSOR_ENDIF]
  then level - 1
  else level.

Definition level_after (level : Z) (passed : list Tokenizer.Token) : Z :=
  fold_left level_step passed level.

(** Token [k] of [rest] is of one of [kinds] and the tokens before it,
    counted from [level], leave the level at 0: it belongs to the block
    being resolved and to none nested in it. *)
Definition at_level_0 (level : Z) (rest : list Tokenizer.Token)
    (kinds : list Tokenizer.TokenType) (k : nat) : Prop :=
  exists t, rest !! k = Some t
            /\ Tokenizer.type_in (Tokenizer.type t) kinds = true
            /\ level_after level (take k rest) = 0.

(** The first such token. *)
Definition first_at_level_0 (level : Z) (rest : list Tokenizer.Token)
    (kinds : list Tokenizer.TokenType) (k : nat) : Prop :=
  at_level_0 level rest kinds k
  /\ forall j : nat, (j < k)%nat -> ~ at_level_0 level rest kinds j.

(** * Sample inputs *)

Module Samples.
Import Memory.

Definition no_read_fault : MemoryReadException := mkReadException AOK 0.
Definition no_write_fault : MemoryWriteException := mkWriteException AOK 0 0 0.

(** A RAM region over [0, 3] and the ROM region of the design document's
    scenario 5. *)
Definition ram4 : Memory := RAM 4 0 3 [0; 0; 0; 0].
Definition rom4 : Memory := ROM [0xAA; 0xBB; 0xCC; 0xDD] 0 3.

(** A RAM region over [4, 7]. *)
Definition ram_4_7 : Memory := RAM 4 4 7 [0; 0; 0; 0].

(** [write(address, value, num_bytes)] followed by
    [read(address, num_bytes)] on the region as written. *)
Definition read_after_write (m : Memory) (address value num_bytes : Z)
  : option Z :=
  r ← write m address value no_write_fault num_bytes;
  fst <$> read (wr_memory r) address no_read_fault num_bytes.

(** The store order the design document describes for [write]: the low
    byte of [value] at [address + num_bytes - 1], higher bytes toward
    [address]. *)
Definition stores_low_byte_last (address value num_bytes : Z) (after : Memory)
  : Prop :=
  forall j, 0 <= j < num_bytes ->
    data after !! Z.to_nat (address + num_bytes - 1 - j)
    = Some (Z.land (Z.shiftr value (8 * j)) 255).

(** A bus with the bytes 0x12, 0x34 at 0x100 and 0x101, zero elsewhere. *)
Definition bus_12_34 (address : Z) : Z :=
  if address =? 0x100 then 0x12 else if address =? 0x101 then 0x34 else 0.

(** A register file with [NR] holding 1020 and every other register the
    address 0x100; a bit-field extraction and a condition check that
    always passes. *)
Definition regs_log (NR : Z) (r : Z) : Z := if r =? NR then 1020 else 0x100.
Definition always (pstate cond : Z) : bool := true.
Definition bits (instr pos len : Z) : Z :=
  Z.land (Z.shiftr instr pos) (Z.ones len).
Definition no_flag (pstate flag : Z) : bool := false.

(** ** Token streams *)

Import Tokenizer Preprocessor.
Local Open Scope string_scope.

Definition sp : Token := mkToken WHITESPACE_SPACE " ".
Definition nl : Token := mkToken WHITESPACE_NEWLINE newline.
Definition sym (s : string) : Token := mkToken SYMBOL s.
Definition num (s : string) : Token := mkToken LITERAL_NUMBER_DECIMAL s.
Definition kw_define : Token := mkToken PREPROCESSOR_DEFINE "#define".
Definition kw_ifdef : Token := mkToken PREPROCESSOR_IFDEF "#ifdef".
Definition kw_else : Token := mkToken PREPROCESSOR_ELSE "#else".
Definition kw_endif : Token := mkToken PREPROCESSOR_ENDIF "#endif".
Definition kw_macret : Token := mkToken PREPROCESSOR_MACRET "#macret".
Definition kw_invoke : Token := mkToken PREPROCESSOR_INVOKE "#invoke".
Definition scope : Token := mkToken ASSEMBLER_SCOPE ".scope".
Definition scend : Token := mkToken ASSEMBLER_SCEND ".scend".
Definition stop : Token := mkToken ASSEMBLER_STOP ".stop".

(** A preprocessor about to start on [ts]: nothing defined, no macro
    being expanded, nothing written. *)
Definition initial (ts : list Token) : State := mkState ts ∅ [] EmptyString.

Definition eof_msg : string := "Unexpected end of file.".

(** The dispatch table restricted to the handlers that need no
    tokenizer. *)
Definition directive_table (t : TokenType) : option handler :=
  match t with
  | PREPROCESSOR_DEFINE => Some (_define eof_msg)
  | PREPROCESSOR_UNDEF => Some (_undefine eof_msg)
  | PREPROCESSOR_IFDEF => Some (_ifdef eof_msg)
  | PREPROCESSOR_IFNDEF => Some (_ifndef eof_msg)
  | PREPROCESSOR_ELSE => Some (_else eof_msg)
  | PREPROCESSOR_ELSEDEF => Some (_elsedef eof_msg)
  | PREPROCESSOR_ELSENDEF => Some (_elsendef eof_msg)
  | PREPROCESSOR_ENDIF => Some (_endif eof_msg)
  | PREPROCESSOR_MACEND => Some _macend
  | _ => None
  end.

(** What a run wrote, or the diagnostic it ended with. *)
Definition written (run : option (result State)) : option (result string) :=
  r ← run;
  Some (match r with Ok st => Ok (m_writer st) | Fatal msg => Fatal msg end).

(** [#define S 1\n#define S 2\nS\n] *)
Definition redefine_tokens : list Token :=
  [kw_define; sp; sym "S"; sp; num "1"; nl;
   kw_define; sp; sym "S"; sp; num "2"; nl;
   sym "S"; nl].

(** [#ifdef FOO\nA\n#endif\n] *)
Definition ifdef_tokens : list Token :=
  [kw_ifdef; sp; sym "FOO"; nl; sym "A"; nl; kw_endif; nl].

(** [#ifdef FOO\nA\n#else\nB\n#endif\n] (scenario 7 of the design
    document without its [#define]). *)
Definition ifdef_else_tokens : list Token :=
  [kw_ifdef; sp; sym "FOO"; nl; sym "A"; nl; kw_else; nl; sym "B"; nl;
   kw_endif; nl].

(** The macro [#macro m()\n#macret\nmov\n#macend], and the stream
    [#invoke m()\n.stop\n] with the call parsed: the cursor is at
    [.stop], token 6. *)
Definition macro_m : Macro :=
  mkMacro "m" [] UNKNOWN [kw_macret; nl; sym "mov"; nl].
Definition invoke_tokens : list Token :=
  [kw_invoke; sp; sym "m"; mkToken OPEN_PARANTHESIS "(";
   mkToken CLOSE_PARANTHESIS ")"; nl; stop; nl].

(** The directive spellings the design document lists, and those of
    them [Tokenizer::Type] has no enumerator for. *)
Definition documented_directives : list string :=
  ["#include"; "#macro"; "#macret"; "#macend"; "#invoke"; "#define";
   "#undef"; "#ifdef"; "#ifndef"; "#ifequ"; "#ifnequ"; "#ifless"; "#ifmore";
   "#else"; "#elsedef"; "#elsendef"; "#elseequ"; "#elsenequ"; "#elseless";
   "#elsemore"; "#endif"].
Definition directives_without_kind : list string :=
  ["#ifequ"; "#ifnequ"; "#ifless"; "#ifmore";
   "#elseequ"; "#elsenequ"; "#elseless"; "#elsemore"].

End Samples.

(** * Further sample inputs *)

Module MoreSamples.
Import Memory Samples.

(** A RAM region over [0, 3] holding 0x12, 0x34, 0x56, 0x78. *)
Definition ram_bytes : Memory := RAM 4 0 3 [0x12; 0x34; 0x56; 0x78].

(** What [write(2, 0x1234, 4)] leaves of the RAM region over [0, 3]. *)
Definition rejected_write : WriteResult :=
  mkWriteResult ram4 (mkWriteException OUT_OF_BOUNDS_ADDRESS 2 0x1234 4) [].

(** A bus that serves the bytes of one region, zero where the region
    has none. *)
Definition bus_of (m : Memory) (address : Z) : Z :=
  default 0 (data m !! Z.to_nat address).

(** ** Token streams *)

Import Tokenizer Preprocessor.
Local Open Scope string_scope.

Definition kw_undef : Token := mkToken PREPROCESSOR_UNDEF "#undef".

(** [#define S 1\n] before and after the directive is processed. *)
Definition define_S : State := initial [kw_define; sp; sym "S"; sp; num "1"; nl].
Definition defined_S : State :=
  set_symbols define_S (std_map_insert "S" [num "1"] (m_symbols define_S)).

(** [#define S 1] with the end of the file where its newline should be. *)
Definition define_S_unterminated : State :=
  initial [kw_define; sp; sym "S"; sp; num "1"].

(** [#undef S\n] with [S] bound, before and after the directive is
    processed. *)
Definition undef_S : State :=
  mkState [kw_undef; sp; sym "S"; nl] (<["S" := [num "1"]]> ∅) [] EmptyString.
Definition undefined_S : State :=
  set_symbols undef_S (delete "S" (m_symbols undef_S)).

(** [#ifdef FOO\n#ifdef BAR\nA\n#else\nB\n#endif\n#else\nC\n#endif\n]: a
    block with a block nested in it.  The outer [#else] is token 16 and
    the outer [#endif] token 20. *)
Definition nested_ifdef_tokens : list Token :=
  [kw_ifdef; sp; sym "FOO"; nl;
   kw_ifdef; sp; sym "BAR"; nl; sym "A"; nl; kw_else; nl; sym "B"; nl;
   kw_endif; nl;
   kw_else; nl; sym "C"; nl;
   kw_endif; nl].

(** That stream after [#ifdef FOO] took its block: the tokens from the
    outer [#else] up to the outer [#endif] are gone and a comment stands
    at the cursor, token 3. *)
Definition taken_nested_block : State :=
  set_tokens (initial nested_ifdef_tokens)
    [kw_ifdef; sp; sym "FOO"; mkToken COMMENT_SINGLE_LINE "; conditional"; nl;
     kw_ifdef; sp; sym "BAR"; nl; sym "A"; nl; kw_else; nl; sym "B"; nl;
     kw_endif; nl;
     kw_endif; nl].

(** The body of [macro_m] being expanded for an invocation without an
    output symbol; a tokenizer and a type-name table that return
    nothing. *)
Definition in_macro_m : State :=
  mkState [kw_macret; nl; sym "mov"; nl] ∅ [(EmptyString, macro_m)] EmptyString.
Definition no_tokens (source : string) : list Token := [].
Definition no_name (t : TokenType) : string := EmptyString.

(** [.scope\n mov\n]: a space where the scope's tab is expected. *)
Definition scope_then_space : State := initial [scope; nl; sp; sym "mov"; nl].

(** [A\n] with [A] defined as [A]. *)
Definition A_is_A : State :=
  mkState [sym "A"; nl] (<["A" := [sym "A"]]> ∅) [] EmptyString.

(** [mov 1\n\n.stop\n] *)
Definition plain_tokens : list Token :=
  [sym "mov"; sp; num "1"; nl; nl; stop; nl].

End MoreSamples.

(** * Machine arithmetic *)

Section MachineArithmetic.

Lemma wrap32_range z : 0 <= wrap32 z < 2 ^ 32.
Proof. unfold wrap32. apply Z.mod_pos_bound. lia. Qed.

Lemma wrap32_small z : 0 <= z < 2 ^ 32 -> wrap32 z = z.
Proof. intros H. unfold wrap32. apply Z.mod_small. exact H. Qed.

Lemma land_255 z : Z.land z 255 = z mod 2 ^ 8.
Proof. change 255 with (Z.ones 8). apply Z.land_ones. lia. Qed.

Lemma land_255_range z : 0 <= Z.land z 255 < 2 ^ 8.
Proof. rewrite land_255. apply Z.mod_pos_bound. lia. Qed.

(** The byte shifted in last is the low byte of the result. *)
Lemma shift_in_low_byte val b : 0 <= b < 2 ^ 8 -> Z.land (shift_in val b) 255 = b.
Proof.
  intros Hb. rewrite land_255. unfold shift_in, wrap32.
  rewrite Z.shiftl_mul_pow2 by lia.
  Z.div_mod_to_equations. lia.
Qed.

Lemma shifted_in_1 b : 0 <= b < 2 ^ 8 -> shifted_in [b] = b.
Proof.
  intros Hb. unfold shifted_in, shift_in. cbn [fold_left].
  rewrite Z.shiftl_0_l. rewrite (wrap32_small 0) by lia.
  apply wrap32_small. lia.
Qed.

Lemma shifted_in_2 b0 b1 :
  0 <= b0 < 2 ^ 8 -> 0 <= b1 < 2 ^ 8 -> shifted_in [b0; b1] = b0 * 2 ^ 8 + b1.
Proof.
  intros H0 H1. change (shifted_in [b0; b1]) with (shift_in (shifted_in [b0]) b1).
  rewrite shifted_in_1 by exact H0. unfold shift_in.
  rewrite Z.shiftl_mul_pow2 by lia.
  rewrite (wrap32_small (b0 * 2 ^ 8)) by lia.
  apply wrap32_small. lia.
Qed.

Lemma length_le_bytes n value : length (le_bytes n value) = Z.to_nat n.
Proof. unfold le_bytes. rewrite length_fmap, length_seqZ. reflexivity. Qed.

Lemma lookup_le_bytes n value (j : nat) :
  (j < Z.to_nat n)%nat ->
  le_bytes n value !! j = Some (Z.land (Z.shiftr value (8 * Z.of_nat j)) 255).
Proof.
  intros Hj. unfold le_bytes. rewrite list_lookup_fmap.
  rewrite lookup_seqZ_lt by lia. reflexivity.
Qed.

End MachineArithmetic.

(** * Memory regions *)

Section MemoryFacts.
Import Memory Samples.

Implicit Types (m : Memory) (d : list Z) (address value num_bytes : Z).

Lemma out_of_bounds_true m address num_bytes :
  out_of_bounds m address num_bytes = true <->
  in_bounds m address = false
  \/ in_bounds m (wrap32 (address + num_bytes - 1)) = false.
Proof.
  unfold out_of_bounds. rewrite orb_true_iff, !negb_true_iff. reflexivity.
Qed.

(** Without wrap-around the guard is the plain window test. *)
Lemma out_of_bounds_false m address num_bytes :
  0 <= address -> 1 <= num_bytes -> address + num_bytes <= 2 ^ 32 ->
  out_of_bounds m address num_bytes = false <->
  lo_addr m <= address /\ address + num_bytes - 1 <= hi_addr m.
Proof.
  intros Ha Hn Hw. unfold out_of_bounds, in_bounds.
  rewrite wrap32_small by lia.
  rewrite orb_false_iff, !negb_false_iff, !andb_true_iff, !Z.leb_le. lia.
Qed.

(** The write loop stores byte [j] of [value] at subscript
    [address + i + j], visits the subscripts in ascending order and
    leaves every other element alone. *)
Lemma write_loop_spec (n : nat) : forall d address i value,
  0 <= address + i ->
  address + i + Z.of_nat n <= Z.of_nat (length d) ->
  address + i + Z.of_nat n <= 2 ^ 32 ->
  exists d',
    write_loop d address i n value = Some (d', seqZ (address + i) (Z.of_nat n))
    /\ length d' = length d
    /\ (forall j, 0 <= j < Z.of_nat n ->
          d' !! Z.to_nat (address + i + j)
          = Some (Z.land (Z.shiftr value (8 * j)) 255))
    /\ (forall k : nat,
          Z.of_nat k < address + i \/ address + i + Z.of_nat n <= Z.of_nat k ->
          d' !! k = d !! k).
Proof.
  induction n as [|n IH]; intros d address i value Hlo Hlen Hwrap.
  - exists d. simpl. repeat split; auto. intros j Hj. lia.
  - cbn [write_loop].
    rewrite (wrap32_small (address + i)) by lia.
    destruct (decide (Z.to_nat (address + i) < length d)%nat) as [Hin|Hout]; [|lia].
    destruct (IH (<[Z.to_nat (address + i) := Z.land value 255]> d) address (i + 1)
                 (Z.shiftr value 8)) as (d' & Hw & Hl & Hbytes & Hrest).
    { lia. } { rewrite length_insert. lia. } { lia. }
    exists d'. rewrite Hw. cbn.
    rewrite length_insert in Hl.
    split; [|split; [exact Hl|split]].
    + f_equal. f_equal. rewrite (seqZ_cons (address + i)) by lia.
      f_equal. f_equal; lia.
    + intros j Hj. destruct (decide (j = 0)) as [->|Hne].
      * rewrite Z.add_0_r, Z.mul_0_r, Z.shiftr_0_r.
        rewrite Hrest by lia.
        apply list_lookup_insert_eq. exact Hin.
      * replace (address + i + j) with (address + (i + 1) + (j - 1)) by lia.
        rewrite Hbytes by lia.
        rewrite Z.shiftr_shiftr by lia. do 3 f_equal. lia.
    + intros k Hk. rewrite Hrest by lia.
      apply list_lookup_insert_ne. lia.
Qed.

(** The read loop shifts the bytes in from the lowest subscript up. *)
Lemma read_loop_spec (bs : list Z) : forall d address i acc,
  0 <= address + i ->
  address + i + Z.of_nat (length bs) <= 2 ^ 32 ->
  (forall j : nat, (j < length bs)%nat ->
     d !! Z.to_nat (address + i + Z.of_nat j) = bs !! j) ->
  read_loop d address i (length bs) acc = Some (fold_left shift_in bs acc).
Proof.
  induction bs as [|b bs IH]; intros d address i acc Hlo Hwrap Hd; [reflexivity|].
  cbn [length read_loop fold_left].
  rewrite (wrap32_small (address + i)) by (cbn [length] in Hwrap; lia).
  specialize (Hd O) as H0. cbn [length] in H0.
  rewrite Z.add_0_r in H0. rewrite H0 by lia. cbn [lookup list_lookup].
  apply IH.
  - lia.
  - cbn [length] in Hwrap. lia.
  - intros j Hj. specialize (Hd (S j)). cbn [length] in Hd.
    replace (address + (i + 1) + Z.of_nat j)
      with (address + i + Z.of_nat (S j)) by lia.
    rewrite Hd by lia. reflexivity.
Qed.

(** What an in-bounds write inside the allocated array does. *)
Lemma write_in_bounds m address value exception num_bytes :
  constructed m ->
  0 <= num_bytes -> 0 <= address -> address + num_bytes <= mem_size m ->
  out_of_bounds m address num_bytes = false ->
  exists r,
    write m address value exception num_bytes = Some r
    /\ wr_exception r = exception
    /\ wr_trace r = seqZ address num_bytes
    /\ length (data (wr_memory r)) = length (data m)
    /\ (forall j, 0 <= j < num_bytes ->
          data (wr_memory r) !! Z.to_nat (address + j)
          = Some (Z.land (Z.shiftr value (8 * j)) 255))
    /\ (forall k : nat,
          Z.of_nat k < address \/ address + num_bytes <= Z.of_nat k ->
          data (wr_memory r) !! k = data m !! k).
Proof.
  intros (Hlo & Hhi & Hmax & Hsize & Hlen & _) Hn Ha Hfit Hguard.
  pose proof (wrap32_range (hi_addr m - lo_addr m + 1)) as Hr.
  destruct (write_loop_spec (Z.to_nat num_bytes) (data m) address 0 value)
    as (d' & Hw & Hl & Hbytes & Hrest); try lia.
  unfold write. rewrite Hguard, Hw. cbn.
  eexists. split; [reflexivity|]. cbn.
  rewrite Z.add_0_r, Z2Nat.id in * by lia.
  repeat split; auto.
Qed.

(** Reading back what was written shifts the bytes of [value] in with the
    least significant byte first, that is, into the most significant
    position. *)
Lemma read_back m address value wexc rexc num_bytes :
  constructed m ->
  0 <= num_bytes -> 0 <= address -> address + num_bytes <= mem_size m ->
  out_of_bounds m address num_bytes = false ->
  exists r,
    write m address value wexc num_bytes = Some r
    /\ read (wr_memory r) address rexc num_bytes
       = Some (shifted_in (le_bytes num_bytes value), rexc).
Proof.
  intros Hc Hn Ha Hfit Hguard.
  destruct (write_in_bounds m address value wexc num_bytes Hc Hn Ha Hfit Hguard)
    as (r & Hw & _ & _ & _ & Hbytes & _).
  exists r. split; [exact Hw|].
  destruct Hc as (Hlo & Hhi & Hmax & Hsize & Hlen & _).
  pose proof (wrap32_range (hi_addr m - lo_addr m + 1)) as Hr.
  assert (Hg : out_of_bounds (wr_memory r) address num_bytes = false).
  { unfold write in Hw. rewrite Hguard in Hw.
    destruct (write_loop _ _ _ _ _) as [[d' tr]|]; [|discriminate].
    cbn in Hw. injection Hw as <-. exact Hguard. }
  unfold read. rewrite Hg.
  rewrite <- (length_le_bytes num_bytes value).
  rewrite read_loop_spec with (bs := le_bytes num_bytes value).
  - reflexivity.
  - lia.
  - rewrite length_le_bytes. lia.
  - intros j Hj. rewrite length_le_bytes in Hj.
    rewrite Z.add_0_r, Hbytes by lia.
    symmetry. apply lookup_le_bytes. exact Hj.
Qed.

(** For a single byte the round trip holds. *)
Lemma read_back_1 m address value wexc rexc :
  constructed m -> 0 <= address -> address + 1 <= mem_size m ->
  out_of_bounds m address 1 = false ->
  exists r,
    write m address value wexc 1 = Some r
    /\ read (wr_memory r) address rexc 1 = Some (value mod 2 ^ (8 * 1), rexc).
Proof.
  intros Hc Ha Hfit Hguard.
  destruct (read_back m address value wexc rexc 1 Hc) as (r & Hw & Hr);
    try lia; try exact Hguard.
  exists r. split; [exact Hw|]. rewrite Hr. do 2 f_equal.
  change (le_bytes 1 value) with [Z.land (Z.shiftr value (8 * 0)) 255].
  rewrite shifted_in_1 by apply land_255_range.
  rewrite Z.mul_0_r, Z.shiftr_0_r. apply land_255.
Qed.

(** For a halfword the two low bytes come back exchanged. *)
Lemma read_back_2 m address value wexc rexc :
  constructed m -> 0 <= address -> address + 2 <= mem_size m ->
  out_of_bounds m address 2 = false ->
  exists r,
    write m address value wexc 2 = Some r
    /\ read (wr_memory r) address rexc 2
       = Some (value mod 2 ^ 8 * 2 ^ 8 + (value / 2 ^ 8) mod 2 ^ 8, rexc).
Proof.
  intros Hc Ha Hfit Hguard.
  destruct (read_back m address value wexc rexc 2 Hc) as (r & Hw & Hr);
    try lia; try exact Hguard.
  exists r. split; [exact Hw|]. rewrite Hr. do 2 f_equal.
  change (le_bytes 2 value)
    with [Z.land (Z.shiftr value (8 * 0)) 255; Z.land (Z.shiftr value (8 * 1)) 255].
  rewrite shifted_in_2 by apply land_255_range.
  rewrite Z.mul_0_r, Z.shiftr_0_r, !land_255.
  rewrite Z.shiftr_div_pow2 by lia. reflexivity.
Qed.

(** C1 (at the failing input).  On the RAM region over [0, 3],
    [write(0, 0x1234, 2)] followed by [read(0, 2)] returns 0x3412; the
    round-trip property asks for [0x1234 mod 2^16 = 0x1234].  [write]
    stores the low byte at the lowest address while [read] takes the
    lowest address as the most significant byte. *)
Theorem C1_read_after_write_swaps_bytes :
  read_after_write ram4 0 0x1234 2 = Some 0x3412
  /\ 0x1234 mod 2 ^ (8 * 2) = 0x1234
  /\ read_after_write ram4 0 0x1234 2 <> Some (0x1234 mod 2 ^ (8 * 2))
  /\ read_after_write ram4 0 0x12345678 4 = Some 0x78563412
  /\ read_after_write ram4 0 0x1234 1 = Some (0x1234 mod 2 ^ (8 * 1)).
Proof.
  split; [reflexivity|]. split; [reflexivity|]. split.
  - intros H. vm_compute in H. discriminate H.
  - split; reflexivity.
Qed.

(** The array is subscripted by the address itself: on a region whose
    window starts above 0, an in-bounds access leaves the array. *)
Example high_window_leaves_the_array :
  out_of_bounds ram_4_7 4 1 = false
  /\ write ram_4_7 4 0x12 no_write_fault 1 = None
  /\ read ram_4_7 4 no_read_fault 1 = None.
Proof. repeat split. Qed.

Lemma seqZ_ascending (start len : Z) (i j : nat) a b :
  (i < j)%nat ->
  seqZ start len !! i = Some a -> seqZ start len !! j = Some b -> a < b.
Proof.
  intros Hij Hi Hj.
  apply lookup_seqZ in Hi as [-> _]. apply lookup_seqZ in Hj as [-> _]. lia.
Qed.

(** What [write] does in general: an in-bounds write inside the
    allocated array stores byte [j] of the value (counted from the low
    end) at [address + j], the low byte at [address], and stores the
    bytes in address-ascending order. *)
Lemma write_stores_low_byte_first m address value exception num_bytes :
  constructed m ->
  2 <= num_bytes -> 0 <= address -> address + num_bytes <= mem_size m ->
  out_of_bounds m address num_bytes = false ->
  exists r,
    write m address value exception num_bytes = Some r
    /\ wr_exception r = exception
    /\ (forall j, 0 <= j < num_bytes ->
          data (wr_memory r) !! Z.to_nat (address + j)
          = Some (Z.land (Z.shiftr value (8 * j)) 255))
    /\ wr_trace r = seqZ address num_bytes
    /\ (forall (i j : nat) a b, (i < j)%nat ->
          wr_trace r !! i = Some a -> wr_trace r !! j = Some b -> a < b).
Proof.
  intros Hc Hn Ha Hfit Hguard.
  destruct (write_in_bounds m address value exception num_bytes)
    as (r & Hw & He & Ht & _ & Hbytes & _); auto; try lia.
  exists r. repeat split; auto.
  rewrite Ht. apply seqZ_ascending.
Qed.

(** C6 (at the failing input).  On the RAM region over [0, 3],
    [write(0, 0x1234, 2)] stores the low byte 0x34 at address 0 and 0x12
    at address 1, in ascending order of address; the design document
    puts the low byte at [0 + 2 - 1] and 0x12 at address 0.
    [Memory::read] of the same class takes the byte at the lowest
    address as the most significant one: from the bytes as written it
    returns 0x3412, from the bytes in the documented order 0x1234. *)
Theorem C6_write_stores_low_byte_at_lowest_address :
  exists r,
    write ram4 0 0x1234 no_write_fault 2 = Some r
    /\ data (wr_memory r) = [0x34; 0x12; 0; 0]
    /\ wr_trace r = [0; 1]
    /\ ~ stores_low_byte_last 0 0x1234 2 (wr_memory r)
    /\ read (wr_memory r) 0 no_read_fault 2 = Some (0x3412, no_read_fault)
    /\ stores_low_byte_last 0 0x1234 2 (RAM 4 0 3 [0x12; 0x34; 0; 0])
    /\ read (RAM 4 0 3 [0x12; 0x34; 0; 0]) 0 no_read_fault 2
       = Some (0x1234, no_read_fault).
Proof.
  eexists. split; [reflexivity|]. split; [reflexivity|]. split; [reflexivity|].
  split.
  { intros H. specialize (H 0 ltac:(lia)). vm_compute in H. discriminate H. }
  split; [reflexivity|]. split; [|reflexivity].
  intros j Hj. assert (Ej : j = 0 \/ j = 1) by lia.
  destruct Ej as [-> | ->]; reflexivity.
Qed.

(** C8.  [ROM::write] records ACCESS_DENIED with the address, the value
    and the byte count of the call, whatever they are, and returns the
    region as it was: every byte, and so every later read, is as before
    the write. *)
Theorem C8_rom_write_is_denied m address value exception num_bytes :
  let r := ROM_write m address value exception num_bytes in
  wr_exception r = mkWriteException ACCESS_DENIED address value num_bytes
  /\ wr_trace r = []
  /\ data (wr_memory r) = data m
  /\ (forall a rexc n, read (wr_memory r) a rexc n = read m a rexc n).
Proof. cbn. repeat split. Qed.

(** Scenario 5 of the design document. *)
Example rom4_write_then_read :
  let r := ROM_write rom4 0 0 no_write_fault 1 in
  w_type (wr_exception r) = ACCESS_DENIED
  /\ read (wr_memory r) 0 no_read_fault 4 = Some (0xAABBCCDD, no_read_fault).
Proof. split; reflexivity. Qed.

Lemma read_guarded m address exception num_bytes :
  out_of_bounds m address num_bytes = true ->
  read m address exception num_bytes
  = Some (0, mkReadException OUT_OF_BOUNDS_ADDRESS address).
Proof. intros H. unfold read. rewrite H. reflexivity. Qed.

(** Where [address + num_bytes - 1] does not wrap around, the guard is
    the window test on the first and the last byte of the access. *)
Lemma read_outside_window m address exception num_bytes :
  0 <= address -> 1 <= num_bytes -> address + num_bytes <= 2 ^ 32 ->
  address < lo_addr m \/ hi_addr m < address + num_bytes - 1 ->
  read m address exception num_bytes
  = Some (0, mkReadException OUT_OF_BOUNDS_ADDRESS address).
Proof.
  intros Ha Hn Hw Hout. apply read_guarded.
  destruct (out_of_bounds m address num_bytes) eqn:E; [reflexivity|].
  apply out_of_bounds_false in E; lia.
Qed.

(** C10.  When [address] or [address + num_bytes - 1] (a [word], so
    taken modulo 2^32) lies outside [lo_addr, hi_addr], [read] returns 0,
    whatever the region holds, and the exception record is
    OUT_OF_BOUNDS_ADDRESS with the address of the access. *)
Theorem C10_read_out_of_bounds m address exception num_bytes :
  in_bounds m address = false
  \/ in_bounds m (wrap32 (address + num_bytes - 1)) = false ->
  read m address exception num_bytes
  = Some (0, mkReadException OUT_OF_BOUNDS_ADDRESS address).
Proof.
  intros H. apply out_of_bounds_true in H. apply read_guarded. exact H.
Qed.

(** C10, at [read(2, 4)] on the ROM region over [0, 3]: the last byte
    would be at address 5. *)
Lemma C10_read_out_of_bounds_witness :
  (in_bounds rom4 2 = false
   \/ in_bounds rom4 (wrap32 (2 + 4 - 1)) = false)
  /\ read rom4 2 no_read_fault 4
     = Some (0, mkReadException OUT_OF_BOUNDS_ADDRESS 2).
Proof.
  assert (H : in_bounds rom4 2 = false
              \/ in_bounds rom4 (wrap32 (2 + 4 - 1)) = false)
    by (right; reflexivity).
  split; [exact H|].
  exact (C10_read_out_of_bounds rom4 2 no_read_fault 4 H).
Defined.

End MemoryFacts.

(** * The SWI gateway *)

Section SwiFacts.
Import Swi Samples.

Variable read_byte : Z -> Z.
Hypothesis read_byte_range : forall a, 0 <= read_byte a < 2 ^ 8.

Lemma assemble_ascending_last (n : nat) : forall mem_addr i val,
  assemble_ascending read_byte mem_addr i (S n) val
  = shift_in (assemble_ascending read_byte mem_addr i n val)
             (read_byte (wrap32 (mem_addr + (i + Z.of_nat n)))).
Proof.
  induction n as [|n IH]; intros mem_addr i val.
  - cbn. rewrite Z.add_0_r. reflexivity.
  - cbn [assemble_ascending] in *. rewrite IH.
    do 3 f_equal. lia.
Qed.

Lemma assemble_descending_last (n : nat) : forall mem_addr i val,
  assemble_descending read_byte mem_addr i (S n) val
  = shift_in (assemble_descending read_byte mem_addr i n val)
             (read_byte (wrap32 (mem_addr + (i - Z.of_nat n)))).
Proof.
  induction n as [|n IH]; intros mem_addr i val.
  - cbn. rewrite Z.sub_0_r. reflexivity.
  - cbn [assemble_descending] in *. rewrite IH.
    do 3 f_equal. lia.
Qed.

(** With [little_endian] set, the byte at [mem_addr + size - 1] is the
    lowest-significance byte of the assembled value; with it clear, the
    byte at [mem_addr + 0] is. *)
Lemma assembled_low_byte mem_addr size :
  1 <= size ->
  Z.land (assembled read_byte mem_addr size true) 255
  = read_byte (wrap32 (mem_addr + (size - 1)))
  /\ Z.land (assembled read_byte mem_addr size false) 255
     = read_byte (wrap32 (mem_addr + 0)).
Proof.
  intros Hs. unfold assembled.
  destruct (Z.to_nat size) as [|n] eqn:E; [lia|].
  rewrite assemble_ascending_last, assemble_descending_last.
  rewrite !shift_in_low_byte by apply read_byte_range.
  split; do 2 f_equal; lia.
Qed.

End SwiFacts.

Section SwiGateway.
Import Swi Samples.

Variable read_reg : Z -> Z.
Variable read_byte : Z -> Z.
Variable bitfield_u32 : Z -> Z -> Z -> Z.
Variable check_cond : Z -> Z -> bool.
Variable test_bit : Z -> Z -> bool.
Variable _pstate : Z.
Variables NR N_FLAG Z_FLAG C_FLAG V_FLAG : Z.

Local Abbreviation swi :=
  (_swi read_reg read_byte bitfield_u32 check_cond test_bit _pstate
        NR N_FLAG Z_FLAG C_FLAG V_FLAG).
Local Abbreviation cond_passes instr :=
  (check_cond _pstate (to_byte (bitfield_u32 instr 22 4)) = true).

Lemma swi_default instr :
  cond_passes instr ->
  read_reg NR ∉ dispatched_syscalls ->
  swi instr = [Error_invalid_syscall (read_reg NR)].
Proof.
  intros Hc Hid. unfold _swi. rewrite Hc. cbn [negb].
  unfold dispatched_syscalls in Hid.
  rewrite !not_elem_of_cons in Hid.
  destruct Hid as (N0 & N1 & N2 & N3 & N4 & N5 & N6 & _).
  apply Z.eqb_neq in N0, N1, N2, N3, N4, N5, N6.
  rewrite N0, N1, N2, N3, N4, N5, N6. reflexivity.
Qed.

Lemma swi_case instr :
  cond_passes instr ->
  read_reg NR ∈ dispatched_syscalls ->
  swi instr <> [Error_invalid_syscall (read_reg NR)].
Proof.
  intros Hc Hid. unfold _swi. rewrite Hc. cbn [negb].
  unfold dispatched_syscalls in Hid.
  rewrite !elem_of_cons, elem_of_nil in Hid.
  destruct Hid as [E|[E|[E|[E|[E|[E|[E|[]]]]]]]]; rewrite E; cbn; discriminate.
Qed.

(** C7.  When the condition passes, [_swi] ends in the unknown-syscall
    diagnostic exactly for the numbers that are not in
    [dispatched_syscalls]; in particular it does so for 1020 and for
    1021, for which it neither reads a string nor writes one out. *)
Theorem C7_swi_has_no_case_for_log_and_err instr :
  cond_passes instr ->
  (swi instr = [Error_invalid_syscall (read_reg NR)]
   <-> read_reg NR ∉ dispatched_syscalls)
  /\ (read_reg NR ∈ [1020; 1021] ->
      swi instr = [Error_invalid_syscall (read_reg NR)]).
Proof.
  intros Hc. split; [split|].
  - intros Hswi Hin. exact (swi_case instr Hc Hin Hswi).
  - apply swi_default. exact Hc.
  - intros Hin. apply swi_default; [exact Hc|].
    unfold dispatched_syscalls.
    rewrite !elem_of_cons, elem_of_nil in Hin.
    rewrite !not_elem_of_cons. destruct Hin as [E|[E|[]]]; rewrite E;
      repeat split; try discriminate; apply not_elem_of_nil.
Qed.

End SwiGateway.

Section SwiSamples.
Import Swi Samples.

(** C2 (at the failing input).  With the bytes 0x12 at 0x100 and 0x34 at
    0x101, [emu_printm(0x100, 2, little_endian = true)] prints 0x1234:
    the byte at [addr + 0] is the most significant one, where the
    little-endian value is 0x3412; [little_endian = false] gives
    0x3412.  [emu_assertm] assembles the same values. *)
Theorem C2_little_endian_flag_is_inverted :
  _emu_printm bus_12_34 0x100 2 true = [Printf_mem 0x100 0x1234]
  /\ _emu_printm bus_12_34 0x100 2 false = [Printf_mem 0x100 0x3412]
  /\ _emu_assertm bus_12_34 0x100 2 true 0x3412 0x3412 = [Expect_true false]
  /\ _emu_assertm bus_12_34 0x100 2 false 0x3412 0x3412 = [Expect_true true].
Proof. repeat split. Qed.

(** With [NR = 1020] the gateway ends in the diagnostic; [_emu_log],
    were it called, would write the string at [x0]. *)
Example swi_1020_sample :
  _swi (regs_log 30) bus_12_34 bits always no_flag 0 30 0 1 2 3 0
  = [Error_invalid_syscall 1020]
  /\ _emu_log bus_12_34 8 0x100 = Some [Cout [0x12; 0x34]].
Proof. split; reflexivity. Qed.

(** C7, at a gateway whose [NR] holds 1020. *)
Lemma C7_swi_has_no_case_for_log_and_err_witness :
  always 0 (to_byte (bits 0 22 4)) = true
  /\ ((_swi (regs_log 30) bus_12_34 bits always no_flag 0 30 0 1 2 3 0
         = [Error_invalid_syscall (regs_log 30 30)]
       <-> regs_log 30 30 ∉ dispatched_syscalls)
      /\ (regs_log 30 30 ∈ [1020; 1021] ->
          _swi (regs_log 30) bus_12_34 bits always no_flag 0 30 0 1 2 3 0
          = [Error_invalid_syscall (regs_log 30 30)])).
Proof.
  split; [reflexivity|].
  apply (C7_swi_has_no_case_for_log_and_err
           (regs_log 30) bus_12_34 bits always no_flag 0 30 0 1 2 3 0).
  reflexivity.
Defined.

End SwiSamples.

(** * The tokenizer's directive vocabulary *)

Section TokenizerFacts.
Import Tokenizer Samples.
Local Open Scope string_scope.

(** Every row of [TOKEN_SPEC] that produces a directive kind is a
    keyword followed by a whitespace look-ahead. *)
Lemma directive_rows_are_keywords :
  (fun row => keyword_of row.1) <$> directive_rows
  = [Some "#include"; Some "#macro"; Some "#macret"; Some "#macend";
     Some "#invoke"; Some "#define"; Some "#undef"; Some "#ifdef";
     Some "#ifndef"; Some "#else"; Some "#elsedef"; Some "#elsendef";
     Some "#endif"].
Proof. reflexivity. Qed.

Lemma directive_kinds_distinct : NoDup (snd <$> directive_rows).
Proof. apply (bool_decide_unpack _). vm_compute. exact I. Qed.

(** C9 (at the failing inputs).  [Tokenizer::Type] has thirteen directive
    kinds.  Of the twenty-one listed spellings, thirteen have a row in
    [TOKEN_SPEC]; [#ifequ], [#ifnequ], [#ifless], [#ifmore], [#elseequ],
    [#elsenequ], [#elseless] and [#elsemore] have none: no row of
    [TOKEN_SPEC] that produces a directive kind matches one of them
    followed by a space, no regular expression of [TOKEN_SPEC] mentions
    one of them, and what remains for their leading [#] is the row of
    NUMBER_SIGN. *)
Theorem C9_eight_listed_directives_have_no_kind (rest : string) :
  length PREPROCESSOR_DIRECTIVES = 13%nat
  /\ directive_kind <$> documented_directives
     = [Some PREPROCESSOR_INCLUDE; Some PREPROCESSOR_MACRO;
        Some PREPROCESSOR_MACRET; Some PREPROCESSOR_MACEND;
        Some PREPROCESSOR_INVOKE; Some PREPROCESSOR_DEFINE;
        Some PREPROCESSOR_UNDEF; Some PREPROCESSOR_IFDEF;
        Some PREPROCESSOR_IFNDEF; None; None; None; None;
        Some PREPROCESSOR_ELSE; Some PREPROCESSOR_ELSEDEF;
        Some PREPROCESSOR_ELSENDEF; None; None; None; None;
        Some PREPROCESSOR_ENDIF]
  /\ Forall (fun spelling =>
       Forall (fun row =>
         exists kw, keyword_of row.1 = Some kw
                    /\ keyword_matches kw (spelling ++ " " ++ rest) = false)
         directive_rows)
       directives_without_kind
  /\ Forall (fun spelling =>
       Forall (fun row => contains spelling row.1 = false) TOKEN_SPEC)
       directives_without_kind
  /\ ("^#", NUMBER_SIGN) ∈ TOKEN_SPEC.
Proof.
  split; [reflexivity|]. split; [reflexivity|]. split; [|split].
  - repeat (apply Forall_cons; split);
      try apply Forall_nil; eexists; split; reflexivity.
  - apply (bool_decide_unpack _). vm_compute. exact I.
  - apply (bool_decide_unpack _). vm_compute. exact I.
Qed.

End TokenizerFacts.

(** * The preprocessor *)

Section PreprocessorFacts.
Import Tokenizer Preprocessor Samples.
Local Open Scope string_scope.

Variable tokenize : string -> list Token.
Variable VARIABLE_TYPE_TO_NAME_MAP : TokenType -> string.
Variable default_errorMsg : string.

Lemma bind_ok {A B} (m : result A) (f : A -> result B) (b : B) :
  (m ≫= f) = Ok b -> exists a, m = Ok a /\ f a = Ok b.
Proof. destruct m as [a|msg]; cbn; [eauto|discriminate]. Qed.

(** The collecting loop stops in front of the first token of a stop
    kind. *)
Lemma take_until_stops stop msg (rest : list Token) : forall ts,
  take_until stop msg rest = Ok ts ->
  exists t rest', rest = (ts ++ t :: rest')%list /\ type_in (type t) stop = true.
Proof.
  induction rest as [|t rest IH]; intros ts H; cbn in H; [discriminate|].
  destruct (type_in (type t) stop) eqn:E.
  - injection H as <-. exists t, rest. split; [reflexivity|exact E].
  - apply bind_ok in H as (ts' & H1 & H2). injection H2 as <-.
    destruct (IH ts' H1) as (t' & rest' & -> & Hs).
    exists t', rest'. split; [reflexivity|exact Hs].
Qed.

(** ** #define *)

Lemma std_map_insert_keeps {V} (k s : string) (v old : V) (m : gmap string V) :
  m !! s = Some old -> std_map_insert k v m !! s = Some old.
Proof.
  intros H. unfold std_map_insert. destruct (m !! k) eqn:E; [exact H|].
  rewrite lookup_insert_ne; [exact H|]. intros ->. congruence.
Qed.

(** A [#define] that returns leaves every existing binding as it was:
    for a bound symbol it is a no-op on the symbol table. *)
Lemma define_keeps_binding st tokenI st' c (s : string) old :
  _define default_errorMsg st tokenI = Ok (st', c) ->
  m_symbols st !! s = Some old ->
  m_symbols st' !! s = Some old.
Proof.
  unfold _define. intros H Hs.
  apply bind_ok in H as ([t1 i1] & _ & H).
  apply bind_ok in H as ([symbol i2] & _ & H).
  apply bind_ok in H as ([tokens i3] & _ & H).
  injection H as <- <-. cbn. apply std_map_insert_keeps. exact Hs.
Qed.

(** C3 (at the failing input).  On [#define S 1\n#define S 2\nS\n] the
    second [#define] returns without a diagnostic and leaves [S] bound to
    the first replacement list [1]; the later occurrence of [S] is
    replaced by [1], not by [2]. *)
Theorem C3_second_define_is_ignored :
  exists st1 st2,
    _define eof_msg (initial redefine_tokens) 0%nat = Ok (st1, 5%nat)
    /\ m_symbols st1 !! "S" = Some [num "1"]
    /\ _define eof_msg st1 6%nat = Ok (st2, 11%nat)
    /\ m_symbols st2 !! "S" = Some [num "1"]
    /\ m_symbols st2 !! "S" <> Some [num "2"]
    /\ written (preprocess eof_msg directive_table 32 (initial redefine_tokens))
       = Some (Ok (newline ++ "1" ++ newline)).
Proof.
  do 2 eexists. repeat (split; [reflexivity|]).
  split; [|reflexivity]. vm_compute. discriminate.
Qed.

(** ** #macret *)

Lemma macret_scan_one t rest :
  type t <> ASSEMBLER_SCOPE -> type t <> ASSEMBLER_SCEND ->
  macret_scan (t :: rest) 0 = (1%nat, 0%Z).
Proof.
  intros H1 H2. cbn [macret_scan]. unfold type_in.
  rewrite !bool_decide_eq_false_2
    by (rewrite list_elem_of_singleton; assumption).
  reflexivity.
Qed.

(** For a macro with a return type, a [#macret] that returns leaves the
    cursor one token past the newline that ends the [#macret] line: the
    scan takes that newline and nothing else. *)
Lemma macret_returning_cursor st tokenI st' c out macro stack :
  m_macroStack st = (out, macro) :: stack ->
  returnType macro <> UNKNOWN ->
  _macret tokenize VARIABLE_TYPE_TO_NAME_MAP default_errorMsg st tokenI
    = Ok (st', c) ->
  let start := skipTokens st (S tokenI) blank in
  exists return_value,
    take_until [WHITESPACE_NEWLINE] default_errorMsg (drop start (m_tokens st))
      = Ok return_value
    /\ c = S (start + length return_value)
    /\ m_macroStack st' = stack.
Proof.
  intros Hstack Hret H. unfold _macret in H.
  apply bind_ok in H as ([t1 i1] & Hc & H).
  unfold consume in Hc. destruct (m_tokens st !! tokenI) as [t0|]; [|discriminate].
  injection Hc as _ <-. rewrite Hstack in H. cbn [snd fst] in H.
  cbn zeta. remember (skipTokens st (S tokenI) blank) as start eqn:Hstart.
  rewrite bool_decide_eq_false_2 in H by exact Hret. cbn [negb] in H.
  apply bind_ok in H as ([rv i2] & Hu & H).
  unfold consume_until in Hu.
  apply bind_ok in Hu as (ts & Ht & Hu). injection Hu as <- <-.
  exists ts. split; [exact Ht|].
  destruct (take_until_stops _ _ _ _ Ht) as (t & rest' & Hrest & Hstop).
  assert (Hd : drop (start + length ts) (m_tokens st) = t :: rest').
  { rewrite <- drop_drop, Hrest. rewrite drop_app_length. reflexivity. }
  rewrite Hd in H.
  unfold type_in in Hstop. apply bool_decide_eq_true_1 in Hstop.
  apply list_elem_of_singleton in Hstop.
  rewrite macret_scan_one in H by (rewrite Hstop; discriminate).
  cbn in H. injection H as <- <-. cbn. split; [lia|reflexivity].
Qed.

(** C4 (at the failing input).  [#invoke m()] splices
    [.scope \n #macret \n mov \n \n .scend] in at token 6, so the
    [.scend] it inserted is token 13.  [#macret], at token 8, returns
    with the cursor at token 10: the rest of the macro body ([mov]) and
    the [.scend] are still ahead of it, where the fast-forward is to
    leave the cursor at token 14. *)
Theorem C4_macret_scan_stops_after_one_token :
  exists st st',
    _invoke_expand tokenize VARIABLE_TYPE_TO_NAME_MAP false EmptyString
      macro_m [] (initial invoke_tokens) 6%nat = Ok (st, 6%nat)
    /\ m_tokens st
       = [kw_invoke; sp; sym "m"; mkToken OPEN_PARANTHESIS "(";
          mkToken CLOSE_PARANTHESIS ")"; nl;
          scope; nl; kw_macret; nl; sym "mov"; nl; nl; scend; stop; nl]
    /\ _macret tokenize VARIABLE_TYPE_TO_NAME_MAP default_errorMsg st 8%nat
       = Ok (st', 10%nat)
    /\ drop 10 (m_tokens st') = [sym "mov"; nl; nl; scend; stop; nl]
    /\ m_macroStack st' = [].
Proof. do 2 eexists. repeat split. Qed.

(** ** Conditional blocks *)

(** With the condition not met, the scan reports as [nextBlockTokenI]
    either the value it started with or the position of a chained
    alternate. *)
Lemma conditional_scan_next (rest : list Token) : forall cur level nb ei,
  let '(nb', ei') := conditional_scan false rest cur level nb ei in
  nb' = nb
  \/ exists (k : nat) t, rest !! k = Some t /\ nb' = (cur + Z.of_nat k)%Z
                   /\ type_in (type t) ELSE_KINDS = true.
Proof.
  induction rest as [|t rest IH]; intros cur level nb ei; cbn [conditional_scan].
  - left. reflexivity.
  - destruct ((level =? 0)%Z && type_in (type t) [PREPROCESSOR_ENDIF]);
      [left; reflexivity|].
    destruct ((level =? 0)%Z && type_in (type t) ELSE_KINDS) eqn:Eelse;
      cbn [andb negb].
    + destruct (nb =? -1)%Z; [|left; reflexivity].
      right. exists O, t. cbn. apply andb_true_iff in Eelse as [_ E].
      repeat split; [lia|exact E].
    + match goal with
      | |- context [conditional_scan false rest ?c ?l ?n ?e] =>
          specialize (IH c l n e);
          destruct (conditional_scan false rest c l n e) as [nb' ei']
      end.
      destruct IH as [->|(k & t' & Hk & -> & Ht)]; [left; reflexivity|].
      right. exists (S k), t'. cbn. repeat split; [exact Hk|lia|exact Ht].
Qed.

(** Whenever the resolver returns with the condition not met, the cursor
    is on a chained alternate: it never returns with the cursor on an
    [#endif]. *)
Lemma conditionalBlock_not_met st tokenI st' c :
  conditionalBlock false st tokenI = Ok (st', c) ->
  st' = st
  /\ exists t, m_tokens st !! c = Some t /\ type_in (type t) ELSE_KINDS = true.
Proof.
  unfold conditionalBlock. intros H.
  pose proof (conditional_scan_next (drop tokenI (m_tokens st))
                (Z.of_nat tokenI) 0 (-1) (-1)) as Hs.
  destruct (conditional_scan false _ _ _ _ _) as [nb ei].
  cbn [andb negb orb] in H.
  destruct (nb =? -1)%Z eqn:E; [discriminate|].
  injection H as <- <-. split; [reflexivity|].
  destruct Hs as [->|(k & t & Hk & -> & Ht)]; [discriminate|].
  exists t. split; [|exact Ht].
  rewrite lookup_drop in Hk. rewrite <- Hk. f_equal. lia.
Qed.

(** C5 (at the failing input).  On [#ifdef FOO\nA\n#endif\n] with [FOO]
    undefined there is no chained alternate and the matching [#endif] is
    token 6, at depth 0; the resolver, entered at token 3 with the
    condition not met, ends in the "Unclosed ifdef block" diagnostic
    instead of moving the cursor to token 6.  With an [#else] in the block
    it moves the cursor to the [#else]. *)
Theorem C5_not_met_without_alternate_is_fatal :
  ifdef_tokens !! 6%nat = Some kw_endif
  /\ conditional_scan false (drop 3 ifdef_tokens) 3 0 (-1) (-1) = ((-1)%Z, 6%Z)
  /\ conditionalBlock false (initial ifdef_tokens) 3%nat
     = Fatal "Preprocessor::_ifdef() - Unclosed ifdef block."
  /\ _ifdef eof_msg (initial ifdef_tokens) 0%nat
     = Fatal "Preprocessor::_ifdef() - Unclosed ifdef block."
  /\ written (preprocess eof_msg directive_table 32 (initial ifdef_tokens))
     = Some (Fatal "Preprocessor::_ifdef() - Unclosed ifdef block.")
  /\ conditionalBlock false (initial ifdef_else_tokens) 3%nat
     = Ok (initial ifdef_else_tokens, 6%nat)
  /\ written (preprocess eof_msg directive_table 32 (initial ifdef_else_tokens))
     = Some (Ok (newline ++ "B" ++ newline)).
Proof. repeat split. Qed.

(** ** Dispatch *)

Variable preprocessors : TokenType -> option handler.

(** A token whose kind has no entry in the dispatch table, and which is
    not a defined symbol, is written out as it is. *)
Lemma dispatch_plain_text st i t :
  m_tokens st !! i = Some t ->
  preprocessors (type t) = None ->
  type t <> SYMBOL ->
  dispatch default_errorMsg preprocessors t st i
  = Ok (writeString st (value t), S i).
Proof.
  intros Ht Hp Hs. unfold dispatch. rewrite Hp.
  rewrite bool_decide_eq_false_2 by exact Hs.
  unfold consume. rewrite Ht. reflexivity.
Qed.

End PreprocessorFacts.

(** * Further properties of the memory regions *)

Section MoreMemoryFacts.
Import Memory Samples.

Implicit Types (m : Memory) (d : list Z) (address value num_bytes : Z).

Lemma be_value_range (bs : list Z) :
  Forall (fun b => 0 <= b < 2 ^ 8) bs ->
  0 <= be_value bs < 2 ^ (8 * Z.of_nat (length bs)).
Proof.
  induction 1 as [|b bs Hb _ IH]; cbn [be_value length]; [cbn; lia|].
  replace (8 * Z.of_nat (S (length bs))) with (8 + 8 * Z.of_nat (length bs)) by lia.
  rewrite Z.pow_add_r by lia.
  assert (0 < 2 ^ (8 * Z.of_nat (length bs))) by (apply Z.pow_pos_nonneg; lia).
  nia.
Qed.

(** Shifting bytes into an accumulator one after the other computes, up
    to the 32-bit wrap, the accumulator moved left by their number of
    bytes plus their big-endian value. *)
Lemma fold_shift_in (bs : list Z) : forall acc,
  wrap32 (fold_left shift_in bs acc)
  = wrap32 (acc * 2 ^ (8 * Z.of_nat (length bs)) + be_value bs).
Proof.
  induction bs as [|b bs IH]; intros acc; cbn [fold_left be_value length].
  - f_equal. cbn. lia.
  - rewrite IH. unfold shift_in, wrap32.
    rewrite Z.shiftl_mul_pow2 by lia.
    rewrite Z.add_mod_idemp_l by lia.
    rewrite <- (Z.add_mod_idemp_l (_ * _)) by lia.
    rewrite Z.mul_mod_idemp_l by lia.
    rewrite Z.add_mod_idemp_l by lia.
    f_equal.
    replace (8 * Z.of_nat (S (length bs))) with (8 + 8 * Z.of_nat (length bs)) by lia.
    rewrite Z.pow_add_r by lia. ring.
Qed.

Lemma fold_shift_in_range (bs : list Z) : forall acc,
  0 <= acc < 2 ^ 32 -> 0 <= fold_left shift_in bs acc < 2 ^ 32.
Proof.
  induction bs as [|b bs IH]; intros acc Hacc; cbn [fold_left]; [exact Hacc|].
  apply IH. apply wrap32_range.
Qed.

Lemma shifted_in_be (bs : list Z) : shifted_in bs = wrap32 (be_value bs).
Proof.
  unfold shifted_in.
  rewrite <- (wrap32_small (fold_left shift_in bs 0))
    by (apply fold_shift_in_range; lia).
  rewrite fold_shift_in. f_equal.
Qed.

(** The elements of [stored_bytes] are the array elements at the
    subscripts of the access. *)
Lemma lookup_stored_bytes m address num_bytes (j : nat) :
  0 <= address -> 0 <= num_bytes ->
  address + num_bytes <= Z.of_nat (length (data m)) ->
  (j < Z.to_nat num_bytes)%nat ->
  stored_bytes m address num_bytes !! j
  = data m !! Z.to_nat (address + Z.of_nat j).
Proof.
  intros Ha Hn Hfit Hj. unfold stored_bytes.
  rewrite lookup_take_lt by exact Hj. rewrite lookup_drop. f_equal. lia.
Qed.

Lemma length_stored_bytes m address num_bytes :
  0 <= address -> 0 <= num_bytes ->
  address + num_bytes <= Z.of_nat (length (data m)) ->
  length (stored_bytes m address num_bytes) = Z.to_nat num_bytes.
Proof.
  intros Ha Hn Hfit. unfold stored_bytes.
  rewrite length_take, length_drop. lia.
Qed.

(** An in-bounds read inside the array returns the bytes of its access
    shifted in first to last, and leaves the exception record alone. *)
Lemma read_closed_form m address exception num_bytes :
  constructed m ->
  0 <= num_bytes -> 0 <= address -> address + num_bytes <= mem_size m ->
  out_of_bounds m address num_bytes = false ->
  read m address exception num_bytes
  = Some (wrap32 (be_value (stored_bytes m address num_bytes)), exception).
Proof.
  intros (Hlo & Hhi & Hmax & Hsize & Hlen & Hbytes) Hn Ha Hfit Hguard.
  pose proof (wrap32_range (hi_addr m - lo_addr m + 1)) as Hr.
  assert (Hl : length (stored_bytes m address num_bytes) = Z.to_nat num_bytes)
    by (apply length_stored_bytes; lia).
  unfold read. rewrite Hguard. rewrite <- Hl.
  rewrite read_loop_spec with (bs := stored_bytes m address num_bytes).
  - cbn. rewrite <- shifted_in_be. reflexivity.
  - lia.
  - rewrite Hl. lia.
  - intros j Hj. rewrite Hl in Hj. rewrite Z.add_0_r.
    symmetry. apply lookup_stored_bytes; lia.
Qed.

Lemma stored_value_range m address num_bytes :
  constructed m ->
  0 <= num_bytes -> 0 <= address -> address + num_bytes <= mem_size m ->
  0 <= be_value (stored_bytes m address num_bytes) < 2 ^ (8 * num_bytes).
Proof.
  intros (Hlo & Hhi & Hmax & Hsize & Hlen & Hbytes) Hn Ha Hfit.
  assert (Hl : length (stored_bytes m address num_bytes) = Z.to_nat num_bytes)
    by (apply length_stored_bytes; lia).
  replace (8 * num_bytes)
    with (8 * Z.of_nat (length (stored_bytes m address num_bytes))) by lia.
  apply be_value_range. unfold stored_bytes.
  apply Forall_take, Forall_drop. exact Hbytes.
Qed.

(** X1 (Memory::read, closed form).  An in-bounds read inside the array
    leaves the exception record alone and returns the big-endian value
    of the bytes at [address .. address + num_bytes - 1], reduced modulo
    2^32; for at most four bytes nothing is reduced and the value is
    below [2^(8 num_bytes)]. *)
Theorem X1_read_is_big_endian m address exception num_bytes :
  constructed m ->
  0 <= num_bytes -> 0 <= address -> address + num_bytes <= mem_size m ->
  out_of_bounds m address num_bytes = false ->
  read m address exception num_bytes
  = Some (wrap32 (be_value (stored_bytes m address num_bytes)), exception)
  /\ (num_bytes <= 4 ->
      wrap32 (be_value (stored_bytes m address num_bytes))
      = be_value (stored_bytes m address num_bytes)
      /\ 0 <= be_value (stored_bytes m address num_bytes) < 2 ^ (8 * num_bytes)).
Proof.
  intros Hc Hn Ha Hfit Hguard.
  split; [apply read_closed_form; assumption|].
  intros H4.
  pose proof (stored_value_range m address num_bytes Hc Hn Ha Hfit) as Hrange.
  split; [|exact Hrange].
  apply wrap32_small.
  assert (2 ^ (8 * num_bytes) <= 2 ^ 32) by (apply Z.pow_le_mono_r; lia).
  lia.
Qed.

(** The write loop keeps the length of the array, whatever it is given. *)
Lemma write_loop_length (n : nat) : forall d address i value d' tr,
  write_loop d address i n value = Some (d', tr) -> length d' = length d.
Proof.
  induction n as [|n IH]; intros d address i value d' tr H; cbn [write_loop] in H.
  - injection H as <- _. reflexivity.
  - destruct (decide _) as [Hin|]; [|discriminate].
    destruct (write_loop _ _ _ _ _) as [[d1 tr1]|] eqn:E; [|discriminate].
    cbn in H. injection H as <- _.
    apply IH in E. rewrite length_insert in E. exact E.
Qed.

(** A write that returns keeps the window, the size and the length of
    the array. *)
Lemma write_fields m address value exception num_bytes r :
  write m address value exception num_bytes = Some r ->
  lo_addr (wr_memory r) = lo_addr m
  /\ hi_addr (wr_memory r) = hi_addr m
  /\ mem_size (wr_memory r) = mem_size m
  /\ length (data (wr_memory r)) = length (data m).
Proof.
  unfold write. intros H.
  destruct (out_of_bounds m address num_bytes).
  - injection H as <-. cbn. auto.
  - destruct (write_loop _ _ _ _ _) as [[d' tr]|] eqn:E; [|discriminate].
    cbn in H. injection H as <-. cbn.
    apply write_loop_length in E. auto.
Qed.

(** An in-bounds write inside the array leaves a well-formed region. *)
Lemma write_well_formed m address value exception num_bytes r :
  constructed m ->
  0 <= num_bytes -> 0 <= address -> address + num_bytes <= mem_size m ->
  out_of_bounds m address num_bytes = false ->
  write m address value exception num_bytes = Some r ->
  constructed (wr_memory r).
Proof.
  intros Hc Hn Ha Hfit Hguard Hw.
  destruct (write_in_bounds m address value exception num_bytes Hc Hn Ha Hfit Hguard)
    as (r' & Hw' & _ & _ & Hl & Hbytes & Hrest).
  rewrite Hw in Hw'. injection Hw' as <-.
  destruct (write_fields _ _ _ _ _ _ Hw) as (E1 & E2 & E3 & E4).
  destruct Hc as (Hlo & Hhi & Hmax & Hsize & Hlen & Hb).
  unfold constructed. rewrite E1, E2, E3, E4.
  split; [exact Hlo|]. split; [exact Hhi|]. split; [exact Hmax|].
  split; [exact Hsize|]. split; [exact Hlen|].
  apply Forall_lookup. intros k b Hk.
  destruct (decide (address <= Z.of_nat k < address + num_bytes)) as [Hin|Hout].
  - specialize (Hbytes (Z.of_nat k - address) ltac:(lia)).
    replace (Z.to_nat (address + (Z.of_nat k - address))) with k in Hbytes by lia.
    rewrite Hbytes in Hk. injection Hk as <-. apply land_255_range.
  - rewrite Hrest in Hk by lia.
    rewrite Forall_lookup in Hb. exact (Hb k b Hk).
Qed.

(** X2 (Memory::write, what it never does).  Whatever the arguments, a write that
    returns keeps the window, the size and the array length of the
    region; a write the guard rejects changes no byte at all, stores to
    no subscript and records OUT_OF_BOUNDS_ADDRESS with the address, the
    value and the byte count of the call. *)
Theorem X2_write_keeps_region m address value exception num_bytes r :
  write m address value exception num_bytes = Some r ->
  lo_addr (wr_memory r) = lo_addr m
  /\ hi_addr (wr_memory r) = hi_addr m
  /\ mem_size (wr_memory r) = mem_size m
  /\ length (data (wr_memory r)) = length (data m)
  /\ (out_of_bounds m address num_bytes = true ->
      wr_memory r = m /\ wr_trace r = []
      /\ wr_exception r
         = mkWriteException OUT_OF_BOUNDS_ADDRESS address value num_bytes)
  /\ (out_of_bounds m address num_bytes = false -> wr_exception r = exception).
Proof.
  unfold write. intros H.
  destruct (out_of_bounds m address num_bytes).
  - injection H as <-. cbn. repeat split; auto; discriminate.
  - destruct (write_loop _ _ _ _ _) as [[d' tr]|] eqn:E; [|discriminate].
    cbn in H. injection H as <-. cbn.
    apply write_loop_length in E.
    repeat split; auto; discriminate.
Qed.

(** X3 (Memory::write, frame and invariant).  An in-bounds write inside
    the array changes no element outside [address, address + num_bytes)
    and keeps the region well formed: every element is still a byte. *)
Theorem X3_write_frame m address value exception num_bytes :
  constructed m ->
  0 <= num_bytes -> 0 <= address -> address + num_bytes <= mem_size m ->
  out_of_bounds m address num_bytes = false ->
  exists r,
    write m address value exception num_bytes = Some r
    /\ constructed (wr_memory r)
    /\ (forall k : nat,
          Z.of_nat k < address \/ address + num_bytes <= Z.of_nat k ->
          data (wr_memory r) !! k = data m !! k).
Proof.
  intros Hc Hn Ha Hfit Hguard.
  destruct (write_in_bounds m address value exception num_bytes Hc Hn Ha Hfit Hguard)
    as (r & Hw & _ & _ & _ & _ & Hrest).
  exists r. split; [exact Hw|]. split; [|exact Hrest].
  exact (write_well_formed m address value exception num_bytes r
           Hc Hn Ha Hfit Hguard Hw).
Qed.

(** The read loop only looks at the subscripts of its access. *)
Lemma read_loop_ext (n : nat) : forall d d' address i acc,
  0 <= address + i -> address + i + Z.of_nat n <= 2 ^ 32 ->
  (forall k : nat, address + i <= Z.of_nat k < address + i + Z.of_nat n ->
     d' !! k = d !! k) ->
  read_loop d' address i n acc = read_loop d address i n acc.
Proof.
  induction n as [|n IH]; intros d d' address i acc Hlo Hw Hd; [reflexivity|].
  cbn [read_loop]. rewrite (wrap32_small (address + i)) by lia.
  rewrite (Hd (Z.to_nat (address + i))) by lia.
  destruct (d !! Z.to_nat (address + i)); [|reflexivity].
  apply IH; try lia. intros k Hk. apply Hd. lia.
Qed.

(** X4 (writes and reads at disjoint addresses).  After an in-bounds
    write, a read of bytes that all lie below or all lie above the
    written ones returns what it returned before the write. *)
Theorem X4_read_after_disjoint_write m waddr value wexc wn raddr rexc rn :
  constructed m ->
  0 <= wn -> 0 <= waddr -> waddr + wn <= mem_size m ->
  out_of_bounds m waddr wn = false ->
  0 <= raddr -> 0 <= rn -> raddr + rn <= 2 ^ 32 ->
  raddr + rn <= waddr \/ waddr + wn <= raddr ->
  exists r,
    write m waddr value wexc wn = Some r
    /\ read (wr_memory r) raddr rexc rn = read m raddr rexc rn.
Proof.
  intros Hc Hwn Hwa Hfit Hguard Hra Hrn Hrw Hdisj.
  destruct (write_in_bounds m waddr value wexc wn Hc Hwn Hwa Hfit Hguard)
    as (r & Hw & _ & _ & _ & _ & Hrest).
  exists r. split; [exact Hw|].
  destruct (write_fields _ _ _ _ _ _ Hw) as (E1 & E2 & _).
  unfold read, out_of_bounds, in_bounds. rewrite E1, E2.
  destruct (_ || _); [reflexivity|].
  rewrite (read_loop_ext (Z.to_nat rn) (data m) (data (wr_memory r))); try lia.
  - reflexivity.
  - intros k Hk. apply Hrest. lia.
Qed.

(** X5 (overwriting).  Writing [v2] over a just written [v1], at the same
    address with the same byte count, leaves the region as writing [v2]
    alone does. *)
Theorem X5_write_overwrites m address v1 v2 exception num_bytes :
  constructed m ->
  0 <= num_bytes -> 0 <= address -> address + num_bytes <= mem_size m ->
  out_of_bounds m address num_bytes = false ->
  exists r1 r12 r2,
    write m address v1 exception num_bytes = Some r1
    /\ write (wr_memory r1) address v2 exception num_bytes = Some r12
    /\ write m address v2 exception num_bytes = Some r2
    /\ wr_memory r12 = wr_memory r2.
Proof.
  intros Hc Hn Ha Hfit Hguard.
  destruct (write_in_bounds m address v1 exception num_bytes Hc Hn Ha Hfit Hguard)
    as (r1 & Hw1 & _ & _ & _ & _ & Hrest1).
  pose proof (write_well_formed m address v1 exception num_bytes r1
                Hc Hn Ha Hfit Hguard Hw1) as Hc1.
  destruct (write_fields _ _ _ _ _ _ Hw1) as (E1 & E2 & E3 & E4).
  assert (Hguard1 : out_of_bounds (wr_memory r1) address num_bytes = false).
  { unfold out_of_bounds, in_bounds in *. rewrite E1, E2. exact Hguard. }
  destruct (write_in_bounds (wr_memory r1) address v2 exception num_bytes Hc1 Hn Ha)
    as (r12 & Hw12 & _ & _ & Hl12 & Hb12 & Hrest12); [lia|exact Hguard1|].
  destruct (write_in_bounds m address v2 exception num_bytes Hc Hn Ha Hfit Hguard)
    as (r2 & Hw2 & _ & _ & Hl2 & Hb2 & Hrest2).
  exists r1, r12, r2. repeat split; try assumption.
  destruct (write_fields _ _ _ _ _ _ Hw12) as (F1 & F2 & F3 & _).
  destruct (write_fields _ _ _ _ _ _ Hw2) as (G1 & G2 & G3 & _).
  destruct (wr_memory r12) as [s12 l12 h12 d12], (wr_memory r2) as [s2 l2 h2 d2].
  cbn in *. f_equal; try congruence.
  apply list_eq. intros k.
  destruct (decide (address <= Z.of_nat k < address + num_bytes)) as [Hin|Hout].
  - specialize (Hb12 (Z.of_nat k - address) ltac:(lia)).
    specialize (Hb2 (Z.of_nat k - address) ltac:(lia)).
    replace (Z.to_nat (address + (Z.of_nat k - address))) with k in * by lia.
    congruence.
  - rewrite Hrest12, Hrest1, Hrest2 by lia. reflexivity.
Qed.

(** X6 (the typed readers).  On an in-bounds access inside the array the
    conversions of [readByte], [readHalfWord] and [readWord] to their
    return types drop nothing: each returns what [read] returns for its
    width. *)
Theorem X6_typed_readers_lose_nothing m address exception :
  constructed m -> 0 <= address ->
  (address + 1 <= mem_size m -> out_of_bounds m address 1 = false ->
   readByte m address exception = read m address exception 1)
  /\ (address + 2 <= mem_size m -> out_of_bounds m address 2 = false ->
      readHalfWord m address exception = read m address exception 2)
  /\ (address + 4 <= mem_size m -> out_of_bounds m address 4 = false ->
      readWord m address exception = read m address exception 4).
Proof.
  intros Hc Ha.
  repeat split; intros Hfit Hguard.
  - pose proof (read_closed_form m address exception 1 Hc ltac:(lia) Ha Hfit Hguard)
      as Hr.
    pose proof (stored_value_range m address 1 Hc ltac:(lia) Ha Hfit) as Hrange.
    assert (Hw : wrap32 (be_value (stored_bytes m address 1))
                 = be_value (stored_bytes m address 1))
      by (apply wrap32_small; cbn in Hrange; lia).
    unfold readByte. rewrite Hr. cbn. rewrite Hw. unfold wrap8.
    rewrite Z.mod_small by (change (8 * 1) with 8 in Hrange; lia). reflexivity.
  - pose proof (read_closed_form m address exception 2 Hc ltac:(lia) Ha Hfit Hguard)
      as Hr.
    pose proof (stored_value_range m address 2 Hc ltac:(lia) Ha Hfit) as Hrange.
    assert (Hw : wrap32 (be_value (stored_bytes m address 2))
                 = be_value (stored_bytes m address 2))
      by (apply wrap32_small; cbn in Hrange; lia).
    unfold readHalfWord. rewrite Hr. cbn. rewrite Hw.
    rewrite Z.mod_small by (change (8 * 2) with 16 in Hrange; lia). reflexivity.
  - pose proof (read_closed_form m address exception 4 Hc ltac:(lia) Ha Hfit Hguard)
      as Hr.
    pose proof (stored_value_range m address 4 Hc ltac:(lia) Ha Hfit) as Hrange.
    assert (Hw : wrap32 (be_value (stored_bytes m address 4))
                 = be_value (stored_bytes m address 4))
      by (apply wrap32_small; cbn in Hrange; lia).
    unfold readWord. rewrite Hr. cbn. rewrite Hw, Hw. reflexivity.
Qed.

(** X7 (the ROM image).  A ROM built over a window of fewer than 2^32
    bytes from an image of at least that many bytes is well formed, and a
    one-byte read at an address of the window that is also a subscript
    of the array returns the image byte with that subscript. *)
Theorem X7_rom_holds_its_image rom_data lo hi a exception :
  0 <= lo -> lo <= hi -> hi < 2 ^ 32 -> hi - lo + 1 < 2 ^ 32 ->
  hi - lo + 1 <= Z.of_nat (length rom_data) ->
  Forall (fun b => 0 <= b < 2 ^ 8) rom_data ->
  constructed (ROM rom_data lo hi)
  /\ (lo <= a <= hi -> a < hi - lo + 1 ->
      exists b, rom_data !! Z.to_nat a = Some b
                /\ read (ROM rom_data lo hi) a exception 1 = Some (b, exception)).
Proof.
  intros Hlo Hhi Hmax Hsz Hlen Hb.
  assert (Hw : wrap32 (hi - lo + 1) = hi - lo + 1) by (apply wrap32_small; lia).
  assert (Hc : constructed (ROM rom_data lo hi)).
  { unfold constructed, ROM. cbn. rewrite Hw.
    repeat split; try lia.
    - rewrite length_take. lia.
    - apply Forall_take. exact Hb. }
  split; [exact Hc|]. intros Ha Hidx.
  assert (Hg : out_of_bounds (ROM rom_data lo hi) a 1 = false).
  { apply out_of_bounds_false; cbn; lia. }
  assert (Hr : read (ROM rom_data lo hi) a exception 1
               = Some (wrap32 (be_value (stored_bytes (ROM rom_data lo hi) a 1)),
                       exception)).
  { apply read_closed_form; try lia; try assumption. cbn. rewrite Hw. lia. }
  destruct (lookup_lt_is_Some_2 rom_data (Z.to_nat a)) as [b Hb0]; [lia|].
  exists b. split; [exact Hb0|]. rewrite Hr. do 2 f_equal.
  assert (Hst : stored_bytes (ROM rom_data lo hi) a 1 = [b]).
  { unfold stored_bytes, ROM. cbn [data]. rewrite Hw.
    apply list_eq. intros [|k].
    - rewrite lookup_take_lt by (cbn; lia). rewrite lookup_drop, Nat.add_0_r.
      rewrite lookup_take_lt by lia. exact Hb0.
    - rewrite lookup_take_ge by (cbn; lia). reflexivity. }
  rewrite Hst. cbn. rewrite Z.mul_1_r, Z.add_0_r.
  rewrite Forall_lookup in Hb. specialize (Hb _ _ Hb0).
  apply wrap32_small. lia.
Qed.

End MoreMemoryFacts.

Section MoreMemorySamples.
Import Memory Samples MoreSamples.

Local Ltac sample_region :=
  unfold constructed; cbn; repeat split; try lia; try reflexivity;
  repeat constructor; lia.

(** X1, at [read(1, 2)] on a RAM region over [0, 3] holding 0x12, 0x34,
    0x56, 0x78. *)
Lemma X1_read_is_big_endian_witness :
  constructed ram_bytes /\ 0 <= 2 /\ 0 <= 1 /\ 1 + 2 <= mem_size ram_bytes
  /\ out_of_bounds ram_bytes 1 2 = false
  /\ read ram_bytes 1 no_read_fault 2
     = Some (wrap32 (be_value (stored_bytes ram_bytes 1 2)), no_read_fault)
  /\ (2 <= 4 ->
      wrap32 (be_value (stored_bytes ram_bytes 1 2))
      = be_value (stored_bytes ram_bytes 1 2)
      /\ 0 <= be_value (stored_bytes ram_bytes 1 2) < 2 ^ (8 * 2)).
Proof.
  assert (Hc : constructed ram_bytes) by sample_region.
  split; [exact Hc|]. split; [lia|]. split; [lia|]. split; [cbn; lia|].
  split; [reflexivity|].
  apply (X1_read_is_big_endian ram_bytes 1 no_read_fault 2 Hc);
    [lia|lia|cbn; lia|reflexivity].
Defined.

(** X2, at [write(2, 0x1234, 4)] on the RAM region over [0, 3], which
    the guard rejects. *)
Lemma X2_write_keeps_region_witness :
  write ram4 2 0x1234 no_write_fault 4 = Some rejected_write
  /\ lo_addr (wr_memory rejected_write) = lo_addr ram4
  /\ hi_addr (wr_memory rejected_write) = hi_addr ram4
  /\ mem_size (wr_memory rejected_write) = mem_size ram4
  /\ length (data (wr_memory rejected_write)) = length (data ram4)
  /\ (out_of_bounds ram4 2 4 = true ->
      wr_memory rejected_write = ram4 /\ wr_trace rejected_write = []
      /\ wr_exception rejected_write
         = mkWriteException OUT_OF_BOUNDS_ADDRESS 2 0x1234 4)
  /\ (out_of_bounds ram4 2 4 = false ->
      wr_exception rejected_write = no_write_fault).
Proof.
  assert (H : write ram4 2 0x1234 no_write_fault 4 = Some rejected_write)
    by reflexivity.
  split; [exact H|].
  exact (X2_write_keeps_region ram4 2 0x1234 no_write_fault 4 rejected_write H).
Defined.

(** X3, at [write(1, 0xABCD, 2)] on the RAM region over [0, 3]. *)
Lemma X3_write_frame_witness :
  constructed ram4 /\ 0 <= 2 /\ 0 <= 1 /\ 1 + 2 <= mem_size ram4
  /\ out_of_bounds ram4 1 2 = false
  /\ exists r,
       write ram4 1 0xABCD no_write_fault 2 = Some r
       /\ constructed (wr_memory r)
       /\ (forall k : nat,
             Z.of_nat k < 1 \/ 1 + 2 <= Z.of_nat k ->
             data (wr_memory r) !! k = data ram4 !! k).
Proof.
  assert (Hc : constructed ram4) by sample_region.
  split; [exact Hc|]. split; [lia|]. split; [lia|]. split; [cbn; lia|].
  split; [reflexivity|].
  apply (X3_write_frame ram4 1 0xABCD no_write_fault 2 Hc);
    [lia|lia|cbn; lia|reflexivity].
Defined.

(** X4, at [write(0, 0x1234, 2)] and [read(2, 2)] on the RAM region over
    [0, 3]. *)
Lemma X4_read_after_disjoint_write_witness :
  constructed ram_bytes /\ 0 <= 2 /\ 0 <= 0 /\ 0 + 2 <= mem_size ram_bytes
  /\ out_of_bounds ram_bytes 0 2 = false
  /\ 0 <= 2 /\ 0 <= 2 /\ 2 + 2 <= 2 ^ 32
  /\ (2 + 2 <= 0 \/ 0 + 2 <= 2)
  /\ exists r,
       write ram_bytes 0 0x1234 no_write_fault 2 = Some r
       /\ read (wr_memory r) 2 no_read_fault 2
          = read ram_bytes 2 no_read_fault 2.
Proof.
  assert (Hc : constructed ram_bytes) by sample_region.
  split; [exact Hc|]. split; [lia|]. split; [lia|]. split; [cbn; lia|].
  split; [reflexivity|]. split; [lia|]. split; [lia|]. split; [lia|].
  split; [right; lia|].
  apply (X4_read_after_disjoint_write
           ram_bytes 0 0x1234 no_write_fault 2 2 no_read_fault 2 Hc);
    [lia|lia|cbn; lia|reflexivity|lia|lia|lia|right; lia].
Defined.

(** X5, at two writes of two bytes to address 0 of the RAM region over
    [0, 3]. *)
Lemma X5_write_overwrites_witness :
  constructed ram4 /\ 0 <= 2 /\ 0 <= 0 /\ 0 + 2 <= mem_size ram4
  /\ out_of_bounds ram4 0 2 = false
  /\ exists r1 r12 r2,
       write ram4 0 0x1111 no_write_fault 2 = Some r1
       /\ write (wr_memory r1) 0 0x2222 no_write_fault 2 = Some r12
       /\ write ram4 0 0x2222 no_write_fault 2 = Some r2
       /\ wr_memory r12 = wr_memory r2.
Proof.
  assert (Hc : constructed ram4) by sample_region.
  split; [exact Hc|]. split; [lia|]. split; [lia|]. split; [cbn; lia|].
  split; [reflexivity|].
  apply (X5_write_overwrites ram4 0 0x1111 0x2222 no_write_fault 2 Hc);
    [lia|lia|cbn; lia|reflexivity].
Defined.

(** X6, at address 0 of a RAM region over [0, 3] holding 0x12, 0x34,
    0x56, 0x78. *)
Lemma X6_typed_readers_lose_nothing_witness :
  constructed ram_bytes /\ 0 <= 0
  /\ (0 + 1 <= mem_size ram_bytes -> out_of_bounds ram_bytes 0 1 = false ->
      readByte ram_bytes 0 no_read_fault = read ram_bytes 0 no_read_fault 1)
  /\ (0 + 2 <= mem_size ram_bytes -> out_of_bounds ram_bytes 0 2 = false ->
      readHalfWord ram_bytes 0 no_read_fault
      = read ram_bytes 0 no_read_fault 2)
  /\ (0 + 4 <= mem_size ram_bytes -> out_of_bounds ram_bytes 0 4 = false ->
      readWord ram_bytes 0 no_read_fault = read ram_bytes 0 no_read_fault 4).
Proof.
  assert (Hc : constructed ram_bytes) by sample_region.
  split; [exact Hc|]. split; [lia|].
  apply (X6_typed_readers_lose_nothing ram_bytes 0 no_read_fault Hc). lia.
Defined.

(** X7, at the ROM of the design document's scenario 5 and address 2. *)
Lemma X7_rom_holds_its_image_witness :
  0 <= 0 /\ 0 <= 3 /\ 3 < 2 ^ 32 /\ 3 - 0 + 1 < 2 ^ 32
  /\ 3 - 0 + 1 <= Z.of_nat (length [0xAA; 0xBB; 0xCC; 0xDD])
  /\ Forall (fun b => 0 <= b < 2 ^ 8) [0xAA; 0xBB; 0xCC; 0xDD]
  /\ constructed (ROM [0xAA; 0xBB; 0xCC; 0xDD] 0 3)
  /\ (0 <= 2 <= 3 -> 2 < 3 - 0 + 1 ->
      exists b, [0xAA; 0xBB; 0xCC; 0xDD] !! Z.to_nat 2 = Some b
                /\ read (ROM [0xAA; 0xBB; 0xCC; 0xDD] 0 3) 2 no_read_fault 1
                   = Some (b, no_read_fault)).
Proof.
  assert (Hb : Forall (fun b => 0 <= b < 2 ^ 8) [0xAA; 0xBB; 0xCC; 0xDD])
    by (repeat constructor; lia).
  split; [lia|]. split; [lia|]. split; [lia|]. split; [lia|].
  split; [cbn; lia|]. split; [exact Hb|].
  apply (X7_rom_holds_its_image [0xAA; 0xBB; 0xCC; 0xDD] 0 3 2 no_read_fault);
    [lia|lia|lia|lia|cbn; lia|exact Hb].
Defined.

End MoreMemorySamples.

(** * Further properties of the SWI handlers *)

Section MoreSwiFacts.
Import Swi.

Variable read_byte : Z -> Z.

Lemma seqZ_snoc (start : Z) (n : nat) :
  seqZ start (Z.of_nat (S n)) = seqZ start (Z.of_nat n) ++ [start + Z.of_nat n].
Proof.
  replace (Z.of_nat (S n)) with (Z.of_nat n + 1) by lia.
  rewrite seqZ_app by lia. reflexivity.
Qed.

Lemma assemble_ascending_fold (n : nat) : forall mem_addr val,
  assemble_ascending read_byte mem_addr 0 n val
  = fold_left shift_in (bus_bytes read_byte mem_addr (Z.of_nat n)) val.
Proof.
  induction n as [|n IH]; intros mem_addr val; [reflexivity|].
  rewrite assemble_ascending_last, IH. unfold bus_bytes.
  rewrite seqZ_snoc, fmap_app, fold_left_app. reflexivity.
Qed.

Lemma assemble_descending_fold (n : nat) : forall mem_addr i val,
  assemble_descending read_byte mem_addr i n val
  = fold_left shift_in
      ((fun k => read_byte (wrap32 (mem_addr + k)))
         <$> reverse (seqZ (i - Z.of_nat n + 1) (Z.of_nat n))) val.
Proof.
  induction n as [|n IH]; intros mem_addr i val; [reflexivity|].
  rewrite assemble_descending_last, IH.
  rewrite (seqZ_cons (i - Z.of_nat (S n) + 1)) by lia.
  rewrite reverse_cons, fmap_app, fold_left_app.
  replace (Z.succ (i - Z.of_nat (S n) + 1)) with (i - Z.of_nat n + 1) by lia.
  replace (Z.pred (Z.of_nat (S n))) with (Z.of_nat n) by lia.
  cbn [fmap list_fmap fold_left]. do 3 f_equal. lia.
Qed.

(** Both loops shift in the bytes of the range, the first in ascending
    and the second in descending address order. *)
Lemma assembled_shifted mem_addr size :
  0 <= size ->
  assembled read_byte mem_addr size true
  = shifted_in (bus_bytes read_byte mem_addr size)
  /\ assembled read_byte mem_addr size false
     = shifted_in (reverse (bus_bytes read_byte mem_addr size)).
Proof.
  intros Hs. unfold assembled.
  rewrite assemble_ascending_fold, assemble_descending_fold.
  rewrite Z2Nat.id by lia.
  replace (size - 1 - size + 1) with 0 by lia.
  unfold bus_bytes. rewrite fmap_reverse.
  split; reflexivity.
Qed.

(** X8 (the two byte orders of emu_printm / emu_assertm).  The value
    assembled with [little_endian] set is the big-endian value of the
    bytes at [mem_addr .. mem_addr + size - 1] modulo 2^32; with it clear
    it is that of the same bytes in reverse order. *)
Theorem X8_assembled_values mem_addr size :
  0 <= size ->
  assembled read_byte mem_addr size true
  = wrap32 (be_value (bus_bytes read_byte mem_addr size))
  /\ assembled read_byte mem_addr size false
     = wrap32 (be_value (reverse (bus_bytes read_byte mem_addr size))).
Proof.
  intros Hs.
  destruct (assembled_shifted mem_addr size Hs) as (-> & ->).
  split; apply shifted_in_be.
Qed.

(** X9 (string reading of emu_log / emu_err).  The loop returns [msg]
    exactly when [msg] is the run of bytes from [str] up to, and not
    including, the first NUL byte, and that NUL is met within [fuel]
    reads; more fuel never changes the answer. *)
Theorem X9_read_c_string_spec (fuel : nat) : forall str msg,
  0 <= str < 2 ^ 32 ->
  read_c_string read_byte fuel str = Some msg
  <-> (length msg < fuel)%nat
      /\ msg = bus_bytes read_byte str (Z.of_nat (length msg))
      /\ Forall (fun b => b <> 0) msg
      /\ read_byte (wrap32 (str + Z.of_nat (length msg))) = 0.
Proof.
  assert (Hshift : forall str n,
    bus_bytes read_byte str (Z.of_nat (S n))
    = read_byte (wrap32 (str + 0))
      :: bus_bytes read_byte (wrap32 (str + 1)) (Z.of_nat n)).
  { intros str n. unfold bus_bytes.
    rewrite (seqZ_cons 0) by lia. cbn [fmap list_fmap]. f_equal.
    replace (Z.pred (Z.of_nat (S n))) with (Z.of_nat n) by lia.
    change (Z.succ 0) with (1 + 0).
    rewrite <- (fmap_add_seqZ 1 0), <- list_fmap_compose.
    apply list_fmap_ext. intros _ k _. cbn. unfold wrap32.
    rewrite Z.add_mod_idemp_l by lia. do 2 f_equal. lia. }
  induction fuel as [|fuel IH]; intros str msg Hstr; cbn [read_c_string].
  - split; [discriminate|]. intros (H & _). lia.
  - assert (Hs0 : wrap32 (str + 0) = str)
      by (rewrite Z.add_0_r; apply wrap32_small; exact Hstr).
    destruct (read_byte str =? 0) eqn:E.
    + apply Z.eqb_eq in E. split.
      * intros H. injection H as <-. cbn [length].
        change (Z.of_nat 0) with 0. rewrite Hs0.
        repeat split; auto. lia.
      * intros (_ & Hm & Hnz & _). destruct msg as [|b msg]; [reflexivity|].
        cbn [length] in Hm. rewrite Hshift in Hm. injection Hm as Hb _. rewrite Hs0 in Hb.
        apply Forall_cons in Hnz as [Hnz _]. congruence.
    + apply Z.eqb_neq in E.
      pose proof (wrap32_range (str + 1)) as Hr.
      split.
      * intros H.
        destruct (read_c_string read_byte fuel (wrap32 (str + 1))) as [tl|] eqn:Etl;
          [|discriminate].
        cbn in H. injection H as <-.
        apply IH in Etl as (Hlen & Htl & Hnz & Hend); [|exact Hr].
        cbn [length]. rewrite Hshift, Hs0, <- Htl.
        repeat split; [lia| |].
        -- apply Forall_cons. split; [exact E|exact Hnz].
        -- rewrite <- Hend. unfold wrap32.
           rewrite Z.add_mod_idemp_l by lia. do 2 f_equal. lia.
      * intros (Hlen & Hm & Hnz & Hend).
        destruct msg as [|b msg].
        { cbn [length] in Hend. change (Z.of_nat 0) with 0 in Hend.
          rewrite Hs0 in Hend. contradiction. }
        cbn [length] in *. rewrite Hshift, Hs0 in Hm. injection Hm as Hb Htl.
        apply Forall_cons in Hnz as [_ Hnz].
        assert (Etl : read_c_string read_byte fuel (wrap32 (str + 1)) = Some msg).
        { apply IH; [exact Hr|]. repeat split; [lia|exact Htl|exact Hnz|].
          rewrite <- Hend. unfold wrap32.
          rewrite Z.add_mod_idemp_l by lia. do 2 f_equal. lia. }
        rewrite Etl. cbn. rewrite <- Hb. reflexivity.
Qed.

End MoreSwiFacts.

Section SwiAndMemory.
Import Memory Swi.

(** X10 (emu_printm and Memory::read agree).  When the bus serves the
    bytes of a region, the value [emu_printm] / [emu_assertm] assemble
    with [little_endian] set is the value [Memory::read] returns for the
    same address and size. *)
Theorem X10_assembled_is_memory_read (read_byte : Z -> Z) m mem_addr size exception :
  constructed m ->
  0 <= size -> 0 <= mem_addr -> mem_addr + size <= mem_size m ->
  out_of_bounds m mem_addr size = false ->
  (forall k, 0 <= k < size ->
     data m !! Z.to_nat (mem_addr + k) = Some (read_byte (wrap32 (mem_addr + k)))) ->
  read m mem_addr exception size
  = Some (assembled read_byte mem_addr size true, exception).
Proof.
  intros Hc Hs Ha Hfit Hguard Hbus.
  rewrite (read_closed_form m mem_addr exception size Hc Hs Ha Hfit Hguard).
  destruct (assembled_shifted read_byte mem_addr size Hs) as (-> & _).
  rewrite shifted_in_be.
  do 4 f_equal.
  destruct Hc as (Hlo & Hhi & Hmax & Hsize & Hlen & _).
  apply list_eq. intros j.
  destruct (decide (j < Z.to_nat size)%nat) as [Hj|Hj].
  - rewrite lookup_stored_bytes by lia.
    rewrite Hbus by lia.
    unfold bus_bytes. rewrite list_lookup_fmap, lookup_seqZ_lt by lia.
    reflexivity.
  - rewrite !lookup_ge_None_2; [reflexivity| |].
    + unfold bus_bytes. rewrite length_fmap, length_seqZ. lia.
    + rewrite length_stored_bytes by lia. lia.
Qed.

End SwiAndMemory.

(** * Byte reversal *)

Section ByteOrderFacts.

Lemma le_bytes_succ (n : nat) value :
  le_bytes (Z.of_nat (S n)) value
  = Z.land value 255 :: le_bytes (Z.of_nat n) (Z.shiftr value 8).
Proof.
  unfold le_bytes. rewrite (seqZ_cons 0) by lia. cbn [fmap list_fmap].
  rewrite Z.mul_0_r, Z.shiftr_0_r. f_equal.
  replace (Z.pred (Z.of_nat (S n))) with (Z.of_nat n) by lia.
  change (Z.succ 0) with (1 + 0).
  rewrite <- (fmap_add_seqZ 1 0), <- list_fmap_compose.
  apply list_fmap_ext. intros i k Hk. cbn.
  apply lookup_seqZ in Hk as [Hk _].
  rewrite Z.shiftr_shiftr by lia. do 2 f_equal. lia.
Qed.

Lemma le_bytes_snoc (n : nat) value :
  le_bytes (Z.of_nat (S n)) value
  = le_bytes (Z.of_nat n) value
    ++ [Z.land (Z.shiftr value (8 * Z.of_nat n)) 255].
Proof.
  unfold le_bytes. replace (Z.of_nat (S n)) with (Z.of_nat n + 1) by lia.
  rewrite seqZ_app by lia. rewrite fmap_app. reflexivity.
Qed.

Lemma le_bytes_range n value : Forall (fun b => 0 <= b < 2 ^ 8) (le_bytes n value).
Proof.
  unfold le_bytes. apply Forall_fmap, Forall_forall. intros k _. cbn.
  apply land_255_range.
Qed.

(** Read least significant byte first, the bytes of [value] give back
    its low [8 n] bits. *)
Lemma le_bytes_value (n : nat) value :
  be_value (reverse (le_bytes (Z.of_nat n) value))
  = value mod 2 ^ (8 * Z.of_nat n).
Proof.
  induction n as [|n IH].
  - cbn. rewrite Z.mod_1_r. reflexivity.
  - rewrite le_bytes_snoc, reverse_app. cbn [reverse rev_append app be_value].
    change (rev_append [?x] []) with [x]. cbn [app be_value].
    rewrite length_reverse, length_le_bytes, Nat2Z.id, IH.
    rewrite land_255, Z.shiftr_div_pow2 by lia.
    replace (8 * Z.of_nat (S n)) with (8 * Z.of_nat n + 8) by lia.
    rewrite (Z.pow_add_r 2 (8 * Z.of_nat n) 8) by lia.
    rewrite Z.rem_mul_r by (try apply Z.pow_nonzero; lia). lia.
Qed.

Lemma be_value_snoc (bs : list Z) b :
  be_value (bs ++ [b]) = be_value bs * 2 ^ 8 + b.
Proof.
  induction bs as [|a bs IH]; cbn [app be_value length]; [cbn; lia|].
  rewrite IH, length_app. cbn [length].
  replace (8 * Z.of_nat (length bs + 1)) with (8 * Z.of_nat (length bs) + 8) by lia.
  rewrite Z.pow_add_r by lia. ring.
Qed.

(** The bytes of a big-endian value, least significant first, are the
    byte sequence reversed. *)
Lemma le_bytes_be_value (bs : list Z) :
  Forall (fun b => 0 <= b < 2 ^ 8) bs ->
  le_bytes (Z.of_nat (length bs)) (be_value bs) = reverse bs.
Proof.
  induction bs as [|b bs IH] using rev_ind; intros Hb; [reflexivity|].
  apply Forall_app in Hb as [Hbs Hb]. apply Forall_cons in Hb as [Hb _].
  rewrite length_app, Nat.add_1_r, le_bytes_succ, be_value_snoc, reverse_app.
  cbn [reverse rev_append app]. f_equal.
  - rewrite land_255. Z.div_mod_to_equations. lia.
  - rewrite <- IH by exact Hbs. f_equal.
    rewrite Z.shiftr_div_pow2 by lia. Z.div_mod_to_equations. lia.
Qed.

End ByteOrderFacts.

Section ByteWriterFacts.
Import ByteWriter.

Lemma reverse_loop_fold (n : nat) : forall this_value v,
  reverse_loop n this_value v
  = fold_left shift_in64 (le_bytes (Z.of_nat n) v) this_value.
Proof.
  induction n as [|n IH]; intros this_value v; [reflexivity|].
  rewrite le_bytes_succ. cbn [reverse_loop fold_left]. apply IH.
Qed.

Lemma fold_shift_in64 (bs : list Z) : forall acc,
  wrap64 (fold_left shift_in64 bs acc)
  = wrap64 (acc * 2 ^ (8 * Z.of_nat (length bs)) + be_value bs).
Proof.
  induction bs as [|b bs IH]; intros acc; cbn [fold_left be_value length].
  - f_equal. cbn. lia.
  - rewrite IH. unfold shift_in64, wrap64.
    rewrite Z.shiftl_mul_pow2 by lia.
    rewrite Z.add_mod_idemp_l by lia.
    rewrite <- (Z.add_mod_idemp_l (_ * _)) by lia.
    rewrite Z.mul_mod_idemp_l by lia.
    rewrite Z.add_mod_idemp_l by lia.
    f_equal.
    replace (8 * Z.of_nat (S (length bs))) with (8 + 8 * Z.of_nat (length bs)) by lia.
    rewrite Z.pow_add_r by lia. ring.
Qed.

Lemma fold_shift_in64_range (bs : list Z) : forall acc,
  bs <> [] -> 0 <= fold_left shift_in64 bs acc < 2 ^ 64.
Proof.
  induction bs as [|b bs IH]; intros acc Hne; [congruence|].
  cbn [fold_left]. destruct bs as [|b' bs].
  - cbn. unfold shift_in64, wrap64. apply Z.mod_pos_bound. lia.
  - apply IH. discriminate.
Qed.

(** X12 (ByteWriter::Data, big-endian form).  With [little_endian] clear
    and 1 to 8 bytes, the stored value is the byte reversal of the low
    [num_bytes] bytes of the argument, placed above it whatever the
    member held before, shifted left by [num_bytes] bytes and cut to 64
    bits; with 8 bytes nothing of the earlier content is left, and
    converting twice gives an argument below 2^64 back. *)
Theorem X12_Data_reverses_bytes indeterminate v n :
  1 <= n <= 8 ->
  value (Data_endian indeterminate v n false)
  = wrap64 (indeterminate * 2 ^ (8 * n) + be_value (le_bytes n v))
  /\ (n = 8 ->
      value (Data_endian indeterminate v n false) = be_value (le_bytes 8 v)
      /\ forall indeterminate',
           0 <= v < 2 ^ 64 ->
           value (Data_endian indeterminate'
                    (value (Data_endian indeterminate v 8 false)) 8 false)
           = v).
Proof.
  intros Hn.
  assert (Hform : forall g x k, 1 <= k <= 8 ->
    value (Data_endian g x k false)
    = wrap64 (g * 2 ^ (8 * k) + be_value (le_bytes k x))).
  { intros g x k Hk. cbn. rewrite reverse_loop_fold, Z2Nat.id by lia.
    rewrite <- (Z.mod_small (fold_left _ _ _) (2 ^ 64)).
    - change (?a mod 2 ^ 64) with (wrap64 a). rewrite fold_shift_in64.
      rewrite length_le_bytes, Z2Nat.id by lia. reflexivity.
    - apply fold_shift_in64_range. intros E.
      apply (f_equal length) in E. rewrite length_le_bytes in E. cbn in E. lia. }
  assert (H8 : forall g x,
    value (Data_endian g x 8 false) = be_value (le_bytes 8 x)).
  { intros g x. rewrite Hform by lia. unfold wrap64.
    pose proof (be_value_range (le_bytes 8 x) (le_bytes_range 8 x)) as Hr.
    rewrite length_le_bytes in Hr. change (8 * Z.of_nat (Z.to_nat 8)) with 64 in Hr.
    change (2 ^ (8 * 8)) with (2 ^ 64).
    rewrite Z.add_comm, Z.mod_add by lia. apply Z.mod_small. exact Hr. }
  split; [apply Hform; exact Hn|].
  intros ->. split; [apply H8|].
  intros g' Hv. rewrite !H8.
  pose proof (le_bytes_be_value (le_bytes 8 v) (le_bytes_range 8 v)) as E.
  rewrite length_le_bytes in E. change (Z.of_nat (Z.to_nat 8)) with 8 in E.
  rewrite E. change 8 with (Z.of_nat 8) at 1.
  rewrite le_bytes_value. apply Z.mod_small. exact Hv.
Qed.

End ByteWriterFacts.

Section WriteThenAssemble.
Import Memory Swi.

(** X11 (what write stores, emu_printm with the flag clear reads back).
    After an in-bounds write of at most four bytes, on a bus that serves
    the bytes of the written region, the value [emu_printm] and
    [emu_assertm] assemble with [little_endian] clear is the written
    value modulo [2^(8 num_bytes)]. *)
Theorem X11_write_then_assemble (read_byte : Z -> Z) m address v exception n :
  constructed m ->
  0 <= n <= 4 -> 0 <= address -> address + n <= mem_size m ->
  out_of_bounds m address n = false ->
  exists r,
    write m address v exception n = Some r
    /\ ((forall k, 0 <= k < n ->
           data (wr_memory r) !! Z.to_nat (address + k)
           = Some (read_byte (wrap32 (address + k)))) ->
        assembled read_byte address n false = v mod 2 ^ (8 * n)).
Proof.
  intros Hc Hn Ha Hfit Hguard.
  destruct (write_in_bounds m address v exception n Hc) as
    (r & Hw & _ & _ & _ & Hbytes & _); try lia; try exact Hguard.
  exists r. split; [exact Hw|]. intros Hbus.
  destruct (assembled_shifted read_byte address n) as (_ & ->); [lia|].
  rewrite shifted_in_be.
  assert (E : bus_bytes read_byte address n = le_bytes n v).
  { apply list_eq. intros j. unfold bus_bytes.
    destruct (decide (j < Z.to_nat n)%nat) as [Hj|Hj].
    - rewrite list_lookup_fmap, lookup_seqZ_lt by lia. cbn.
      rewrite lookup_le_bytes by exact Hj.
      specialize (Hbus (Z.of_nat j) ltac:(lia)).
      rewrite Hbytes in Hbus by lia. symmetry. exact Hbus.
    - rewrite !lookup_ge_None_2; [reflexivity| |].
      + rewrite length_le_bytes. lia.
      + rewrite length_fmap, length_seqZ. lia. }
  rewrite E. rewrite <- (Z2Nat.id n) at 1 by lia.
  rewrite le_bytes_value, Z2Nat.id by lia.
  apply wrap32_small.
  assert (0 < 2 ^ (8 * n)) by (apply Z.pow_pos_nonneg; lia).
  assert (2 ^ (8 * n) <= 2 ^ 32) by (apply Z.pow_le_mono_r; lia).
  pose proof (Z.mod_pos_bound v (2 ^ (8 * n))). lia.
Qed.

End WriteThenAssemble.

Section MoreSwiSamples.
Import Memory Swi Samples MoreSamples.

(** X8, at the two bytes 0x12, 0x34 the bus holds at 0x100. *)
Lemma X8_assembled_values_witness :
  0 <= 2
  /\ assembled bus_12_34 0x100 2 true
     = wrap32 (be_value (bus_bytes bus_12_34 0x100 2))
  /\ assembled bus_12_34 0x100 2 false
     = wrap32 (be_value (reverse (bus_bytes bus_12_34 0x100 2))).
Proof.
  split; [lia|]. apply (X8_assembled_values bus_12_34 0x100 2). lia.
Defined.

(** X9, at the string 0x12, 0x34, NUL the bus holds at 0x100. *)
Lemma X9_read_c_string_spec_witness :
  0 <= 0x100 < 2 ^ 32
  /\ (read_c_string bus_12_34 3 0x100 = Some [0x12; 0x34]
      <-> (length [0x12; 0x34] < 3)%nat
          /\ [0x12; 0x34]
             = bus_bytes bus_12_34 0x100 (Z.of_nat (length [0x12; 0x34]))
          /\ Forall (fun b => b <> 0) [0x12; 0x34]
          /\ bus_12_34 (wrap32 (0x100 + Z.of_nat (length [0x12; 0x34]))) = 0).
Proof.
  split; [lia|].
  apply (X9_read_c_string_spec bus_12_34 3 0x100 [0x12; 0x34]). lia.
Defined.

(** X10, at [read(1, 2)] on a RAM region over [0, 3] holding 0x12, 0x34,
    0x56, 0x78 and the bus that serves it. *)
Lemma X10_assembled_is_memory_read_witness :
  constructed ram_bytes /\ 0 <= 2 /\ 0 <= 1 /\ 1 + 2 <= mem_size ram_bytes
  /\ out_of_bounds ram_bytes 1 2 = false
  /\ (forall k, 0 <= k < 2 ->
        data ram_bytes !! Z.to_nat (1 + k)
        = Some (bus_of ram_bytes (wrap32 (1 + k))))
  /\ read ram_bytes 1 no_read_fault 2
     = Some (assembled (bus_of ram_bytes) 1 2 true, no_read_fault).
Proof.
  assert (Hc : constructed ram_bytes).
  { unfold constructed. cbn. repeat split; try lia; try reflexivity.
    repeat constructor; lia. }
  assert (Hbus : forall k, 0 <= k < 2 ->
            data ram_bytes !! Z.to_nat (1 + k)
            = Some (bus_of ram_bytes (wrap32 (1 + k)))).
  { intros k Hk. assert (Ek : k = 0 \/ k = 1) by lia.
    destruct Ek as [-> | ->]; reflexivity. }
  split; [exact Hc|]. split; [lia|]. split; [lia|]. split; [cbn; lia|].
  split; [reflexivity|]. split; [exact Hbus|].
  apply (X10_assembled_is_memory_read (bus_of ram_bytes) ram_bytes 1 2
           no_read_fault Hc); [lia|lia|cbn; lia|reflexivity|exact Hbus].
Defined.

(** X11, at [write(0, 0x1234, 2)] on the RAM region over [0, 3] and the
    bus that serves the region as written. *)
Lemma X11_write_then_assemble_witness :
  constructed ram4 /\ 0 <= 2 <= 4 /\ 0 <= 0 /\ 0 + 2 <= mem_size ram4
  /\ out_of_bounds ram4 0 2 = false
  /\ exists r,
       write ram4 0 0x1234 no_write_fault 2 = Some r
       /\ ((forall k, 0 <= k < 2 ->
              data (wr_memory r) !! Z.to_nat (0 + k)
              = Some (bus_of (RAM 4 0 3 [0x34; 0x12; 0; 0]) (wrap32 (0 + k)))) ->
           assembled (bus_of (RAM 4 0 3 [0x34; 0x12; 0; 0])) 0 2 false
           = 0x1234 mod 2 ^ (8 * 2)).
Proof.
  assert (Hc : constructed ram4).
  { unfold constructed. cbn. repeat split; try lia; try reflexivity.
    repeat constructor; lia. }
  split; [exact Hc|]. split; [lia|]. split; [lia|]. split; [cbn; lia|].
  split; [reflexivity|].
  apply (X11_write_then_assemble (bus_of (RAM 4 0 3 [0x34; 0x12; 0; 0]))
           ram4 0 0x1234 no_write_fault 2 Hc);
    [lia|lia|cbn; lia|reflexivity].
Defined.

End MoreSwiSamples.

Section ByteWriterSamples.
Import ByteWriter.

(** X12, at eight bytes and a member that held 0xFF. *)
Lemma X12_Data_reverses_bytes_witness :
  1 <= 8 <= 8
  /\ value (Data_endian 0xFF 0x0102030405060708 8 false)
     = wrap64 (0xFF * 2 ^ (8 * 8) + be_value (le_bytes 8 0x0102030405060708))
  /\ (8 = 8 ->
      value (Data_endian 0xFF 0x0102030405060708 8 false)
      = be_value (le_bytes 8 0x0102030405060708)
      /\ forall indeterminate',
           0 <= 0x0102030405060708 < 2 ^ 64 ->
           value (Data_endian indeterminate'
                    (value (Data_endian 0xFF 0x0102030405060708 8 false))
                    8 false)
           = 0x0102030405060708).
Proof.
  split; [lia|].
  apply (X12_Data_reverses_bytes 0xFF 0x0102030405060708 8). lia.
Defined.

End ByteWriterSamples.

(** * String utilities *)

Section StringUtilFacts.
Import StringUtil.

Implicit Types (l t ws : list ascii) (str : string).

Lemma drop_spaces_clean l : clean_front (drop_spaces l).
Proof.
  induction l as [|c l IH]; cbn; [exact I|].
  destruct (isspace c) eqn:E; [exact IH|exact E].
Qed.

Lemma drop_spaces_prefix l :
  exists ws, l = ws ++ drop_spaces l /\ Forall (fun c => isspace c = true) ws.
Proof.
  induction l as [|c l (ws & Hl & Hws)]; cbn [drop_spaces].
  - exists []. split; [reflexivity|constructor].
  - destruct (isspace c) eqn:E.
    + exists (c :: ws). split; [cbn; congruence|constructor; assumption].
    + exists []. split; [reflexivity|constructor].
Qed.

Lemma drop_spaces_app ws t :
  Forall (fun c => isspace c = true) ws -> clean_front t ->
  drop_spaces (ws ++ t) = t.
Proof.
  induction 1 as [|c ws Hc _ IH]; intros Ht; cbn.
  - destruct t as [|c t]; [reflexivity|]. cbn in *. rewrite Ht. reflexivity.
  - rewrite Hc. apply IH. exact Ht.
Qed.

Lemma drop_spaces_all ws :
  Forall (fun c => isspace c = true) ws -> drop_spaces ws = [].
Proof.
  intros H. rewrite <- (app_nil_r ws). apply drop_spaces_app; [exact H|exact I].
Qed.

Lemma clean_front_app t l : t <> [] -> clean_front t -> clean_front (t ++ l).
Proof. destruct t; [congruence|]. intros _ H. exact H. Qed.

Lemma Forall_space_reverse ws :
  Forall (fun c => isspace c = true) ws ->
  Forall (fun c => isspace c = true) (reverse ws).
Proof. intros H. apply Forall_reverse. exact H. Qed.

(** The trimmed form of white space, a part with clean ends, white
    space is that part. *)
Lemma trimString_of_parts str ws1 t ws2 :
  list_ascii_of_string str = ws1 ++ t ++ ws2 ->
  Forall (fun c => isspace c = true) ws1 ->
  Forall (fun c => isspace c = true) ws2 ->
  clean_front t -> clean_front (reverse t) ->
  trimString str = string_of_list_ascii t.
Proof.
  intros Hstr H1 H2 Hf Hb.
  unfold trimString, leftTrim, rightTrim.
  rewrite !list_ascii_of_string_of_list_ascii, Hstr.
  destruct (decide (t = [])) as [->|Hne].
  - cbn [app] in *.
    assert (Hall : Forall (fun c => isspace c = true) (ws1 ++ ws2))
      by (apply Forall_app; auto).
    rewrite (drop_spaces_all (reverse (ws1 ++ ws2)))
      by (apply Forall_space_reverse; exact Hall).
    reflexivity.
  - assert (Hr : reverse t <> []).
    { intros E. apply Hne. rewrite <- (reverse_involutive t), E. reflexivity. }
    f_equal.
    rewrite !reverse_app, <- app_assoc.
    rewrite (drop_spaces_app (reverse ws2))
      by (auto using Forall_space_reverse, clean_front_app).
    rewrite reverse_app, !reverse_involutive.
    apply drop_spaces_app; assumption.
Qed.

(** X13 (what trimming returns).  If a string is white space, then a
    part that neither starts nor ends with white space, then white
    space, both [trimString] and the trims in the other order return
    that part. *)
Theorem X13_trimString_spec str ws1 t ws2 :
  list_ascii_of_string str = ws1 ++ t ++ ws2 ->
  Forall (fun c => isspace c = true) ws1 ->
  Forall (fun c => isspace c = true) ws2 ->
  clean_front t -> clean_front (reverse t) ->
  trimString str = string_of_list_ascii t
  /\ rightTrim (leftTrim str) = string_of_list_ascii t.
Proof.
  intros Hstr H1 H2 Hf Hb.
  split; [exact (trimString_of_parts str ws1 t ws2 Hstr H1 H2 Hf Hb)|].
  unfold leftTrim, rightTrim.
  rewrite !list_ascii_of_string_of_list_ascii, Hstr.
  destruct (decide (t = [])) as [->|Hne].
  - cbn [app] in *.
    assert (Hall : Forall (fun c => isspace c = true) (ws1 ++ ws2))
      by (apply Forall_app; auto).
    rewrite (drop_spaces_all (ws1 ++ ws2)) by exact Hall.
    reflexivity.
  - f_equal.
    rewrite (drop_spaces_app ws1) by (auto using clean_front_app).
    rewrite reverse_app.
    rewrite (drop_spaces_app (reverse ws2))
      by (auto using Forall_space_reverse).
    apply reverse_involutive.
Qed.

(** X14 (every string trims).  Every string splits into white space, its
    trimmed form and white space; the trimmed form neither starts nor
    ends with white space, and trimming it again returns it unchanged. *)
Theorem X14_trimString_decomposition str :
  let t := list_ascii_of_string (trimString str) in
  (exists ws1 ws2,
     list_ascii_of_string str = ws1 ++ t ++ ws2
     /\ Forall (fun c => isspace c = true) ws1
     /\ Forall (fun c => isspace c = true) ws2)
  /\ clean_front t /\ clean_front (reverse t)
  /\ trimString (trimString str) = trimString str.
Proof.
  cbn zeta.
  set (l := list_ascii_of_string str).
  set (r := reverse (drop_spaces (reverse l))).
  assert (Et : trimString str = string_of_list_ascii (drop_spaces r)).
  { unfold trimString, leftTrim, rightTrim.
    rewrite list_ascii_of_string_of_list_ascii. reflexivity. }
  rewrite Et, list_ascii_of_string_of_list_ascii.
  destruct (drop_spaces_prefix (reverse l)) as (ws2r & Hl & Hws2).
  destruct (drop_spaces_prefix r) as (ws1 & Hr & Hws1).
  assert (Hdec : l = ws1 ++ drop_spaces r ++ reverse ws2r).
  { rewrite <- (reverse_involutive l), Hl, reverse_app.
    fold r. rewrite Hr at 1. rewrite <- app_assoc. reflexivity. }
  assert (Hfront : clean_front (drop_spaces r)) by apply drop_spaces_clean.
  assert (Hback : clean_front (reverse (drop_spaces r))).
  { pose proof (drop_spaces_clean (reverse l)) as Hc.
    assert (E : drop_spaces (reverse l) = reverse (drop_spaces r) ++ reverse ws1).
    { rewrite <- reverse_app, <- Hr. unfold r. rewrite reverse_involutive.
      reflexivity. }
    rewrite E in Hc.
    destruct (reverse (drop_spaces r)) as [|c rest]; [exact I|exact Hc]. }
  split; [|split; [exact Hfront|split; [exact Hback|]]].
  - exists ws1, (reverse ws2r). split; [exact Hdec|].
    split; [exact Hws1|]. apply Forall_space_reverse. exact Hws2.
  - refine (trimString_of_parts _ [] (drop_spaces r) [] _ _ _ Hfront Hback).
    + rewrite list_ascii_of_string_of_list_ascii, app_nil_r. reflexivity.
    + constructor.
    + constructor.
Qed.

End StringUtilFacts.

Section StringUtilSamples.
Import StringUtil.

(** X13, at the string "  a b" followed by a tab. *)
Lemma X13_trimString_spec_witness :
  list_ascii_of_string (String " " (String " " (String "a" (String " "
    (String "b" (String "009" EmptyString))))))
  = [" "; " "]%char ++ ["a"; " "; "b"]%char ++ ["009"]%char
  /\ Forall (fun c => isspace c = true) [" "; " "]%char
  /\ Forall (fun c => isspace c = true) ["009"]%char
  /\ clean_front ["a"; " "; "b"]%char
  /\ clean_front (reverse ["a"; " "; "b"]%char)
  /\ trimString (String " " (String " " (String "a" (String " "
        (String "b" (String "009" EmptyString))))))
     = string_of_list_ascii ["a"; " "; "b"]%char
  /\ rightTrim (leftTrim (String " " (String " " (String "a" (String " "
        (String "b" (String "009" EmptyString)))))))
     = string_of_list_ascii ["a"; " "; "b"]%char.
Proof.
  assert (H1 : Forall (fun c => isspace c = true) [" "; " "]%char)
    by (repeat constructor).
  assert (H2 : Forall (fun c => isspace c = true) ["009"]%char)
    by (repeat constructor).
  split; [reflexivity|]. split; [exact H1|]. split; [exact H2|].
  split; [reflexivity|]. split; [reflexivity|].
  apply (X13_trimString_spec _ [" "; " "]%char ["a"; " "; "b"]%char ["009"]%char);
    [reflexivity|exact H1|exact H2|reflexivity|reflexivity].
Defined.

End StringUtilSamples.

(** * string_util::format *)

Section FormatFacts.
Import Preprocessor.
Local Open Scope string_scope.

Implicit Types (s pre mid post oss str v : string) (c : ascii).

Lemma string_app_cons c s1 s2 : String c s1 ++ s2 = String c (s1 ++ s2).
Proof. reflexivity. Qed.

Lemma string_app_assoc s1 s2 s3 : (s1 ++ s2) ++ s3 = s1 ++ (s2 ++ s3).
Proof.
  induction s1 as [|a s1 IH]; [reflexivity|].
  rewrite !string_app_cons. f_equal. exact IH.
Qed.

Lemma string_app_nil_r s : s ++ EmptyString = s.
Proof.
  induction s as [|a s IH]; [reflexivity|].
  rewrite string_app_cons. f_equal. exact IH.
Qed.

(** [split_at] finds the first occurrence. *)
Lemma split_at_first c pre rest :
  c ∉ list_ascii_of_string pre ->
  split_at c (pre ++ String c rest) = Some (pre, rest).
Proof.
  induction pre as [|a pre IH]; intros Hc.
  - change (EmptyString ++ String c rest) with (String c rest).
    cbn [split_at]. rewrite bool_decide_eq_true_2 by reflexivity. reflexivity.
  - rewrite string_app_cons. cbn [split_at list_ascii_of_string] in *.
    apply not_elem_of_cons in Hc as [Hne Hc].
    rewrite bool_decide_eq_false_2 by congruence.
    rewrite IH by exact Hc. reflexivity.
Qed.

Lemma split_at_absent c s :
  c ∉ list_ascii_of_string s -> split_at c s = None.
Proof.
  induction s as [|a s IH]; simpl; intros Hc; [reflexivity|].
  apply not_elem_of_cons in Hc as [Hne Hc].
  rewrite bool_decide_eq_false_2 by congruence.
  rewrite IH by exact Hc. reflexivity.
Qed.

Lemma format_helper_subst oss pre mid post v :
  "{"%char ∉ list_ascii_of_string pre ->
  "}"%char ∉ list_ascii_of_string mid ->
  format_helper oss (pre ++ "{" ++ mid ++ "}" ++ post) v
  = (oss ++ pre ++ v, post).
Proof.
  intros Hpre Hmid. unfold format_helper.
  change ("{" ++ mid ++ "}" ++ post) with (String "{" (mid ++ String "}" post)).
  rewrite split_at_first by exact Hpre.
  rewrite split_at_first by exact Hmid. reflexivity.
Qed.

Lemma format_fold_prefix (args : list string) : forall oss str,
  fold_left (fun acc value => format_helper acc.1 acc.2 value) args (oss, str)
  = (oss ++ (fold_left (fun acc value => format_helper acc.1 acc.2 value) args
               (EmptyString, str)).1,
     (fold_left (fun acc value => format_helper acc.1 acc.2 value) args
        (EmptyString, str)).2).
Proof.
  induction args as [|v args IH]; intros oss str; cbn [fold_left fst snd].
  - rewrite string_app_nil_r. reflexivity.
  - assert (H : format_helper oss str v
                = (oss ++ (format_helper EmptyString str v).1,
                   (format_helper EmptyString str v).2)).
    { unfold format_helper.
      destruct (split_at "{" str) as [[before after]|]; cbn;
        [|rewrite string_app_nil_r; reflexivity].
      destruct (split_at "}" after) as [[x rest]|]; cbn;
        [reflexivity|rewrite string_app_nil_r; reflexivity]. }
    rewrite H, IH.
    destruct (format_helper EmptyString str v) as [o r] eqn:E. cbn [fst snd].
    rewrite (IH o r). cbn [fst snd]. rewrite string_app_assoc. reflexivity.
Qed.

(** X15 (format, one placeholder at a time).  The first argument replaces
    the first brace pair of the format string together with whatever the
    braces enclose, and the remaining arguments are formatted into what
    follows the pair. *)
Theorem X15_format_substitutes pre mid post v (args : list string) :
  "{"%char ∉ list_ascii_of_string pre ->
  "}"%char ∉ list_ascii_of_string mid ->
  format (pre ++ "{" ++ mid ++ "}" ++ post) (v :: args)
  = pre ++ v ++ format post args.
Proof.
  intros Hpre Hmid. unfold format at 1. cbn [fold_left fst snd].
  rewrite format_helper_subst by assumption.
  rewrite format_fold_prefix. unfold format.
  destruct (fold_left _ args (EmptyString, post)) as [o r]. cbn [fst snd].
  rewrite !string_app_assoc. reflexivity.
Qed.

(** X16 (format, nothing to replace).  A format string without an opening
    brace, or without a closing brace after its first opening brace, is
    returned unchanged whatever the arguments. *)
Theorem X16_format_without_placeholder str (args : list string) :
  ("{"%char ∉ list_ascii_of_string str)
  \/ (exists pre rest, str = pre ++ String "{" rest
        /\ ("{"%char ∉ list_ascii_of_string pre)
        /\ ("}"%char ∉ list_ascii_of_string rest)) ->
  format str args = str.
Proof.
  intros H.
  assert (Hh : forall oss v, format_helper oss str v = (oss, str)).
  { intros oss v. unfold format_helper. destruct H as [H|(pre & rest & -> & Hp & Hr)].
    - rewrite split_at_absent by exact H. reflexivity.
    - rewrite split_at_first by exact Hp.
      rewrite split_at_absent by exact Hr. reflexivity. }
  unfold format.
  assert (Hf : forall oss,
    fold_left (fun acc value => format_helper acc.1 acc.2 value) args (oss, str)
    = (oss, str)).
  { induction args as [|v args IH]; intros oss; cbn [fold_left fst snd];
      [reflexivity|]. rewrite Hh. apply IH. }
  rewrite Hf. reflexivity.
Qed.

End FormatFacts.

Section FormatSamples.
Import Preprocessor.
Local Open Scope string_scope.

(** X15, at the format string "a{0}b{}" and the arguments "X", "Y". *)
Lemma X15_format_substitutes_witness :
  ("{"%char ∉ list_ascii_of_string "a")
  /\ ("}"%char ∉ list_ascii_of_string "0")
  /\ format ("a" ++ "{" ++ "0" ++ "}" ++ "b{}") ["X"; "Y"]
     = "a" ++ "X" ++ format "b{}" ["Y"].
Proof.
  assert (H1 : "{"%char ∉ list_ascii_of_string "a").
  { apply not_elem_of_cons. split; [discriminate|apply not_elem_of_nil]. }
  assert (H2 : "}"%char ∉ list_ascii_of_string "0").
  { apply not_elem_of_cons. split; [discriminate|apply not_elem_of_nil]. }
  split; [exact H1|]. split; [exact H2|].
  exact (X15_format_substitutes "a" "0" "b{}" "X" ["Y"] H1 H2).
Defined.

(** X16, at a format string whose brace is never closed. *)
Lemma X16_format_without_placeholder_witness :
  (("{"%char ∉ list_ascii_of_string "a{b")
   \/ (exists pre rest, "a{b" = pre ++ String "{" rest
         /\ ("{"%char ∉ list_ascii_of_string pre)
         /\ ("}"%char ∉ list_ascii_of_string rest)))
  /\ format "a{b" ["X"] = "a{b".
Proof.
  assert (H : ("{"%char ∉ list_ascii_of_string "a{b")
              \/ (exists pre rest, "a{b" = pre ++ String "{" rest
                    /\ ("{"%char ∉ list_ascii_of_string pre)
                    /\ ("}"%char ∉ list_ascii_of_string rest))).
  { right. exists "a", "b". split; [reflexivity|].
    split; (apply not_elem_of_cons; split; [discriminate|apply not_elem_of_nil]). }
  split; [exact H|].
  exact (X16_format_without_placeholder "a{b" ["X"] H).
Defined.

End FormatSamples.

(** * Token names *)

Section TokenNameFacts.
Import Tokenizer.

Variable to_string : ascii -> string.

(** X17 (toString).  [Token::toString] returns a string for every token
    except those of kind WHITESPACE, for which [TYPE_TO_NAME_MAP] has no
    entry and [at] throws. *)
Theorem X17_toString_fails_on_WHITESPACE_only (t : Token) :
  toString to_string t = None <-> type t = WHITESPACE.
Proof.
  destruct t as [ty v]. cbn [type].
  destruct ty; cbn; split; intros H; solve [reflexivity | discriminate H].
Qed.

End TokenNameFacts.

(** * Further properties of the preprocessor *)

Section MorePreprocessorFacts.
Import Tokenizer Preprocessor.
Local Open Scope string_scope.
Local Open Scope nat_scope.

Variable tokenize : string -> list Token.
Variable VARIABLE_TYPE_TO_NAME_MAP : TokenType -> string.
Variable default_errorMsg : string.

Implicit Types (st : State) (rest ts : list Token) (t : Token).

(** ** Cursor helpers *)

Lemma skip_count_spec (matches : string -> bool) rest :
  skip_count matches rest <= length rest
  /\ Forall (fun t => matches (value t) = true)
            (take (skip_count matches rest) rest)
  /\ (forall t, rest !! skip_count matches rest = Some t ->
        matches (value t) = false).
Proof.
  induction rest as [|t rest (IH1 & IH2 & IH3)]; cbn [skip_count].
  - split; [cbn; lia|]. split; [constructor|]. intros t H. discriminate H.
  - destruct (matches (value t)) eqn:E; cbn [length take].
    + split; [lia|]. split; [constructor; assumption|exact IH3].
    + split; [lia|]. split; [constructor|].
      intros t' H. injection H as <-. exact E.
Qed.

Lemma skipTokens_le st tokenI (matches : string -> bool) :
  tokenI <= skipTokens st tokenI matches.
Proof. unfold skipTokens. lia. Qed.

(** X18 (skipTokens).  The cursor never moves back and never passes the
    end of the stream; every token it passes matches, and the token it
    stops on, if there is one, does not. *)
Theorem X18_skipTokens_spec st tokenI (matches : string -> bool) :
  let c := skipTokens st tokenI matches in
  tokenI <= c <= max tokenI (length (m_tokens st))
  /\ (forall j, tokenI <= j < c ->
        exists t, m_tokens st !! j = Some t /\ matches (value t) = true)
  /\ (forall t, m_tokens st !! c = Some t -> matches (value t) = false).
Proof.
  cbn zeta. unfold skipTokens.
  destruct (skip_count_spec matches (drop tokenI (m_tokens st))) as (H1 & H2 & H3).
  rewrite length_drop in H1.
  split; [lia|]. split.
  - intros j Hj.
    rewrite Forall_lookup in H2.
    destruct (lookup_lt_is_Some_2 (drop tokenI (m_tokens st)) (j - tokenI))
      as [t Ht]; [rewrite length_drop; lia|].
    exists t. split.
    + rewrite lookup_drop in Ht. rewrite <- Ht. f_equal. lia.
    + apply (H2 (j - tokenI) t). rewrite lookup_take_lt by lia. exact Ht.
  - intros t Ht. apply H3. rewrite lookup_drop. exact Ht.
Qed.

Lemma take_until_ok stop msg rest ts :
  take_until stop msg rest = Ok ts
  <-> exists t rest', rest = (ts ++ t :: rest')%list
                      /\ Forall (fun t => type_in (type t) stop = false) ts
                      /\ type_in (type t) stop = true.
Proof.
  revert ts. induction rest as [|t rest IH]; intros ts; cbn [take_until].
  - split; [discriminate|]. intros (t & r & H & _). destruct ts; discriminate H.
  - destruct (type_in (type t) stop) eqn:E.
    + split.
      * intros H. injection H as <-. exists t, rest. repeat split; auto.
      * intros (t' & r & H & Hts & Ht'). destruct ts as [|t0 ts]; [reflexivity|].
        injection H as -> _. apply Forall_cons in Hts as [Hts _]. congruence.
    + split.
      * intros H. apply bind_ok in H as (ts' & H1 & H2). injection H2 as <-.
        apply IH in H1 as (t' & r & -> & Hts & Ht').
        exists t', r. repeat split; auto.
      * intros (t' & r & H & Hts & Ht'). destruct ts as [|t0 ts].
        { injection H as -> _. congruence. }
        injection H as -> H. apply Forall_cons in Hts as [_ Hts].
        assert (H1 : take_until stop msg rest = Ok ts)
          by (apply IH; exists t', r; auto).
        rewrite H1. reflexivity.
Qed.

Lemma take_until_no_stop stop msg rest :
  Forall (fun t => type_in (type t) stop = false) rest ->
  take_until stop msg rest = Fatal msg.
Proof.
  induction 1 as [|t rest Ht _ IH]; cbn [take_until]; [reflexivity|].
  rewrite Ht, IH. reflexivity.
Qed.

Lemma take_until_fatal stop msg rest m :
  take_until stop msg rest = Fatal m
  <-> m = msg /\ Forall (fun t => type_in (type t) stop = false) rest.
Proof.
  split; [|intros (-> & H); apply take_until_no_stop; exact H].
  induction rest as [|t rest IH]; cbn [take_until]; intros H.
  - injection H as <-. split; [reflexivity|constructor].
  - destruct (type_in (type t) stop) eqn:E; [discriminate|].
    destruct (take_until stop msg rest) as [ts|m'] eqn:Et; cbn in H;
      [discriminate|].
    injection H as <-. destruct (IH eq_refl) as (-> & Hr).
    split; [reflexivity|constructor; assumption].
Qed.

(** Where a collecting loop that returns has stopped. *)
Lemma consume_until_cursor st tokenI stop msg ts c :
  consume_until st tokenI stop msg = Ok (ts, c) ->
  c = tokenI + length ts
  /\ take (length ts) (drop tokenI (m_tokens st)) = ts
  /\ Forall (fun t => type_in (type t) stop = false) ts
  /\ exists t, m_tokens st !! c = Some t /\ type_in (type t) stop = true.
Proof.
  unfold consume_until. intros H.
  apply bind_ok in H as (ts' & H1 & H2). injection H2 as <- <-.
  apply take_until_ok in H1 as (t & r & Hr & Hts & Ht).
  split; [reflexivity|]. split; [|split; [exact Hts|]].
  - rewrite Hr, take_app_length. reflexivity.
  - exists t. split; [|exact Ht].
    rewrite <- lookup_drop, Hr.
    rewrite lookup_app_r by lia. rewrite Nat.sub_diag. reflexivity.
Qed.

(** X19 (collecting up to a stop token).  The collecting loop of
    [#define], [#macret] and [#invoke] returns the tokens from the cursor
    up to the first token of a stop kind and leaves the cursor on that
    token; it ends in the diagnostic exactly when no token of a stop
    kind is left. *)
Theorem X19_consume_until_spec st tokenI stop msg :
  (forall ts c,
     consume_until st tokenI stop msg = Ok (ts, c)
     <-> c = tokenI + length ts
         /\ take (length ts) (drop tokenI (m_tokens st)) = ts
         /\ Forall (fun t => type_in (type t) stop = false) ts
         /\ exists t, m_tokens st !! c = Some t /\ type_in (type t) stop = true)
  /\ (forall m,
        consume_until st tokenI stop msg = Fatal m
        <-> m = msg
            /\ Forall (fun t => type_in (type t) stop = false)
                      (drop tokenI (m_tokens st))).
Proof.
  split.
  - intros ts c. split; [apply consume_until_cursor|].
    unfold consume_until.
    intros (-> & Htake & Hts & t & Ht & Hstop).
    assert (H1 : take_until stop msg (drop tokenI (m_tokens st)) = Ok ts).
    { apply take_until_ok. exists t, (drop (S (tokenI + length ts)) (m_tokens st)).
      repeat split; auto.
      rewrite <- (take_drop (length ts) (drop tokenI (m_tokens st))) at 1.
      rewrite Htake. f_equal. rewrite drop_drop.
      apply drop_S in Ht. exact Ht. }
    rewrite H1. reflexivity.
  - intros m. unfold consume_until.
    destruct (take_until stop msg (drop tokenI (m_tokens st))) as [ts|m'] eqn:E; cbn.
    + split; [discriminate|]. intros (_ & H).
      rewrite (take_until_no_stop _ _ _ H) in E. discriminate E.
    + apply take_until_fatal in E as (-> & H).
      split; [intros H'; injection H' as <-; auto|]. intros (-> & _). reflexivity.
Qed.

(** ** #define and #undef *)

Lemma consume_expecting_ok st tokenI expected msg t c :
  consume_expecting st tokenI expected msg = Ok (t, c) ->
  m_tokens st !! tokenI = Some t /\ type_in (type t) expected = true
  /\ c = S tokenI.
Proof.
  unfold consume_expecting. intros H.
  destruct (m_tokens st !! tokenI) as [t'|]; [|discriminate].
  destruct (type_in (type t') expected) eqn:E; [|discriminate].
  injection H as <- <-. auto.
Qed.

Lemma type_in_singleton (a b : TokenType) : type_in a [b] = true -> a = b.
Proof.
  unfold type_in. intros H. apply bool_decide_eq_true_1 in H.
  apply list_elem_of_singleton in H. exact H.
Qed.

(** X20 (#define, what a successful one does).  A [#define] that
    returns leaves the stream, the invocation stack and the output as
    they were.  The symbol it names is the SYMBOL token after the blanks
    that follow the directive, and the cursor rests on the first newline
    token at or after the end of the blanks that follow the symbol: no
    token between is a newline.  Every other symbol keeps its binding;
    the named one keeps the binding it had, and is bound to the tokens
    between those blanks and that newline if it had none. *)
Theorem X20_define_returns st tokenI st' c :
  _define default_errorMsg st tokenI = Ok (st', c) ->
  let symbolI := skipTokens st (S tokenI) blank in
  let valueI := skipTokens st (S symbolI) blank in
  m_tokens st' = m_tokens st
  /\ m_macroStack st' = m_macroStack st /\ m_writer st' = m_writer st
  /\ exists symbol newline_token,
       m_tokens st !! symbolI = Some symbol /\ type symbol = SYMBOL
       /\ valueI <= c
       /\ m_tokens st !! c = Some newline_token
       /\ type newline_token = WHITESPACE_NEWLINE
       /\ (forall j t, valueI <= j < c -> m_tokens st !! j = Some t ->
             type t <> WHITESPACE_NEWLINE)
       /\ (forall s, s <> value symbol ->
             m_symbols st' !! s = m_symbols st !! s)
       /\ (m_symbols st !! value symbol = None ->
           m_symbols st' !! value symbol
           = Some (take (c - valueI) (drop valueI (m_tokens st))))
       /\ (forall old, m_symbols st !! value symbol = Some old ->
             m_symbols st' !! value symbol = Some old).
Proof.
  unfold _define. intros H. cbn zeta.
  apply bind_ok in H as ([t1 i1] & Hc & H).
  unfold consume in Hc. destruct (m_tokens st !! tokenI) as [t0|]; [|discriminate].
  injection Hc as _ <-.
  remember (skipTokens st (S tokenI) blank) as symbolI eqn:HsymbolI.
  apply bind_ok in H as ([symbol i2] & Hs & H).
  apply consume_expecting_ok in Hs as (Hs & Hty & ->).
  apply type_in_singleton in Hty.
  remember (skipTokens st (S symbolI) blank) as valueI eqn:HvalueI.
  apply bind_ok in H as ([tokens i3] & Hu & H).
  apply consume_until_cursor in Hu as (-> & Htake & Hts & nl & Hnl & Hstop).
  apply type_in_singleton in Hstop.
  injection H as <- <-. cbn [m_tokens m_macroStack m_writer m_symbols set_symbols].
  split; [reflexivity|]. split; [reflexivity|]. split; [reflexivity|].
  exists symbol, nl.
  split; [exact Hs|]. split; [exact Hty|]. split; [lia|].
  split; [exact Hnl|]. split; [exact Hstop|]. split; [|split; [|split]].
  - intros j t Hj Ht Hnewline.
    rewrite Forall_lookup in Hts.
    assert (Hjt : tokens !! (j - valueI) = Some t).
    { rewrite <- Htake. rewrite lookup_take_lt by lia.
      rewrite lookup_drop. rewrite <- Ht. f_equal. lia. }
    specialize (Hts _ _ Hjt). unfold type_in in Hts.
    apply bool_decide_eq_false_1 in Hts. apply Hts.
    rewrite Hnewline. apply list_elem_of_singleton. reflexivity.
  - intros s Hne. unfold std_map_insert.
    destruct (m_symbols st !! value symbol); [reflexivity|].
    apply lookup_insert_ne. congruence.
  - intros Hnone. unfold std_map_insert. rewrite Hnone.
    rewrite lookup_insert_eq. f_equal.
    replace (valueI + length tokens - valueI) with (length tokens) by lia.
    symmetry. exact Htake.
  - intros old Hold. unfold std_map_insert. rewrite Hold. exact Hold.
Qed.

(** X21 (#define without a newline).  When no newline token follows
    the directive, [#define] never returns: it ends in a diagnostic. *)
Theorem X21_define_needs_newline st tokenI :
  Forall (fun t => type t <> WHITESPACE_NEWLINE) (drop (S tokenI) (m_tokens st)) ->
  exists msg, _define default_errorMsg st tokenI = Fatal msg.
Proof.
  intros Hno.
  destruct (_define default_errorMsg st tokenI) as [[st' c]|msg] eqn:E;
    [|exists msg; reflexivity].
  exfalso. unfold _define in E.
  apply bind_ok in E as ([t1 i1] & Hc & E).
  unfold consume in Hc. destruct (m_tokens st !! tokenI) as [t0|]; [|discriminate].
  injection Hc as _ <-.
  pose proof (skipTokens_le st (S tokenI) blank) as H1.
  remember (skipTokens st (S tokenI) blank) as symbolI eqn:HsymbolI.
  apply bind_ok in E as ([symbol i2] & Hs & E).
  apply consume_expecting_ok in Hs as (_ & _ & ->).
  pose proof (skipTokens_le st (S symbolI) blank) as H2.
  remember (skipTokens st (S symbolI) blank) as valueI eqn:HvalueI.
  apply bind_ok in E as ([tokens i3] & Hu & _).
  apply consume_until_cursor in Hu as (-> & _ & _ & nl & Hnl & Hstop).
  apply type_in_singleton in Hstop.
  rewrite Forall_lookup in Hno.
  apply (Hno (valueI + length tokens - S tokenI) nl); [|exact Hstop].
  rewrite lookup_drop. rewrite <- Hnl. f_equal. lia.
Qed.

(** X22 (#undef).  An [#undef] that returns removes the binding of the
    symbol it names, and nothing else: the other symbols, the stream,
    the stack and the output are as before.  Naming an unbound symbol
    leaves the whole state unchanged. *)
Theorem X22_undefine_returns st tokenI st' c :
  _undefine default_errorMsg st tokenI = Ok (st', c) ->
  let symbolI := skipTokens st (S tokenI) blank in
  m_tokens st' = m_tokens st
  /\ m_macroStack st' = m_macroStack st /\ m_writer st' = m_writer st
  /\ c = skipTokens st (S symbolI) blank
  /\ exists symbol,
       m_tokens st !! symbolI = Some symbol /\ type symbol = SYMBOL
       /\ m_symbols st' !! value symbol = None
       /\ (forall s, s <> value symbol ->
             m_symbols st' !! s = m_symbols st !! s)
       /\ (m_symbols st !! value symbol = None -> st' = st).
Proof.
  unfold _undefine. intros H. cbn zeta.
  apply bind_ok in H as ([t1 i1] & Hc & H).
  unfold consume in Hc. destruct (m_tokens st !! tokenI) as [t0|]; [|discriminate].
  injection Hc as _ <-.
  remember (skipTokens st (S tokenI) blank) as symbolI eqn:HsymbolI.
  apply bind_ok in H as ([symbol i2] & Hs & H).
  apply consume_expecting_ok in Hs as (Hs & Hty & ->).
  apply type_in_singleton in Hty.
  remember (skipTokens st (S symbolI) blank) as valueI eqn:HvalueI.
  injection H as <- <-. cbn [m_tokens m_macroStack m_writer m_symbols set_symbols].
  split; [reflexivity|]. split; [reflexivity|]. split; [reflexivity|].
  split; [reflexivity|].
  exists symbol. split; [exact Hs|]. split; [exact Hty|].
  split; [apply lookup_delete_eq|]. split.
  - intros s Hne. apply lookup_delete_ne. congruence.
  - intros Hnone. unfold set_symbols. rewrite delete_id by exact Hnone.
    destruct st; reflexivity.
Qed.

(** ** Conditional blocks, condition met *)

Lemma level_after_cons level t rest :
  level_after level (t :: rest) = level_after (level_step level t) rest.
Proof. reflexivity. Qed.

Lemma at_level_0_head (level : Z) t rest kinds :
  at_level_0 level (t :: rest) kinds 0
  <-> (level =? 0)%Z && type_in (type t) kinds = true.
Proof.
  unfold at_level_0. cbn. rewrite andb_true_iff, Z.eqb_eq. split.
  - intros (t' & Ht & Hk & Hl). injection Ht as <-. auto.
  - intros (Hl & Hk). exists t. auto.
Qed.

Lemma at_level_0_tail (level : Z) t rest kinds (k : nat) :
  at_level_0 level (t :: rest) kinds (S k)
  <-> at_level_0 (level_step level t) rest kinds k.
Proof. unfold at_level_0. cbn [lookup list_lookup take]. reflexivity. Qed.

(** The scan with the condition met: it stops at the first [#endif] at
    level 0, or at the end of the stream, and on its way records the
    first chained alternate at level 0 unless one was recorded before. *)
Lemma conditional_scan_met rest : forall (cur level nb : Z),
  (0 <= cur)%Z ->
  let '(nb', ei') := conditional_scan true rest cur level nb (-1) in
  exists scanned : nat,
    (forall j, j < scanned -> ~ at_level_0 level rest [PREPROCESSOR_ENDIF] j)
    /\ ((ei' = -1 /\ scanned = length rest)%Z
        \/ (ei' = (cur + Z.of_nat scanned)%Z
            /\ at_level_0 level rest [PREPROCESSOR_ENDIF] scanned))
    /\ (nb <> (-1)%Z -> nb' = nb)
    /\ (nb = (-1)%Z ->
        (nb' = (-1)%Z
         /\ forall j, j < scanned -> ~ at_level_0 level rest ELSE_KINDS j)
        \/ (exists j, j < scanned /\ nb' = (cur + Z.of_nat j)%Z
                      /\ first_at_level_0 level rest ELSE_KINDS j)).
Proof.
  induction rest as [|t rest IH]; intros cur level nb Hcur;
    cbn [conditional_scan].
  - exists 0. split; [intros j Hj; lia|]. split; [left; split; reflexivity|].
    split; [auto|]. intros ->. left. split; [reflexivity|]. intros j Hj. lia.
  - destruct ((level =? 0)%Z && type_in (type t) [PREPROCESSOR_ENDIF]) eqn:Eend.
    + exists 0. split; [intros j Hj; lia|]. split.
      { right. split; [lia|]. apply at_level_0_head. exact Eend. }
      split; [auto|]. intros ->. left. split; [|intros j Hj; lia].
      reflexivity.
    + cbn [negb andb]. rewrite andb_false_r.
      destruct ((level =? 0)%Z && type_in (type t) ELSE_KINDS) eqn:Eelse;
        cbn [andb].
      * (* a chained alternate at level 0 *)
        specialize (IH (cur + 1)%Z (level_step level t)
                      (if (nb =? -1)%Z then cur else nb) ltac:(lia)).
        fold (level_step level t).
        destruct (conditional_scan true rest (cur + 1) (level_step level t)
                    (if (nb =? -1)%Z then cur else nb) (-1)) as [nb' ei'].
        destruct IH as (k & Hno & Hend & Hkeep & _).
        exists (S k). split; [|split; [|split]].
        -- intros [|j] Hj; [rewrite at_level_0_head, Eend; discriminate|].
           rewrite at_level_0_tail. apply Hno. lia.
        -- destruct Hend as [(-> & ->)|(-> & Hat)].
           ++ left. split; reflexivity.
           ++ right. split; [lia|]. apply at_level_0_tail. exact Hat.
        -- intros Hnb. apply Z.eqb_neq in Hnb. rewrite Hnb in Hkeep.
           apply Hkeep. apply Z.eqb_neq. exact Hnb.
        -- intros ->. cbn in Hkeep. right. exists 0.
           split; [lia|]. split; [rewrite Hkeep by lia; lia|].
           split; [apply at_level_0_head; exact Eelse|]. intros j Hj. lia.
      * (* any other token *)
        specialize (IH (cur + 1)%Z (level_step level t) nb ltac:(lia)).
        fold (level_step level t).
        destruct (conditional_scan true rest (cur + 1) (level_step level t)
                    nb (-1)) as [nb' ei'].
        destruct IH as (k & Hno & Hend & Hkeep & Hfind).
        exists (S k). split; [|split; [|split]].
        -- intros [|j] Hj; [rewrite at_level_0_head, Eend; discriminate|].
           rewrite at_level_0_tail. apply Hno. lia.
        -- destruct Hend as [(-> & ->)|(-> & Hat)].
           ++ left. split; reflexivity.
           ++ right. split; [lia|]. apply at_level_0_tail. exact Hat.
        -- exact Hkeep.
        -- intros Hnb. destruct (Hfind Hnb) as [(-> & Hnone)|(j & Hj & -> & Hat & Hfirst)].
           ++ left. split; [reflexivity|].
              intros [|j] Hj; [rewrite at_level_0_head, Eelse; discriminate|].
              rewrite at_level_0_tail. apply Hnone. lia.
           ++ right. exists (S j). split; [lia|]. split; [lia|]. split.
              ** apply at_level_0_tail. exact Hat.
              ** intros [|i] Hi; [rewrite at_level_0_head, Eelse; discriminate|].
                 rewrite at_level_0_tail. apply Hfirst. lia.
Qed.

(** X23 (a taken conditional block).  When the resolver returns with
    the condition met, the cursor has not moved and only the stream has
    changed.  Counting from the cursor, let [endIf] be the first
    [#endif] at level 0, the one that closes the block and none nested
    in it, and [nextBlock] the first chained alternate at level 0 before
    it, or [endIf] itself when there is none.  A comment token stands at
    the cursor, followed by the tokens of the block up to [nextBlock],
    followed by the stream from [endIf] on. *)
Theorem X23_conditionalBlock_met st tokenI st' c :
  conditionalBlock true st tokenI = Ok (st', c) ->
  let rest := drop tokenI (m_tokens st) in
  c = tokenI
  /\ m_symbols st' = m_symbols st
  /\ m_macroStack st' = m_macroStack st /\ m_writer st' = m_writer st
  /\ exists (nextBlock endIf : nat),
       first_at_level_0 0 rest [PREPROCESSOR_ENDIF] endIf
       /\ ((nextBlock < endIf /\ first_at_level_0 0 rest ELSE_KINDS nextBlock)
           \/ (nextBlock = endIf
               /\ forall j, j < endIf -> ~ at_level_0 0 rest ELSE_KINDS j))
       /\ m_tokens st'
          = (take tokenI (m_tokens st)
             ++ mkToken COMMENT_SINGLE_LINE "; conditional"
             :: take nextBlock rest
             ++ drop endIf rest)%list.
Proof.
  unfold conditionalBlock. intros H. cbn zeta.
  pose proof (conditional_scan_met (drop tokenI (m_tokens st))
                (Z.of_nat tokenI) 0 (-1) ltac:(lia)) as Hs.
  destruct (conditional_scan true _ _ _ _ _) as [nb ei].
  destruct Hs as (k & Hno & Hend & _ & Hfind).
  specialize (Hfind eq_refl).
  cbn [andb negb orb] in H. rewrite orb_false_r in H.
  destruct (ei =? -1)%Z eqn:Eei; [discriminate|].
  apply Z.eqb_neq in Eei.
  destruct Hend as [(-> & _)|(-> & Hat)]; [congruence|].
  assert (Hlen : tokenI + k < length (m_tokens st)).
  { destruct Hat as (te & Hk & _). rewrite lookup_drop in Hk.
    apply lookup_lt_is_Some. eauto. }
  injection H as <- <-.
  split; [reflexivity|]. cbn [m_symbols m_macroStack m_writer m_tokens set_tokens].
  split; [reflexivity|]. split; [reflexivity|]. split; [reflexivity|].
  destruct Hfind as [(-> & Hnone)|(j & Hj & -> & Hfirst)].
  - exists k, k. split; [split; assumption|]. split; [right; auto|].
    rewrite Z.eqb_refl. cbn [negb]. unfold vector_insert. cbn [app].
    do 2 f_equal. symmetry. apply take_drop.
  - exists j, k. split; [split; assumption|]. split; [left; auto|].
    replace (Z.of_nat tokenI + Z.of_nat j =? -1)%Z with false
      by (symmetry; apply Z.eqb_neq; lia).
    cbn [negb].
    unfold vector_insert, vector_erase. cbn [app].
    replace (Z.to_nat (Z.of_nat tokenI + Z.of_nat j)) with (tokenI + j) by lia.
    replace (Z.to_nat (Z.of_nat tokenI + Z.of_nat k)) with (tokenI + k) by lia.
    rewrite take_app_le by (rewrite length_take; lia).
    rewrite take_take, Nat.min_l by lia.
    rewrite drop_app_le by (rewrite length_take; lia).
    rewrite !drop_drop. do 2 f_equal.
    rewrite take_drop_commute. reflexivity.
Qed.

(** ** #macret *)

(** X24 (#macret and the invocation stack).  A [#macret] that returns has
    popped exactly one frame and moved the cursor forward; the symbol
    table and the output are as before, and for a macro without a return
    type so is the stream.  With an empty stack it never returns. *)
Theorem X24_macret_pops_one_frame st tokenI st' c :
  _macret tokenize VARIABLE_TYPE_TO_NAME_MAP default_errorMsg st tokenI
    = Ok (st', c) ->
  tokenI < c
  /\ m_symbols st' = m_symbols st /\ m_writer st' = m_writer st
  /\ exists top,
       m_macroStack st = top :: m_macroStack st'
       /\ (returnType top.2 = UNKNOWN -> m_tokens st' = m_tokens st).
Proof.
  unfold _macret. intros H.
  apply bind_ok in H as ([t1 i1] & Hc & H).
  unfold consume in Hc. destruct (m_tokens st !! tokenI) as [t0|]; [|discriminate].
  injection Hc as _ <-.
  pose proof (skipTokens_le st (S tokenI) blank) as Hskip.
  remember (skipTokens st (S tokenI) blank) as start eqn:Hstart.
  destruct (m_macroStack st) as [|top popped] eqn:Hstack; [discriminate|].
  apply bind_ok in H as ([rv i2] & Hu & H).
  assert (Hi2 : start <= i2).
  { destruct (negb _); [|injection Hu as _ <-; lia].
    apply consume_until_cursor in Hu as (-> & _). lia. }
  destruct (macret_scan _ _) as [consumed level].
  destruct (negb (level =? 0)%Z); [discriminate|].
  injection H as <- <-.
  split; [lia|].
  destruct (negb (bool_decide (returnType top.2 = UNKNOWN))) eqn:Eret;
    cbn [m_symbols m_writer m_macroStack m_tokens set_macroStack set_tokens].
  - split; [reflexivity|]. split; [reflexivity|].
    exists top. split; [reflexivity|]. intros Hun.
    rewrite bool_decide_eq_true_2 in Eret by exact Hun. discriminate Eret.
  - split; [reflexivity|]. split; [reflexivity|].
    exists top. split; reflexivity.
Qed.

End MorePreprocessorFacts.

(** * The main loop *)

Section MainLoopFacts.
Import Tokenizer Preprocessor.
Local Open Scope string_scope.
Local Open Scope nat_scope.

Variable default_errorMsg : string.
Variable preprocessors : TokenType -> option handler.

Implicit Types (st : State) (ts : list Token) (t : Token).

Local Abbreviation loop := (preprocess_loop default_errorMsg preprocessors).

(** Every kind but WHITESPACE has a name. *)
Lemma kind_has_name (kind : TokenType) :
  kind <> WHITESPACE -> exists name, TYPE_TO_NAME_MAP kind = Some name.
Proof. destruct kind; intros H; solve [eexists; reflexivity | congruence]. Qed.

(** A token of kind WHITESPACE under the cursor ends the run in the
    exception of [TYPE_TO_NAME_MAP.at]: nothing of it is written. *)
Lemma loop_throws_on_WHITESPACE (fuel : nat) st i t
    (currentIndentLevel targetIndentLevel : Z) :
  m_tokens st !! i = Some t ->
  type t = WHITESPACE ->
  loop (S fuel) st i currentIndentLevel targetIndentLevel
  = Some (Fatal "map::at").
Proof. intros Ht Hty. cbn [preprocess_loop]. rewrite Ht, Hty. reflexivity. Qed.

(** X25 (a space where a tab is expected).  The loop never gets past a
    space token met while the line's indentation is below the scope
    depth: no amount of fuel makes it return. *)
Theorem X25_space_below_indent_never_returns (fuel : nat) st i t
    (currentIndentLevel targetIndentLevel : Z) :
  m_tokens st !! i = Some t ->
  type t = WHITESPACE_SPACE ->
  (currentIndentLevel < targetIndentLevel)%Z ->
  preprocess_loop default_errorMsg preprocessors fuel st i
    currentIndentLevel targetIndentLevel = None.
Proof.
  intros Ht Hty Hlt.
  induction fuel as [|fuel IH]; cbn [preprocess_loop]; [reflexivity|].
  rewrite Ht, Hty.
  change (TYPE_TO_NAME_MAP WHITESPACE_SPACE) with (Some "WHITESPACE_SPACE").
  rewrite (bool_decide_eq_false_2 (WHITESPACE_SPACE = WHITESPACE_NEWLINE)) by discriminate.
  rewrite (bool_decide_eq_false_2 (WHITESPACE_SPACE = WHITESPACE_TAB)) by discriminate.
  rewrite (bool_decide_eq_false_2 (WHITESPACE_SPACE = ASSEMBLER_SCEND)) by discriminate.
  rewrite (bool_decide_eq_true_2 (WHITESPACE_SPACE = WHITESPACE_SPACE)) by reflexivity.
  cbn [andb]. apply Z.ltb_lt in Hlt. rewrite Hlt. cbn [andb]. exact IH.
Qed.

Lemma write_tabs_fields st n :
  m_tokens (write_tabs st n) = m_tokens st
  /\ m_symbols (write_tabs st n) = m_symbols st
  /\ m_macroStack (write_tabs st n) = m_macroStack st.
Proof.
  revert st. induction n as [|n IH]; intros st; cbn [write_tabs]; [auto|].
  destruct (IH (writeString st tab)) as (-> & -> & ->). auto.
Qed.

(** X26 (a symbol defined in terms of itself).  When the token at the
    cursor is a symbol whose replacement list starts with that same
    symbol, and symbols have no handler of their own, every iteration
    puts the symbol back under the cursor: the loop never returns. *)
Theorem X26_self_reference_never_returns (fuel : nat) : forall st i s tail
    (currentIndentLevel targetIndentLevel : Z),
  preprocessors SYMBOL = None ->
  m_tokens st !! i = Some (mkToken SYMBOL s) ->
  m_symbols st !! s = Some (mkToken SYMBOL s :: tail) ->
  preprocess_loop default_errorMsg preprocessors fuel st i
    currentIndentLevel targetIndentLevel = None.
Proof.
  induction fuel as [|fuel IH]; intros st i s tail cur tgt Hp Ht Hs;
    cbn [preprocess_loop]; [reflexivity|].
  rewrite Ht. cbn [type value].
  change (TYPE_TO_NAME_MAP SYMBOL) with (Some "SYMBOL").
  rewrite (bool_decide_eq_false_2 (SYMBOL = WHITESPACE_NEWLINE)) by discriminate.
  rewrite (bool_decide_eq_false_2 (SYMBOL = WHITESPACE_TAB)) by discriminate.
  rewrite (bool_decide_eq_false_2 (SYMBOL = ASSEMBLER_SCEND)) by discriminate.
  rewrite (bool_decide_eq_false_2 (SYMBOL = WHITESPACE_SPACE)) by discriminate.
  cbn [andb negb]. rewrite !andb_false_r, !andb_true_r.
  set (st1 := if (cur <? tgt)%Z then write_tabs st (Z.to_nat (tgt - cur)) else st).
  assert (H1 : m_tokens st1 = m_tokens st /\ m_symbols st1 = m_symbols st).
  { unfold st1. destruct (cur <? tgt)%Z; [|auto].
    destruct (write_tabs_fields st (Z.to_nat (tgt - cur))) as (-> & -> & _). auto. }
  destruct H1 as (Htok & Hsym).
  assert (Hi : i < length (m_tokens st)) by (apply lookup_lt_is_Some; eauto).
  unfold dispatch. cbn [type value]. rewrite Hp.
  rewrite bool_decide_eq_true_2 by reflexivity.
  rewrite Hsym, Hs. unfold consume. rewrite Htok, Ht. cbn [mbind result_bind].
  cbn [m_tokens set_tokens]. unfold vector_insert.
  (* the element the reference designates is still the symbol *)
  rewrite (lookup_app_l _ _ i) by (rewrite length_take; lia).
  rewrite lookup_take_lt by lia. rewrite Ht. cbn [type].
  eapply IH; [exact Hp| |].
  - cbn [m_tokens set_tokens].
    rewrite lookup_app_r by (rewrite length_take; lia).
    rewrite length_take.
    replace (S i - S i `min` length (m_tokens st)) with 0 by lia.
    reflexivity.
  - cbn [m_symbols set_tokens]. rewrite Hsym. exact Hs.
Qed.

(** What the loop does on a token that needs no processing. *)
Lemma loop_plain_step (fuel : nat) st i t (cur tgt : Z) :
  m_tokens st !! i = Some t ->
  type t <> WHITESPACE ->
  preprocessors (type t) = None ->
  (type t = SYMBOL -> m_symbols st !! value t = None) ->
  type t <> ASSEMBLER_SCOPE ->
  (0 <= cur)%Z -> (tgt <= 0)%Z ->
  exists cur' tgt' w,
    (0 <= cur')%Z /\ (tgt' <= 0)%Z
    /\ collapse [t] (m_writer st) = w
    /\ loop (S fuel) st i cur tgt
       = loop fuel (mkState (m_tokens st) (m_symbols st) (m_macroStack st) w)
           (S i) cur' tgt'.
Proof.
  intros Ht Hname Hp Hs Hscope Hcur Htgt. cbn [preprocess_loop collapse].
  rewrite Ht. destruct (kind_has_name (type t) Hname) as [name ->].
  destruct (bool_decide (type t = WHITESPACE_NEWLINE)
            && bool_decide (lastByteWritten (m_writer st) = "010"%char)) eqn:Enl.
  - exists cur, tgt, (m_writer st). repeat split; try lia.
    destruct st; reflexivity.
  - set (cur1 := if bool_decide (type t = WHITESPACE_TAB) then (cur + 1)%Z
                 else if bool_decide (type t = WHITESPACE_NEWLINE) then 0%Z
                 else cur).
    set (tgt1 := if bool_decide (type t = ASSEMBLER_SCEND) then (tgt - 1)%Z
                 else tgt).
    assert (Hc1 : (0 <= cur1)%Z)
      by (unfold cur1; destruct (bool_decide (type t = WHITESPACE_TAB));
          [|destruct (bool_decide (type t = WHITESPACE_NEWLINE))]; lia).
    assert (Ht1 : (tgt1 <= 0)%Z)
      by (unfold tgt1; destruct (bool_decide (type t = ASSEMBLER_SCEND)); lia).
    assert (Hlt : (cur1 <? tgt1)%Z = false) by (apply Z.ltb_ge; lia).
    rewrite Hlt. cbn [andb].
    unfold dispatch. rewrite Hp.
    assert (Hsub : (if bool_decide (type t = SYMBOL)
                    then m_symbols st !! value t else None) = None).
    { destruct (decide (type t = SYMBOL)) as [Hsy|Hsy].
      - rewrite bool_decide_eq_true_2 by exact Hsy. exact (Hs Hsy).
      - rewrite bool_decide_eq_false_2 by exact Hsy. reflexivity. }
    rewrite Hsub. unfold consume. rewrite Ht. cbn [mbind result_bind].
    cbn [m_tokens writeString]. rewrite Ht.
    rewrite (bool_decide_eq_false_2 (type t = ASSEMBLER_SCOPE)) by exact Hscope.
    exists cur1, tgt1, (m_writer st ++ value t). repeat split; try lia.
Qed.

(** X27 (a stream with nothing to process).  On a stream without scope
    openers whose tokens have a name in [TYPE_TO_NAME_MAP], no handler
    and name no defined symbol, [preprocess] returns with one step of
    fuel per token and one more; the stream, the symbol table and the
    stack are as before and the text written is the tokens' text in
    order, less the newline tokens that would follow a newline. *)
Theorem X27_preprocess_plain_stream ts symbols stack :
  Forall (fun t => type t <> WHITESPACE
                   /\ preprocessors (type t) = None
                   /\ (type t = SYMBOL -> symbols !! value t = None)
                   /\ type t <> ASSEMBLER_SCOPE) ts ->
  preprocess default_errorMsg preprocessors (S (length ts))
    (mkState ts symbols stack EmptyString)
  = Some (Ok (mkState ts symbols stack (collapse ts EmptyString))).
Proof.
  intros Hts. unfold preprocess.
  assert (Hgen : forall (n i : nat) w (cur tgt : Z),
    n = length ts - i -> i <= length ts -> (0 <= cur)%Z -> (tgt <= 0)%Z ->
    loop (S n) (mkState ts symbols stack w) i cur tgt
    = Some (Ok (mkState ts symbols stack (collapse (drop i ts) w)))).
  { induction n as [|n IH]; intros i w cur tgt Hn Hi Hcur Htgt.
    - cbn [preprocess_loop m_tokens].
      rewrite lookup_ge_None_2 by lia. rewrite drop_ge by lia. reflexivity.
    - destruct (lookup_lt_is_Some_2 ts i) as [t Ht]; [lia|].
      rewrite Forall_lookup in Hts.
      destruct (Hts i t Ht) as (Hname & Hp & Hs & Hsc).
      destruct (loop_plain_step (S n) (mkState ts symbols stack w) i t cur tgt)
        as (cur' & tgt' & w' & Hc' & Ht' & Hw & Hstep); auto.
      rewrite Hstep. cbn [m_tokens m_symbols m_macroStack].
      rewrite IH by lia. do 3 f_equal.
      rewrite (drop_S ts t i Ht). cbn [collapse m_writer] in *.
      destruct (_ && _); exact (f_equal _ (eq_sym Hw)) || (rewrite <- Hw; reflexivity). }
  rewrite (Hgen (length ts) 0 EmptyString 0%Z 0%Z) by lia.
  rewrite drop_0. reflexivity.
Qed.

End MainLoopFacts.

Section MorePreprocessorSamples.
Import Tokenizer Preprocessor Samples MoreSamples.
Local Open Scope string_scope.
Local Open Scope nat_scope.

(** X20, at [#define S 1\n]. *)
Lemma X20_define_returns_witness :
  _define eof_msg define_S 0 = Ok (defined_S, 5)
  /\ let symbolI := skipTokens define_S 1 blank in
     let valueI := skipTokens define_S (S symbolI) blank in
     m_tokens defined_S = m_tokens define_S
     /\ m_macroStack defined_S = m_macroStack define_S
     /\ m_writer defined_S = m_writer define_S
     /\ exists symbol newline_token,
          m_tokens define_S !! symbolI = Some symbol /\ type symbol = SYMBOL
          /\ valueI <= 5
          /\ m_tokens define_S !! 5 = Some newline_token
          /\ type newline_token = WHITESPACE_NEWLINE
          /\ (forall j t, valueI <= j < 5 -> m_tokens define_S !! j = Some t ->
                type t <> WHITESPACE_NEWLINE)
          /\ (forall s, s <> value symbol ->
                m_symbols defined_S !! s = m_symbols define_S !! s)
          /\ (m_symbols define_S !! value symbol = None ->
              m_symbols defined_S !! value symbol
              = Some (take (5 - valueI) (drop valueI (m_tokens define_S))))
          /\ (forall old, m_symbols define_S !! value symbol = Some old ->
                m_symbols defined_S !! value symbol = Some old).
Proof.
  assert (H : _define eof_msg define_S 0 = Ok (defined_S, 5)) by reflexivity.
  split; [exact H|].
  exact (X20_define_returns eof_msg define_S 0 defined_S 5 H).
Defined.

(** X21, at [#define S 1] followed by the end of the file. *)
Lemma X21_define_needs_newline_witness :
  Forall (fun t => type t <> WHITESPACE_NEWLINE)
         (drop 1 (m_tokens define_S_unterminated))
  /\ exists msg, _define eof_msg define_S_unterminated 0 = Fatal msg.
Proof.
  assert (H : Forall (fun t => type t <> WHITESPACE_NEWLINE)
                     (drop 1 (m_tokens define_S_unterminated)))
    by (cbn; repeat constructor; discriminate).
  split; [exact H|].
  exact (X21_define_needs_newline eof_msg define_S_unterminated 0 H).
Defined.

(** X22, at [#undef S\n] with [S] bound. *)
Lemma X22_undefine_returns_witness :
  _undefine eof_msg undef_S 0 = Ok (undefined_S, 3)
  /\ let symbolI := skipTokens undef_S 1 blank in
     m_tokens undefined_S = m_tokens undef_S
     /\ m_macroStack undefined_S = m_macroStack undef_S
     /\ m_writer undefined_S = m_writer undef_S
     /\ 3 = skipTokens undef_S (S symbolI) blank
     /\ exists symbol,
          m_tokens undef_S !! symbolI = Some symbol /\ type symbol = SYMBOL
          /\ m_symbols undefined_S !! value symbol = None
          /\ (forall s, s <> value symbol ->
                m_symbols undefined_S !! s = m_symbols undef_S !! s)
          /\ (m_symbols undef_S !! value symbol = None -> undefined_S = undef_S).
Proof.
  assert (H : _undefine eof_msg undef_S 0 = Ok (undefined_S, 3)) by reflexivity.
  split; [exact H|].
  exact (X22_undefine_returns eof_msg undef_S 0 undefined_S 3 H).
Defined.

(** X23, at a block with a block nested in it and the condition met:
    the cursor is on the newline after [#ifdef FOO], token 3. *)
Lemma X23_conditionalBlock_met_witness :
  conditionalBlock true (initial nested_ifdef_tokens) 3
    = Ok (taken_nested_block, 3)
  /\ let rest := drop 3 (m_tokens (initial nested_ifdef_tokens)) in
     3 = 3
     /\ m_symbols taken_nested_block = m_symbols (initial nested_ifdef_tokens)
     /\ m_macroStack taken_nested_block
        = m_macroStack (initial nested_ifdef_tokens)
     /\ m_writer taken_nested_block = m_writer (initial nested_ifdef_tokens)
     /\ exists (nextBlock endIf : nat),
          first_at_level_0 0 rest [PREPROCESSOR_ENDIF] endIf
          /\ ((nextBlock < endIf
               /\ first_at_level_0 0 rest ELSE_KINDS nextBlock)
              \/ (nextBlock = endIf
                  /\ forall j, j < endIf -> ~ at_level_0 0 rest ELSE_KINDS j))
          /\ m_tokens taken_nested_block
             = (take 3 (m_tokens (initial nested_ifdef_tokens))
                ++ mkToken COMMENT_SINGLE_LINE "; conditional"
                :: take nextBlock rest
                ++ drop endIf rest)%list.
Proof.
  assert (H : conditionalBlock true (initial nested_ifdef_tokens) 3
              = Ok (taken_nested_block, 3)) by reflexivity.
  split; [exact H|].
  exact (X23_conditionalBlock_met (initial nested_ifdef_tokens) 3
           taken_nested_block 3 H).
Defined.

(** X24, at the [#macret] of [macro_m], which returns nothing. *)
Lemma X24_macret_pops_one_frame_witness :
  _macret no_tokens no_name eof_msg in_macro_m 0
    = Ok (set_macroStack in_macro_m [], 2)
  /\ 0 < 2
  /\ m_symbols (set_macroStack in_macro_m []) = m_symbols in_macro_m
  /\ m_writer (set_macroStack in_macro_m []) = m_writer in_macro_m
  /\ exists top,
       m_macroStack in_macro_m
       = top :: m_macroStack (set_macroStack in_macro_m [])
       /\ (returnType top.2 = UNKNOWN ->
           m_tokens (set_macroStack in_macro_m []) = m_tokens in_macro_m).
Proof.
  assert (H : _macret no_tokens no_name eof_msg in_macro_m 0
              = Ok (set_macroStack in_macro_m [], 2)) by reflexivity.
  split; [exact H|].
  exact (X24_macret_pops_one_frame no_tokens no_name eof_msg in_macro_m 0
           (set_macroStack in_macro_m []) 2 H).
Defined.

(** X25, at the space of [.scope\n mov\n], token 2, with the scope
    open and the line not yet indented. *)
Lemma X25_space_below_indent_never_returns_witness :
  m_tokens scope_then_space !! 2 = Some sp
  /\ type sp = WHITESPACE_SPACE
  /\ (0 < 1)%Z
  /\ preprocess_loop eof_msg directive_table 1000 scope_then_space 2 0 1 = None.
Proof.
  split; [reflexivity|]. split; [reflexivity|]. split; [lia|].
  apply (X25_space_below_indent_never_returns eof_msg directive_table 1000
           scope_then_space 2 sp 0 1); [reflexivity|reflexivity|lia].
Defined.

(** X26, at [A\n] with [A] defined as [A]. *)
Lemma X26_self_reference_never_returns_witness :
  directive_table SYMBOL = None
  /\ m_tokens A_is_A !! 0 = Some (mkToken SYMBOL "A")
  /\ m_symbols A_is_A !! "A" = Some [mkToken SYMBOL "A"]
  /\ preprocess_loop eof_msg directive_table 1000 A_is_A 0 0 0 = None.
Proof.
  assert (H : m_symbols A_is_A !! "A" = Some [mkToken SYMBOL "A"])
    by (vm_compute; reflexivity).
  split; [reflexivity|]. split; [reflexivity|]. split; [exact H|].
  exact (X26_self_reference_never_returns eof_msg directive_table 1000
           A_is_A 0 "A" [] 0%Z 0%Z eq_refl eq_refl H).
Defined.

(** X27, at [mov 1\n\n.stop\n] with nothing defined. *)
Lemma X27_preprocess_plain_stream_witness :
  Forall (fun t => type t <> WHITESPACE
                   /\ directive_table (type t) = None
                   /\ (type t = SYMBOL ->
                       (∅ : gmap string (list Token)) !! value t = None)
                   /\ type t <> ASSEMBLER_SCOPE) plain_tokens
  /\ preprocess eof_msg directive_table (S (length plain_tokens))
       (mkState plain_tokens ∅ [] EmptyString)
     = Some (Ok (mkState plain_tokens ∅ []
                   (collapse plain_tokens EmptyString))).
Proof.
  assert (H : Forall (fun t => type t <> WHITESPACE
                       /\ directive_table (type t) = None
                       /\ (type t = SYMBOL ->
                           (∅ : gmap string (list Token)) !! value t = None)
                       /\ type t <> ASSEMBLER_SCOPE) plain_tokens).
  { repeat constructor; solve [discriminate | intros _; apply lookup_empty]. }
  split; [exact H|].
  exact (X27_preprocess_plain_stream eof_msg directive_table plain_tokens ∅ [] H).
Defined.

End MorePreprocessorSamples.
